(** * mixgram-core: the history rewrite engine of package [core]

    A shallow embedding of [core] (PushCommit, FetchCommits, TrimOldCommits,
    DeleteCommit, ModifyCommit) and of the helpers of [internel/utils] they
    call.  The go-git library, the SSH transport, the clock and the random
    source are not part of the repository: they are gathered in a record
    [World] of oracles, and the in-memory storage the operations work on is a
    pair of finite maps.  Go's [error] results, panics and the mutation of the
    cloned repository are threaded through a small state-and-failure monad. *)

From Stdlib Require Import ZArith Lia.
From stdpp Require Import base option numbers list strings gmap sets.

Local Open Scope string_scope.
Local Open Scope list_scope.
Local Open Scope Z_scope.

(* ================================================================== *)
(** ** Go's [int] *)

(** [int] is taken 64 bits wide, as it is on the 64-bit targets of the
    package; its arithmetic wraps around in two's complement. *)
Definition MinInt : Z := - 2 ^ 63.
Definition MaxInt : Z := 2 ^ 63 - 1.

Definition wrap (z : Z) : Z := (z + 2 ^ 63) mod 2 ^ 64 - 2 ^ 63.

Definition int_sub (a b : Z) : Z := wrap (a - b).
Definition int_add (a b : Z) : Z := wrap (a + b).

(** [len(s)] of a slice. *)
Definition len {A} (s : list A) : Z := Z.of_nat (length s).

(* ================================================================== *)
(** ** Errors and panics *)

(** An [error] value: a sentinel exported by a library, a text made by
    [errors.New] (or by [fmt.Errorf] without [%w]), or a text wrapping a
    cause, made by [fmt.Errorf("text: %w", cause)]. *)
Inductive error : Type :=
| Sentinel (name : string)
| New (text : string)
| Wrap (text : string) (cause : error).

#[global] Instance error_eq_dec : EqDecision error.
Proof. solve_decision. Defined.

(** [git.NoErrAlreadyUpToDate], [io.EOF], [plumbing.ErrObjectNotFound],
    [plumbing.ErrReferenceNotFound]. *)
Definition NoErrAlreadyUpToDate : error := Sentinel "already up-to-date".
Definition io_EOF : error := Sentinel "EOF".
Definition ErrObjectNotFound : error := Sentinel "object not found".
Definition ErrReferenceNotFound : error := Sentinel "reference not found".

(** [errors.Is(err, target)]: [target] occurs on the chain of causes. *)
Fixpoint errors_Is (err target : error) : bool :=
  bool_decide (err = target) ||
  match err with
  | Wrap _ cause => errors_Is cause target
  | _ => false
  end.

(** The two failures of the rewrite policies that carry no cause. *)
Definition CommitNotFound : error := New "commit not found in history".
Definition CannotDeleteSoleCommit : error :=
  New "cannot delete the only commit in the repository".

(** Run-time panics the operations can raise. *)
Inductive panic : Type :=
| IndexOutOfRange (index length : Z)
| MakesliceLenOutOfRange
| MakesliceCapOutOfRange.

(** The most bytes [make] asks the allocator for ([maxAlloc] of the run
    time, [1 << 48] on the 64-bit targets): [makeslice] panics when the
    length or the capacity is negative, or when the slice would be larger.
    (Below that limit the allocator may still find no memory; this ends the
    process with a fatal error, and is outside the model, as it is for every
    other allocation.) *)
Definition maxAlloc : Z := 2 ^ 48.

(* ================================================================== *)
(** ** go-git's data: hashes, references, signatures, commits *)

Module plumbing.
(** A 20-byte object id, as the number its bytes spell. *)
Definition Hash : Type := N.
Definition ZeroHash : Hash := 0%N.

Definition ReferenceName : Type := string.

(** [ReferenceName.IsBranch]: the name starts with [refs/heads/]. *)
Definition IsBranch (r : ReferenceName) : bool :=
  String.prefix "refs/heads/" r.

Record Reference : Type := NewHashReference
  { Reference_Name : ReferenceName; Reference_Hash : Hash }.
End plumbing.

Module object.
Record Signature : Type :=
  { Name : string; Email : string; When : Z (* Unix time, nanoseconds *) }.

Record Commit : Type :=
  { Hash : plumbing.Hash;
    Author : Signature;
    Committer : Signature;
    Message : string;
    TreeHash : plumbing.Hash;
    ParentHashes : list plumbing.Hash }.

Record Tree : Type := { Tree_Hash : plumbing.Hash }.
End object.

(** [time.Time.UnixMilli] and [time.Time.Unix]: the whole milliseconds and
    the whole seconds of a time, rounded down; [time.Unix(sec, 0)]. *)
Definition UnixMilli (t : Z) : Z := t / 1000000.
Definition Unix (t : Z) : Z := t / 1000000000.
Definition time_Unix (sec : Z) : Z := sec * 1000000000.

(** What [Signature.Encode] writes of a signature: the name, the e-mail
    and, of the time, the whole seconds, [0] in place of a negative number
    ([u := s.When.Unix(); if u < 0 { u = 0 }]).  [Signature.Decode] reads
    the name, the e-mail and a whole number of seconds of either sign.
    (The zone, written beside the seconds and read back with them, is not
    modelled.) *)
Definition written (s : object.Signature) : object.Signature :=
  {| object.Name := object.Name s;
     object.Email := object.Email s;
     object.When := time_Unix (Z.max 0 (Unix (object.When s))) |}.

Definition readBack (s : object.Signature) : object.Signature :=
  {| object.Name := object.Name s;
     object.Email := object.Email s;
     object.When := time_Unix (Unix (object.When s)) |}.

(** What [Commit.Encode] writes into an object: every field but [Hash],
    which the storage derives from the written bytes; the two signatures
    are held as they were written. *)
Record EncodedObject : Type :=
  { enc_Author : object.Signature;
    enc_Committer : object.Signature;
    enc_Message : string;
    enc_TreeHash : plumbing.Hash;
    enc_ParentHashes : list plumbing.Hash }.

Definition encoding (c : object.Commit) : EncodedObject :=
  {| enc_Author := written (object.Author c);
     enc_Committer := written (object.Committer c);
     enc_Message := object.Message c;
     enc_TreeHash := object.TreeHash c;
     enc_ParentHashes := object.ParentHashes c |}.

(** [Commit.Decode]: the commit read back from the object stored under [h]. *)
Definition decoding (h : plumbing.Hash) (o : EncodedObject) : object.Commit :=
  {| object.Hash := h;
     object.Author := readBack (enc_Author o);
     object.Committer := readBack (enc_Committer o);
     object.Message := enc_Message o;
     object.TreeHash := enc_TreeHash o;
     object.ParentHashes := enc_ParentHashes o |}.

#[global] Instance Signature_eq_dec : EqDecision object.Signature.
Proof. solve_decision. Defined.
#[global] Instance Commit_eq_dec : EqDecision object.Commit.
Proof. solve_decision. Defined.
#[global] Instance EncodedObject_eq_dec : EqDecision EncodedObject.
Proof. solve_decision. Defined.

(** A commit iterator, as [Repository.Log] hands it out: the commits it
    yields, in order, and the error (if any) its [Next] ends with in place of
    [io.EOF]. *)
Record CommitIter : Type :=
  { iter_commits : list object.Commit; iter_err : option error }.

(** [ssh.PublicKeys]: the user, the key, and whether the host key is left
    unchecked. *)
Record PublicKeys : Type :=
  { pk_User : string; pk_Key : string; pk_InsecureIgnoreHostKey : bool }.

Record PushOptions : Type :=
  { Auth : PublicKeys; Force : bool; RefSpecs : list string }.

(** Where [HEAD] points: at a reference by name, or (detached) at a hash. *)
Inductive HeadTarget : Type :=
| Symbolic (target : plumbing.ReferenceName)
| Detached (h : plumbing.Hash).

(** The cloned repository with its [memory.Storage]. *)
Record Repository : Type :=
  { Objects : gmap plumbing.Hash EncodedObject;
    Trees : gset plumbing.Hash;
    HEAD : HeadTarget;
    Refs : gmap string plumbing.Hash }.

(** The reference [HEAD] resolves to: the branch it names with the hash
    the branch has, or [HEAD] itself when detached. *)
Definition resolveHead (r : Repository) : error + plumbing.Reference :=
  match HEAD r with
  | Symbolic target =>
      match Refs r !! target with
      | Some h => inr (plumbing.NewHashReference target h)
      | None => inl ErrReferenceNotFound
      end
  | Detached h => inr (plumbing.NewHashReference "HEAD" h)
  end.

(* ================================================================== *)
(** ** The machine and the monad *)

(** Calls that leave the process or change the storage, in the order made. *)
Inductive Event : Type :=
| EvEncodeFailed (c : object.Commit)
| EvStoreFailed (o : EncodedObject)
| EvObjectStored (h : plumbing.Hash) (o : EncodedObject)
| EvReferenceSet (r : plumbing.Reference)
| EvPush (o : PushOptions) (outcome : option error).

Record Machine : Type :=
  { repo : Repository;      (* the storage [CloneToMemory] allocated last *)
    clock : nat;            (* how often [time.Now] was read *)
    trace : list Event }.

Inductive Res (A : Type) : Type :=
| Ret (a : A)
| Err (e : error)
| Panicked (p : panic).
Arguments Ret {A} a.
Arguments Err {A} e.
Arguments Panicked {A} p.

Definition M (A : Type) : Type := Machine → Res A * Machine.

Definition ret {A} (a : A) : M A := λ m, (Ret a, m).
Definition fail {A} (e : error) : M A := λ m, (Err e, m).
Definition throw {A} (p : panic) : M A := λ m, (Panicked p, m).

Definition bind {A B} (c : M A) (k : A → M B) : M B :=
  λ m, match c m with
       | (Ret a, m') => k a m'
       | (Err e, m') => (Err e, m')
       | (Panicked p, m') => (Panicked p, m')
       end.

(** [let! x := c in k]: run [c]; on a value go on with [k], on an error or
    a panic stop there. *)
Notation "'let!' x ':=' c 'in' k" := (bind c (λ x, k))
  (at level 10, x name, c at level 100, k at level 200,
   format "'[v' 'let!'  x  ':='  c  'in' '/' k ']'").
Notation "'do!' c 'in' k" := (bind c (λ _, k))
  (at level 10, c at level 100, k at level 200,
   format "'[v' 'do!'  c  'in' '/' k ']'").

(** [if err != nil { return fmt.Errorf("text: %w", err) }]. *)
Definition orWrap {A} (text : string) (c : M A) : M A :=
  λ m, match c m with
       | (Err e, m') => (Err (Wrap text e), m')
       | r => r
       end.

Definition getRepo : M Repository := λ m, (Ret (repo m), m).
Definition setRepo (r : Repository) : M unit :=
  λ m, (Ret tt, {| repo := r; clock := clock m; trace := trace m |}).
Definition emit (e : Event) : M unit :=
  λ m, (Ret tt, {| repo := repo m; clock := clock m; trace := trace m ++ [e] |}).

(** [s[i]], with the bounds check of the run time. *)
Definition index {A} (s : list A) (i : Z) : M A :=
  if bool_decide (0 ≤ i < len s) then
    match s !! Z.to_nat i with
    | Some a => ret a
    | None => throw (IndexOutOfRange i (len s))
    end
  else throw (IndexOutOfRange i (len s)).

(** [makeslice(et, len, cap)] of the run time, for elements of [size]
    bytes: the check [make] runs before it allocates,
    [if overflow || mem > maxAlloc || len < 0 || len > cap], [mem] being
    [size * cap]; the panic names the length when the length alone is at
    fault, and the capacity otherwise. *)
Definition makeslice (size len cap : Z) : M unit :=
  if (cap <? 0) || (maxAlloc <? size * cap) || (len <? 0) || (cap <? len)
  then
    if (len <? 0) || (maxAlloc <? size * len)
    then throw MakesliceLenOutOfRange
    else throw MakesliceCapOutOfRange
  else ret tt.

(** [make([]byte, n)]: [n] zero bytes. *)
Definition makeBytes (n : Z) : M (list Ascii.ascii) :=
  do! makeslice 1 n n in ret (replicate (Z.to_nat n) Ascii.zero).

(* ================================================================== *)
(** ** The world outside the repository *)

(** What the libraries and the environment answer.  Each field stands for
    the call named in its comment; nothing is assumed of the answers. *)
Record World : Type :=
  { (* ggssh.NewPublicKeys(user, pem, password) *)
    ssh_NewPublicKeys : string → string → string → error + PublicKeys;
    (* git.Clone(storer, fs, &CloneOptions{URL, Auth}) *)
    git_Clone : string → PublicKeys → error + Repository;
    (* repo.Log(&LogOptions{From: h}) *)
    Repository_Log : Repository → plumbing.Hash → error + CommitIter;
    (* the value of the k-th reading of time.Now() *)
    time_Now : nat → Z;
    (* the id the storage derives from an encoded object *)
    Hash_of : EncodedObject → plumbing.Hash;
    (* the error of Commit.Encode, if it fails *)
    Encode_err : object.Commit → option error;
    (* the error of Storer.SetEncodedObject, if it fails *)
    SetEncodedObject_err : EncodedObject → option error;
    (* the error of Storer.SetReference, if it fails *)
    SetReference_err : plumbing.Reference → option error;
    (* the error repo.Push(&PushOptions{...}) returns, nil when None *)
    Repository_Push : Repository → PushOptions → option error;
    (* plumbing.NewHash(s) and Hash.String() *)
    plumbing_NewHash : string → plumbing.Hash;
    Hash_String : plumbing.Hash → string;
    (* rand.Read on a buffer of n bytes *)
    rand_Read : nat → list Byte.byte;
    (* repo.Worktree(), wt.Filesystem.Create(path), wt.Add(path) after the
       file was written, wt.Commit(msg, &CommitOptions{Author}) *)
    Repository_Worktree_err : Repository → option error;
    Filesystem_Create_err : Repository → string → option error;
    Worktree_Add : Repository → string → string → error + Repository;
    Worktree_Commit :
      Repository → string → object.Signature → error + Repository }.

(** The package variables [UserName] and [UserEmail]. *)
Definition UserName : string := "MixGram".
Definition UserEmail : string := "admin@mixgram.org".

Section Core.
Variable w : World.

(** *** Calls into the libraries *)

(** [time.Now()]. *)
Definition Now : M Z :=
  λ m, (Ret (time_Now w (clock m)),
        {| repo := repo m; clock := S (clock m); trace := trace m |}).

(** [repo.Head()]: the reference [HEAD] resolves to. *)
Definition Head : M plumbing.Reference :=
  let! r := getRepo in
  match resolveHead r with
  | inl err => fail err
  | inr ref => ret ref
  end.

(** [repo.Log(&git.LogOptions{From: from})]. *)
Definition Log (from : plumbing.Hash) : M CommitIter :=
  let! r := getRepo in
  match Repository_Log w r from with
  | inl err => fail err
  | inr it => ret it
  end.

(** [iter.ForEach(cb)]: [cb] runs on every commit the iterator yields
    until it returns an error, which [ForEach] returns; the closure's
    captured variables are the state [S]. *)
Fixpoint ForEach_loop {S} (cs : list object.Commit) (tail : option error)
    (cb : object.Commit → S → S * option error) (s : S) : S * option error :=
  match cs with
  | [] => (s, tail)
  | c :: rest =>
      match cb c s with
      | (s', None) => ForEach_loop rest tail cb s'
      | (s', Some err) => (s', Some err)
      end
  end.

Definition ForEach {S} (it : CommitIter)
    (cb : object.Commit → S → S * option error) (s : S) : S * option error :=
  ForEach_loop (iter_commits it) (iter_err it) cb s.

(** [c.Tree()]: the tree object of [c], looked up by [c.TreeHash]. *)
Definition Commit_Tree (c : object.Commit) : M object.Tree :=
  let! r := getRepo in
  if bool_decide (object.TreeHash c ∈ Trees r)
  then ret {| object.Tree_Hash := object.TreeHash c |}
  else fail ErrObjectNotFound.

(** [obj := storer.NewEncodedObject(); c.Encode(obj)]. *)
Definition Encode (c : object.Commit) : M EncodedObject :=
  match Encode_err w c with
  | Some err => do! emit (EvEncodeFailed c) in fail err
  | None => ret (encoding c)
  end.

(** [storer.SetEncodedObject(obj)]: the object is kept under its id. *)
Definition SetEncodedObject (obj : EncodedObject) : M plumbing.Hash :=
  match SetEncodedObject_err w obj with
  | Some err => do! emit (EvStoreFailed obj) in fail err
  | None =>
      let! r := getRepo in
      let h := Hash_of w obj in
      do! setRepo {| Objects := <[h := obj]> (Objects r); Trees := Trees r;
                     HEAD := HEAD r; Refs := Refs r |} in
      do! emit (EvObjectStored h obj) in
      ret h
  end.

(** [repo.Storer.SetReference(ref)]. *)
Definition SetReference (ref : plumbing.Reference) : M unit :=
  match SetReference_err w ref with
  | Some err => fail err
  | None =>
      let! r := getRepo in
      do! setRepo {| Objects := Objects r; Trees := Trees r; HEAD := HEAD r;
                     Refs := <[plumbing.Reference_Name ref :=
                                 plumbing.Reference_Hash ref]> (Refs r) |} in
      emit (EvReferenceSet ref)
  end.

(** [repo.Push(opts)]; the error it returns is the value. *)
Definition Push (opts : PushOptions) : M (option error) :=
  let! r := getRepo in
  let outcome := Repository_Push w r opts in
  do! emit (EvPush opts outcome) in
  ret outcome.

(** [repo.Worktree()], [wt.Filesystem.Create(path)] followed by the write
    and the close whose results are dropped, [wt.Add(path)] and
    [wt.Commit(msg, &git.CommitOptions{Author: author})]. *)
Definition Worktree : M unit :=
  let! r := getRepo in
  match Repository_Worktree_err w r with
  | Some err => fail err
  | None => ret tt
  end.

Definition Filesystem_Create (path : string) : M unit :=
  let! r := getRepo in
  match Filesystem_Create_err w r path with
  | Some err => fail err
  | None => ret tt
  end.

Definition Add (path content : string) : M unit :=
  let! r := getRepo in
  match Worktree_Add w r path content with
  | inl err => fail err
  | inr r' => setRepo r'
  end.

Definition Commit (msg : string) (author : object.Signature) : M unit :=
  let! r := getRepo in
  match Worktree_Commit w r msg author with
  | inl err => fail err
  | inr r' => setRepo r'
  end.

(** *** Loops *)

(** [for i := start; i >= 0; i-- { body }], entered with [n = start + 1]
    when [start >= 0] and with [n = 0] otherwise; an early [return] of the
    body is an error of the monad. *)
Fixpoint countdown {A} (n : nat) (body : Z → A → M A) (a : A) : M A :=
  match n with
  | O => ret a
  | S i => let! a' := body (Z.of_nat i) a in countdown i body a'
  end.

Definition forDownTo0 {A} (start : Z) (body : Z → A → M A) (a : A) : M A :=
  countdown (Z.to_nat (start + 1)) body a.

(** [for i, x := range xs { body }], the index starting at [i]. *)
Fixpoint forRange {A B} (i : Z) (xs : list B) (body : Z → B → A → M A)
    (a : A) : M A :=
  match xs with
  | [] => ret a
  | x :: rest => let! a' := body i x a in forRange (i + 1) rest body a'
  end.

(* ================================================================ *)
(** ** internel/utils *)

(** [hex.EncodeToString]. *)
Definition hexDigit (n : N) : Ascii.ascii :=
  Ascii.ascii_of_N (if (n <? 10)%N then 48 + n else 87 + n).

Fixpoint hex_EncodeToString (bs : list Byte.byte) : string :=
  match bs with
  | [] => EmptyString
  | b :: rest =>
      let n := Byte.to_N b in
      String (hexDigit (n / 16)) (String (hexDigit (n mod 16))
        (hex_EncodeToString rest))
  end.

(** [RandomHexString]: the buffer [rBytes] is made, filled by [rand.Read],
    and [hex.EncodeToString] makes the buffer of the digits, twice as
    long. *)
Definition RandomHexString (length : Z) : M string :=
  let n := Z.quot length 2 in
  do! makeslice 1 n n in
  let rBytes := rand_Read w (Z.to_nat n) in
  do! makeslice 1 (2 * n) (2 * n) in
  ret (hex_EncodeToString rBytes).

Definition NewSSHAuth (sshKeyPEM : string) : M PublicKeys :=
  match ssh_NewPublicKeys w "git" sshKeyPEM "" with
  | inl err => fail (Wrap "create public keys" err)
  | inr auth =>
      ret {| pk_User := pk_User auth; pk_Key := pk_Key auth;
             pk_InsecureIgnoreHostKey := true |}
  end.

(** [CloneToMemory]: a fresh storage is allocated and filled by the clone;
    from then on it is the repository of the machine. *)
Definition CloneToMemory (repoURL : string) (auth : PublicKeys) : M unit :=
  match git_Clone w repoURL auth with
  | inl err => fail (Wrap "clone" err)
  | inr r => setRepo r
  end.

(* ================================================================ *)
(** ** core *)

(** The committer of every commit the package writes. *)
Definition committerAt (now : Z) : object.Signature :=
  {| object.Name := UserName; object.Email := UserEmail;
     object.When := now |}.

Definition refSpec (refName : plumbing.ReferenceName) : string :=
  refName +:+ ":" +:+ refName.

(** *** PushCommit *)

Definition PushCommit (repoURL sshKeyPEM commitMsg : string) : M unit :=
  let! auth := NewSSHAuth sshKeyPEM in
  let! readme := RandomHexString 32 in
  let files := [("README.MD", readme)] in
  do! orWrap "clone repo" (CloneToMemory repoURL auth) in
  do! orWrap "worktree" Worktree in
  let! headRef := orWrap "head" Head in
  let refName := plumbing.Reference_Name headRef in
  if negb (plumbing.IsBranch refName)
  then fail (New ("HEAD is not on a branch: " +:+ refName))
  else
    do! forRange 0 files (λ _ file _,
          do! orWrap ("create file " +:+ file.1)
                (Filesystem_Create file.1) in
          orWrap ("add " +:+ file.1) (Add file.1 file.2)) tt in
    let! now := Now in
    do! orWrap "commit" (Commit commitMsg (committerAt now)) in
    let! err := Push {| Auth := auth; Force := false;
                        RefSpecs := [refSpec refName] |} in
    match err with
    | Some e =>
        if errors_Is e NoErrAlreadyUpToDate then ret tt
        else fail (Wrap "push" e)
    | None => ret tt
    end.

(** *** FetchCommits *)

Record SimpleCommit : Type :=
  { sc_Hash : string; sc_Author : string; sc_Email : string;
    sc_Message : string; sc_Date : Z }.

Definition simple (c : object.Commit) : SimpleCommit :=
  {| sc_Hash := Hash_String w (object.Hash c);
     sc_Author := object.Name (object.Author c);
     sc_Email := object.Email (object.Author c);
     sc_Message := object.Message c;
     sc_Date := UnixMilli (object.When (object.Author c)) |}.

(** [unsafe.Sizeof(SimpleCommit{})] on the 64-bit targets: four string
    headers of 16 bytes and an [int64]. *)
Definition SimpleCommit_size : Z := 72.

(** [make([]T, 0, cap)], for elements of [size] bytes. *)
Definition make0 {A} (size cap : Z) : M (list A) :=
  do! makeslice size 0 cap in ret [].

(** The closure handed to [cIter.ForEach]; it captures [results] and
    [count]. *)
Definition FetchCommits_cb (max : Z) (c : object.Commit)
    (s : list SimpleCommit * Z) : (list SimpleCommit * Z) * option error :=
  let '(results, count) := s in
  if (0 <? max) && (max <=? count) then (s, Some io_EOF)
  else ((results ++ [simple c], int_add count 1), None).

Definition FetchCommits (repoURL sshKeyPEM : string) (max : Z)
    : M (list SimpleCommit) :=
  let! auth := NewSSHAuth sshKeyPEM in
  do! CloneToMemory repoURL auth in
  let! ref := orWrap "head" Head in
  let! cIter := orWrap "log" (Log (plumbing.Reference_Hash ref)) in
  let! results := make0 SimpleCommit_size max in
  let '((results, _), err) :=
    ForEach cIter (FetchCommits_cb max) (results, 0) in
  match err with
  | Some e =>
      if bool_decide (e ≠ io_EOF) then fail (Wrap "iterate log" e)
      else ret results
  | None => ret results
  end.

(** *** The step shared by the three rewrites *)

(** One synthesized commit: author, message and tree as given, the
    committer of the package at the time read, the parents as given; it is
    encoded and stored, and the id the storage returns is the result. *)
Definition newCommitOf (author : object.Signature) (now : Z)
    (message : string) (tree : object.Tree)
    (parentHashes : list plumbing.Hash) : object.Commit :=
  {| object.Hash := plumbing.ZeroHash;
     object.Author := author;
     object.Committer := committerAt now;
     object.Message := message;
     object.TreeHash := object.Tree_Hash tree;
     object.ParentHashes := parentHashes |}.

Definition getTreeFor (c : object.Commit) : M object.Tree :=
  orWrap ("get tree for commit " +:+ Hash_String w (object.Hash c))
    (Commit_Tree c).

(** The last block of each rewrite, the same text in the three of them:
    the branch is set to the new tip and pushed with force. *)
Definition publish (auth : PublicKeys) (refName : plumbing.ReferenceName)
    (finalHeadHash : plumbing.Hash) : M unit :=
  do! orWrap "set ref"
        (SetReference (plumbing.NewHashReference refName finalHeadHash)) in
  let! err := Push {| Auth := auth; Force := true;
                      RefSpecs := [refSpec refName] |} in
  match err with
  | Some e => fail (Wrap "push" e)
  | None => ret tt
  end.

(** *** TrimOldCommits *)

(** The closure of [iter.ForEach] that collects the commits. *)
Definition collect_cb (c : object.Commit) (commits : list object.Commit)
    : list object.Commit * option error :=
  (commits ++ [c], None).

(** The body of [for i := keep - 2; i >= 0; i--]. *)
Definition TrimOldCommits_body (commits : list object.Commit) (i : Z)
    (currentParentHash : plumbing.Hash) : M plumbing.Hash :=
  let! oldCommit := index commits i in
  let! oldTree := getTreeFor oldCommit in
  let! now := Now in
  let newCommit :=
    newCommitOf (object.Author oldCommit) now (object.Message oldCommit)
      oldTree [currentParentHash] in
  let! obj := orWrap "encode rebased commit" (Encode newCommit) in
  orWrap "store rebased commit" (SetEncodedObject obj).

(** The block that rewrites the history: the new root is made of
    [commits[keep-1]], then the newer commits are stacked on it. *)
Definition TrimOldCommits_rewrite (commits : list object.Commit) (keep : Z)
    : M plumbing.Hash :=
  let! newRootAncestor := index commits (int_sub keep 1) in
  let! tree := orWrap "get tree for new root"
                 (Commit_Tree newRootAncestor) in
  let! now := Now in
  let newRootCommit :=
    newCommitOf (object.Author newRootAncestor) now
      (object.Message newRootAncestor) tree [] in
  let! obj := orWrap "encode new root commit" (Encode newRootCommit) in
  let! newRootHash :=
    orWrap "store new root commit" (SetEncodedObject obj) in
  forDownTo0 (int_sub keep 2) (TrimOldCommits_body commits) newRootHash.

Definition TrimOldCommits (repoURL sshKeyPEM : string) (keep : Z) : M unit :=
  let! auth := NewSSHAuth sshKeyPEM in
  do! CloneToMemory repoURL auth in
  let! headRef := orWrap "head" Head in
  let refName := plumbing.Reference_Name headRef in
  if negb (plumbing.IsBranch refName)
  then fail (New ("HEAD is not on a branch: " +:+ refName))
  else
    let! iter := orWrap "log" (Log (plumbing.Reference_Hash headRef)) in
    let commits := (ForEach iter collect_cb []).1 in
    if len commits <=? keep then ret tt
    else
      let! finalHeadHash := TrimOldCommits_rewrite commits keep in
      publish auth refName finalHeadHash.

(** *** DeleteCommit *)

(** The closure of [iter.ForEach]: it collects the commits and keeps the
    position of the one whose hash is the target. *)
Definition DeleteCommit_cb (targetHash : plumbing.Hash) (c : object.Commit)
    (s : list object.Commit * Z) : (list object.Commit * Z) * option error :=
  let '(commits, targetIndex) := s in
  let targetIndex :=
    if bool_decide (object.Hash c = targetHash) then len commits
    else targetIndex in
  ((commits ++ [c], targetIndex), None).

(** The body of [for i := len(commits) - 1; i >= 0; i--]. *)
Definition DeleteCommit_skip (commits : list object.Commit) (targetIndex : Z)
    (i : Z) (newCommits : list object.Commit) : M (list object.Commit) :=
  if bool_decide (i ≠ targetIndex) then
    let! c := index commits i in ret (newCommits ++ [c])
  else ret newCommits.

(** The body of [for i, oldCommit := range newCommits]. *)
Definition DeleteCommit_body (i : Z) (oldCommit : object.Commit)
    (currentParentHash : plumbing.Hash) : M plumbing.Hash :=
  let! oldTree := getTreeFor oldCommit in
  let parentHashes := if 0 <? i then [currentParentHash] else [] in
  let! now := Now in
  let newCommit :=
    newCommitOf (object.Author oldCommit) now (object.Message oldCommit)
      oldTree parentHashes in
  let! obj := orWrap "encode rebased commit" (Encode newCommit) in
  orWrap "store rebased commit" (SetEncodedObject obj).

(** The block that rebuilds the chain: the survivors root first, then one
    new commit for each. *)
Definition DeleteCommit_rewrite (commits : list object.Commit)
    (targetIndex : Z) : M plumbing.Hash :=
  let! newCommits :=
    forDownTo0 (int_sub (len commits) 1)
      (DeleteCommit_skip commits targetIndex) [] in
  forRange 0 newCommits DeleteCommit_body plumbing.ZeroHash.

Definition DeleteCommit (repoURL sshKeyPEM commitHash : string) : M unit :=
  let! auth := NewSSHAuth sshKeyPEM in
  do! orWrap "clone repo" (CloneToMemory repoURL auth) in
  let! headRef := orWrap "head" Head in
  let refName := plumbing.Reference_Name headRef in
  if negb (plumbing.IsBranch refName)
  then fail (New ("HEAD is not on a branch: " +:+ refName))
  else
    let! iter := orWrap "log" (Log (plumbing.Reference_Hash headRef)) in
    let targetHash := plumbing_NewHash w commitHash in
    let s := (ForEach iter (DeleteCommit_cb targetHash) ([], -1)).1 in
    let commits := s.1 in
    let targetIndex := s.2 in
    if targetIndex =? -1 then fail CommitNotFound
    else if len commits =? 1 then fail CannotDeleteSoleCommit
    else
      let! finalHeadHash := DeleteCommit_rewrite commits targetIndex in
      publish auth refName finalHeadHash.

(** *** ModifyCommit *)

(** The closure of [iter.ForEach]: it collects the commits and notes
    whether one of them has the target hash. *)
Definition ModifyCommit_cb (targetHash : plumbing.Hash) (c : object.Commit)
    (s : list object.Commit * bool)
    : (list object.Commit * bool) * option error :=
  let '(commits, foundTarget) := s in
  let foundTarget :=
    if bool_decide (object.Hash c = targetHash) then true
    else foundTarget in
  ((commits ++ [c], foundTarget), None).

(** The body of [for i := len(commits) - 1; i >= 0; i--]. *)
Definition ModifyCommit_reverse (commits : list object.Commit) (i : Z)
    (rootToHead : list object.Commit) : M (list object.Commit) :=
  let! c := index commits i in ret (rootToHead ++ [c]).

(** The body of [for i, oldCommit := range rootToHead]. *)
Definition ModifyCommit_body (targetHash : plumbing.Hash)
    (newCommitMsg : string) (i : Z) (oldCommit : object.Commit)
    (currentParentHash : plumbing.Hash) : M plumbing.Hash :=
  let! oldTree := getTreeFor oldCommit in
  let parentHashes := if 0 <? i then [currentParentHash] else [] in
  let message :=
    if bool_decide (object.Hash oldCommit = targetHash) then newCommitMsg
    else object.Message oldCommit in
  let author := object.Author oldCommit in
  let! now := Now in
  let newCommit := newCommitOf author now message oldTree parentHashes in
  let! obj := orWrap "encode rebased commit" (Encode newCommit) in
  orWrap "store rebased commit" (SetEncodedObject obj).

(** The block that rebuilds the chain: the commits root first, then one
    new commit for each. *)
Definition ModifyCommit_rewrite (commits : list object.Commit)
    (targetHash : plumbing.Hash) (newCommitMsg : string) : M plumbing.Hash :=
  let! rootToHead :=
    forDownTo0 (int_sub (len commits) 1) (ModifyCommit_reverse commits) [] in
  forRange 0 rootToHead (ModifyCommit_body targetHash newCommitMsg)
    plumbing.ZeroHash.

Definition ModifyCommit (repoURL sshKeyPEM commitHash newCommitMsg : string)
    : M unit :=
  let! auth := NewSSHAuth sshKeyPEM in
  do! orWrap "clone repo" (CloneToMemory repoURL auth) in
  let! headRef := orWrap "head" Head in
  let refName := plumbing.Reference_Name headRef in
  if negb (plumbing.IsBranch refName)
  then fail (New ("HEAD is not on a branch: " +:+ refName))
  else
    let! iter := orWrap "log" (Log (plumbing.Reference_Hash headRef)) in
    let targetHash := plumbing_NewHash w commitHash in
    let s := (ForEach iter (ModifyCommit_cb targetHash) ([], false)).1 in
    let commits := s.1 in
    let foundTarget := s.2 in
    if negb foundTarget then fail CommitNotFound
    else
      let! finalHeadHash :=
        ModifyCommit_rewrite commits targetHash newCommitMsg in
      publish auth refName finalHeadHash.
End Core.

(* ================================================================== *)
(** ** Reading a history back from the storage *)

(** The commits met from [h] by following first parents in the object map,
    tip first; the walk stops at a commit without parents, at a missing
    object, or when [fuel] is spent. *)
Fixpoint ancestry (fuel : nat) (objs : gmap plumbing.Hash EncodedObject)
    (h : plumbing.Hash) : list object.Commit :=
  match fuel with
  | O => []
  | S fuel' =>
      match objs !! h with
      | None => []
      | Some o =>
          decoding h o ::
          match enc_ParentHashes o with
          | [] => []
          | p :: _ => ancestry fuel' objs p
          end
      end
  end.

(** The commits a trace records as stored, in the order they were stored. *)
Fixpoint stored (t : list Event) : list object.Commit :=
  match t with
  | [] => []
  | EvObjectStored h o :: rest => decoding h o :: stored rest
  | _ :: rest => stored rest
  end.

(** An encode or a persist step failed. *)
Definition isStoreFailure (e : Event) : bool :=
  match e with
  | EvEncodeFailed _ | EvStoreFailed _ => true
  | _ => false
  end.

(** The reference was set, or a push was attempted. *)
Definition isPublication (e : Event) : bool :=
  match e with
  | EvReferenceSet _ | EvPush _ _ => true
  | _ => false
  end.

(* ================================================================== *)
(** ** What a rewrite is expected to synthesize *)

(** The machine once [CloneToMemory] has made [r] its repository. *)
Definition cloned (r : Repository) (m : Machine) : Machine :=
  {| repo := r; clock := clock m; trace := trace m |}.

(** The message policy of an amend. *)
Definition amend (targetHash : plumbing.Hash) (newCommitMsg : string)
    (c : object.Commit) : string :=
  if bool_decide (object.Hash c = targetHash) then newCommitMsg
  else object.Message c.

Section Rechain.
Variable w : World.
Variable msgOf : object.Commit → string.

(** The commit made of [old] at the [k]-th reading of the clock, before it
    has an id. *)
Definition draft (k : nat) (parents : list plumbing.Hash)
    (old : object.Commit) : object.Commit :=
  newCommitOf (object.Author old) (time_Now w k) (msgOf old)
    {| object.Tree_Hash := object.TreeHash old |} parents.

(** The same commit as the storage holds it. *)
Definition rewritten (k : nat) (parents : list plumbing.Hash)
    (old : object.Commit) : object.Commit :=
  decoding (Hash_of w (encoding (draft k parents old)))
    (encoding (draft k parents old)).

(** The survivors [olds], root first, re-derived bottom-up: each new
    commit has the id of the one before it as its only parent. *)
Fixpoint rechain (k : nat) (parents : list plumbing.Hash)
    (olds : list object.Commit) : list object.Commit :=
  match olds with
  | [] => []
  | old :: rest =>
      let c := rewritten k parents old in
      c :: rechain (S k) [object.Hash c] rest
  end.

(** No step of that derivation fails: the trees are there, and neither
    the encoder nor the storage refuses a commit. *)
Fixpoint rechains (trees : gset plumbing.Hash) (k : nat)
    (parents : list plumbing.Hash) (olds : list object.Commit) : Prop :=
  match olds with
  | [] => True
  | old :: rest =>
      object.TreeHash old ∈ trees ∧
      Encode_err w (draft k parents old) = None ∧
      SetEncodedObject_err w (encoding (draft k parents old)) = None ∧
      rechains trees (S k) [object.Hash (rewritten k parents old)] rest
  end.
End Rechain.

(** The machine after one commit was synthesized and stored. *)
Definition storeOne (c : object.Commit) (m : Machine) : Machine :=
  {| repo := {| Objects := <[object.Hash c := encoding c]> (Objects (repo m));
                Trees := Trees (repo m);
                HEAD := HEAD (repo m);
                Refs := Refs (repo m) |};
     clock := S (clock m);
     trace := trace m ++ [EvObjectStored (object.Hash c) (encoding c)] |}.

Fixpoint storeAll (news : list object.Commit) (m : Machine) : Machine :=
  match news with
  | [] => m
  | c :: rest => storeAll rest (storeOne c m)
  end.

(** The id of the last commit of [news], [h] when there is none. *)
Definition tipOf (h : plumbing.Hash) (news : list object.Commit)
    : plumbing.Hash :=
  default h (object.Hash <$> last news).

(** A chain, root first, is linked: the root has no parent and every other
    record has the id of the record before it as its only parent. *)
Fixpoint linkedFrom (parents : list plumbing.Hash)
    (chain : list object.Commit) : Prop :=
  match chain with
  | [] => True
  | c :: rest =>
      object.ParentHashes c = parents ∧ linkedFrom [object.Hash c] rest
  end.

Definition linked (chain : list object.Commit) : Prop := linkedFrom [] chain.

(** The prelude the operations share went through: the key was accepted,
    the clone gave [r], [HEAD] is on the branch [headRef], and the log
    from its hash gave [it]. *)
Definition opens (w : World) (repoURL sshKeyPEM : string)
    (auth : PublicKeys) (r : Repository) (headRef : plumbing.Reference)
    (it : CommitIter) : Prop :=
  (∃ pk, ssh_NewPublicKeys w "git" sshKeyPEM "" = inr pk ∧
         auth = {| pk_User := pk_User pk; pk_Key := pk_Key pk;
                   pk_InsecureIgnoreHostKey := true |}) ∧
  git_Clone w repoURL auth = inr r ∧
  resolveHead r = inr headRef ∧
  plumbing.IsBranch (plumbing.Reference_Name headRef) = true ∧
  Repository_Log w r (plumbing.Reference_Hash headRef) = inr it.

(** The prelude of [FetchCommits] went through: as [opens], but [HEAD]
    need not be on a branch. *)
Definition reads (w : World) (repoURL sshKeyPEM : string)
    (auth : PublicKeys) (r : Repository) (ref : plumbing.Reference)
    (it : CommitIter) : Prop :=
  (∃ pk, ssh_NewPublicKeys w "git" sshKeyPEM "" = inr pk ∧
         auth = {| pk_User := pk_User pk; pk_Key := pk_Key pk;
                   pk_InsecureIgnoreHostKey := true |}) ∧
  git_Clone w repoURL auth = inr r ∧
  resolveHead r = inr ref ∧
  Repository_Log w r (plumbing.Reference_Hash ref) = inr it.

(** Nothing fails in [w]: neither the encoder, nor the storage, nor the
    push. *)
Definition reliable (w : World) : Prop :=
  (∀ c, Encode_err w c = None) ∧
  (∀ o, SetEncodedObject_err w o = None) ∧
  (∀ ref, SetReference_err w ref = None) ∧
  (∀ r opts, Repository_Push w r opts = None).

(** A chain, tip first, is linked: every record has the id of the next one
    as its only parent, and the last one has none. *)
Fixpoint linkedDown (chain : list object.Commit) : Prop :=
  match chain with
  | [] => True
  | c :: rest =>
      object.ParentHashes c =
        match rest with [] => [] | p :: _ => [object.Hash p] end ∧
      linkedDown rest
  end.

(** What a synthesized record has of the original it is made of: the
    tree, the author as the encoder writes it, and (by the policy [msgOf])
    the message; its committer is the one of the package at some reading of
    the clock, as written, and its hash is the id of its own encoding. *)
Definition rewrites (w : World) (msgOf : object.Commit → string)
    (old new : object.Commit) : Prop :=
  object.TreeHash new = object.TreeHash old ∧
  object.Author new = written (object.Author old) ∧
  object.Message new = msgOf old ∧
  (∃ k, object.Committer new = written (committerAt (time_Now w k))) ∧
  object.Hash new = Hash_of w (encoding new).

(** The commit is known under the id of its encoding. *)
Definition addressed (w : World) (c : object.Commit) : Prop :=
  object.Hash c = Hash_of w (encoding c).

(** A commit as the storage holds one: read back from what the encoder
    writes of it, it is the same. *)
Definition canonical (c : object.Commit) : Prop :=
  decoding (object.Hash c) (encoding c) = c.


(** The ids of [news] are not ids of [commits], as soon as the hash is
    collision-free, the commits are known under the id of their encoding,
    and none of them was committed by the package in a second the clock
    reads. *)
Definition fresh (w : World) (commits news : list object.Commit) : Prop :=
  (∀ a b, Hash_of w a = Hash_of w b → a = b) →
  Forall (addressed w) commits →
  (∀ c k, c ∈ commits →
     written (object.Committer c) ≠ written (committerAt (time_Now w k))) →
  ∀ new orig, new ∈ news → orig ∈ commits →
    object.Hash new ≠ object.Hash orig.

(** The machine after the branch was set, and after a push. *)
Definition withRef (ref : plumbing.Reference) (m : Machine) : Machine :=
  {| repo := {| Objects := Objects (repo m); Trees := Trees (repo m);
                HEAD := HEAD (repo m);
                Refs := <[plumbing.Reference_Name ref :=
                            plumbing.Reference_Hash ref]> (Refs (repo m)) |};
     clock := clock m;
     trace := trace m ++ [EvReferenceSet ref] |}.

Definition pushed (opts : PushOptions) (outcome : option error)
    (m : Machine) : Machine :=
  {| repo := repo m; clock := clock m;
     trace := trace m ++ [EvPush opts outcome] |}.

(** The options of the push of a rewrite. *)
Definition forcePush (auth : PublicKeys)
    (refName : plumbing.ReferenceName) : PushOptions :=
  {| Auth := auth; Force := true; RefSpecs := [refSpec refName] |}.

(** The machine after [olds] were re-derived, stored, and the branch
    [refName] was moved to the last of them and pushed. *)
Definition republished (w : World) (msgOf : object.Commit → string)
    (auth : PublicKeys) (refName : plumbing.ReferenceName)
    (olds : list object.Commit) (m : Machine) : Machine :=
  let news := rechain w msgOf (clock m) [] olds in
  pushed (forcePush auth refName) None
    (withRef (plumbing.NewHashReference refName
                (tipOf plumbing.ZeroHash news))
       (storeAll news m)).

(* ================================================================== *)
(** ** The shape the three rewrites share *)

Section Shape.
Variable w : World.

(** One step: tree, clock, encoder and storage, with the three texts an
    error is wrapped in; the bodies of the loops are instances of it. *)
Definition synthesize (treeText encodeText storeText : string)
    (message : string) (parents : list plumbing.Hash)
    (old : object.Commit) : M plumbing.Hash :=
  let! oldTree := orWrap treeText (Commit_Tree old) in
  let! now := Now w in
  let newCommit :=
    newCommitOf (object.Author old) now message oldTree parents in
  let! obj := orWrap encodeText (Encode w newCommit) in
  orWrap storeText (SetEncodedObject w obj).

(** The text a missing tree is reported with in the loops. *)
Definition treeTextOf (old : object.Commit) : string :=
  "get tree for commit " +:+ Hash_String w (object.Hash old).

(** The loop of the three rewrites on the list of the survivors. *)
Fixpoint rebuild (msgOf : object.Commit → string)
    (treeText : object.Commit → string)
    (parents : list plumbing.Hash) (cur : plumbing.Hash)
    (olds : list object.Commit) : M plumbing.Hash :=
  match olds with
  | [] => ret cur
  | old :: rest =>
      let! h := synthesize (treeText old) "encode rebased commit"
                  "store rebased commit" (msgOf old) parents old in
      rebuild msgOf treeText [h] h rest
  end.
End Shape.

(* ================================================================== *)
(** ** Properties of a run *)

(** The result is an error; the result is a panic. *)
Definition failed {A} (res : Res A) : bool :=
  match res with Err _ => true | _ => false end.

Definition panicked {A} (res : Res A) : bool :=
  match res with Panicked _ => true | _ => false end.

(** A computation is quiet when it leaves the references and [HEAD] alone,
    records no publication, and records a failed encode or persist step
    only when it returns an error. *)
Definition quiet {A} (c : M A) : Prop :=
  ∀ m res m', c m = (res, m') →
    Refs (repo m') = Refs (repo m) ∧
    HEAD (repo m') = HEAD (repo m) ∧
    ∃ evs, trace m' = trace m ++ evs ∧
           Forall (λ e, isPublication e = false) evs ∧
           (failed res = false →
            Forall (λ e, isStoreFailure e = false) evs).

(** A computation is calm when it never panics. *)
Definition calm {A} (c : M A) : Prop := ∀ m, panicked (c m).1 = false.

(* ================================================================== *)
(** ** Sample worlds *)

Module Sample.
(** A collision-free id: the code of the object's fields. *)
Definition fields (s : object.Signature) : list positive :=
  [encode (object.Name s); encode (object.Email s); encode (object.When s)].

Definition flat (o : EncodedObject) : list positive :=
  fields (enc_Author o) ++ fields (enc_Committer o) ++
  [encode (enc_Message o); encode (enc_TreeHash o);
   encode (enc_ParentHashes o)].

Definition idealHash (o : EncodedObject) : plumbing.Hash :=
  Npos (encode (flat o)).

(** The author of the sample commits, at second 1000. *)
Definition ann : object.Signature :=
  {| object.Name := "ann"; object.Email := "ann@example.org";
     object.When := time_Unix 1000 |}.

Definition commitOf (message : string) (tree : plumbing.Hash)
    (parents : list plumbing.Hash) : EncodedObject :=
  {| enc_Author := ann; enc_Committer := ann; enc_Message := message;
     enc_TreeHash := tree; enc_ParentHashes := parents |}.

(** The chain [C0(root, "a"), C1("b"), C2("c")]. *)
Definition e0 : EncodedObject := commitOf "a" 11%N [].
Definition h0 : plumbing.Hash := idealHash e0.
Definition e1 : EncodedObject := commitOf "b" 12%N [h0].
Definition h1 : plumbing.Hash := idealHash e1.
Definition e2 : EncodedObject := commitOf "c" 13%N [h1].
Definition h2 : plumbing.Hash := idealHash e2.
Definition C0 : object.Commit := decoding h0 e0.
Definition C1 : object.Commit := decoding h1 e1.
Definition C2 : object.Commit := decoding h2 e2.

Definition main : plumbing.ReferenceName := "refs/heads/main".

Definition origin : Repository :=
  {| Objects := <[h2 := e2]> (<[h1 := e1]> (<[h0 := e0]> ∅));
     Trees := {[ 11%N; 12%N; 13%N ]};
     HEAD := Symbolic main;
     Refs := <[main := h2]> ∅ |}.

(** A remote holding the single commit [C0]. *)
Definition single : Repository :=
  {| Objects := <[h0 := e0]> ∅;
     Trees := {[ 11%N ]};
     HEAD := Symbolic main;
     Refs := <[main := h0]> ∅ |}.

(** The names hashes are given by on the command line of the sample. *)
Definition target (s : string) : plumbing.Hash :=
  if bool_decide (s = "C0") then h0
  else if bool_decide (s = "C1") then h1
  else if bool_decide (s = "C2") then h2
  else plumbing.ZeroHash.

(** A world where the key is accepted, the remote [remote] is cloned
    whatever the address, the log walks the first parents, the clock ticks
    from second 5000 in steps of 0.4 s, the encoder never fails, the storage
    fails as [storeErr] says and a push answers what [push] says of the
    repository pushed. *)
Definition worldOf (remote : Repository) (names : string → plumbing.Hash)
    (storeErr : EncodedObject → option error)
    (push : Repository → option error) : World :=
  {| ssh_NewPublicKeys := λ user pem _,
       inr {| pk_User := user; pk_Key := pem;
              pk_InsecureIgnoreHostKey := false |};
     git_Clone := λ _ _, inr remote;
     Repository_Log := λ r from,
       match Objects r !! from with
       | None => inl ErrObjectNotFound
       | Some _ =>
           inr {| iter_commits :=
                    ancestry (S (size (Objects r))) (Objects r) from;
                  iter_err := None |}
       end;
     time_Now := λ k, time_Unix 5000 + 400000000 * Z.of_nat k;
     Hash_of := idealHash;
     Encode_err := λ _, None;
     SetEncodedObject_err := storeErr;
     SetReference_err := λ _, None;
     Repository_Push := λ r _, push r;
     plumbing_NewHash := names;
     Hash_String := λ h, "";
     rand_Read := λ n, replicate n Byte.x00;
     Repository_Worktree_err := λ _, None;
     Filesystem_Create_err := λ _ _, None;
     Worktree_Add := λ r _ _, inr r;
     Worktree_Commit := λ r _ _, inr r |}.

(** Nothing fails. *)
Definition world : World := worldOf origin target (λ _, None) (λ _, None).

(** The remote has a single commit. *)
Definition soleWorld : World :=
  worldOf single target (λ _, None) (λ _, None).

(** The storage refuses the commit whose message is ["b"]. *)
Definition fullDisk : World :=
  worldOf origin target
    (λ o, if bool_decide (enc_Message o = "b")
          then Some (Sentinel "disk full") else None)
    (λ _, None).

(** Every push is answered with "already up-to-date". *)
Definition settled : World :=
  worldOf origin target (λ _, None) (λ _, Some NoErrAlreadyUpToDate).

Definition emptyRepository : Repository :=
  {| Objects := ∅; Trees := ∅; HEAD := Detached plumbing.ZeroHash;
     Refs := ∅ |}.

(** The machine before any call. *)
Definition boot : Machine :=
  {| repo := emptyRepository; clock := 0; trace := [] |}.

(** What the prelude yields in these worlds. *)
Definition auth : PublicKeys :=
  {| pk_User := "git"; pk_Key := "k"; pk_InsecureIgnoreHostKey := true |}.
Definition headRef : plumbing.Reference :=
  plumbing.NewHashReference main h2.
Definition log : CommitIter :=
  {| iter_commits := [C2; C1; C0]; iter_err := None |}.
Definition soleHeadRef : plumbing.Reference :=
  plumbing.NewHashReference main h0.
Definition soleLog : CommitIter :=
  {| iter_commits := [C0]; iter_err := None |}.

(** The machine after the message of [C1] was amended to ["fixed"], and a
    world whose remote is the repository that amend pushed: a push is
    answered with "already up-to-date" when the branch pushed is where the
    remote has it, and ["C1'"] names the amended commit. *)
Definition amended : Machine :=
  (ModifyCommit world "u" "k" "C1" "fixed" boot).2.

Definition amendedName (s : string) : plumbing.Hash :=
  if bool_decide (s = "C1'")
  then default plumbing.ZeroHash
         (object.Hash <$> stored (trace amended) !! 1%nat)
  else plumbing.ZeroHash.

Definition upToDate (remote r : Repository) : option error :=
  if bool_decide (Refs r !! main = Refs remote !! main)
  then Some NoErrAlreadyUpToDate else None.

Definition again : World :=
  worldOf (repo amended) amendedName (λ _, None) (upToDate (repo amended)).
End Sample.

(* ================================================================== *)
(** * The rest of the package

    The helpers of [internel/utils] no operation above calls
    ([RandomString], [RandomStringDefault], the two copies of
    [CloneOrUpdate]), and the notions the properties of the operations are
    stated with. *)

(** ** internel/utils: the random strings *)

(** [s[i] = a], with the bounds check of the run time. *)
Definition assign {A} (s : list A) (i : Z) (a : A) : M (list A) :=
  if bool_decide (0 ≤ i < len s) then ret (<[Z.to_nat i := a]> s)
  else throw (IndexOutOfRange i (len s)).

(** [for i := 0; i < n; i++ { body }], entered with the number of rounds
    left; the body goes on with the next state ([inl]) or leaves the
    function with a value ([inr]). *)
Fixpoint forUpTo {A B} (rounds : nat) (i : Z) (body : Z → A → M (A + B))
    (a : A) : M (A + B) :=
  match rounds with
  | O => ret (inl a)
  | S k =>
      let! r := body i a in
      match r with
      | inl a' => forUpTo k (i + 1) body a'
      | inr b => ret (inr b)
      end
  end.

Section Random.
(** [rand.Int(rand.Reader, max)]: what the [i]-th draw of a call answers. *)
Variable rand_Int : nat → Z → error + Z.

Definition RandomString_body (charset : string) (i : Z)
    (result : list Ascii.ascii) : M (list Ascii.ascii + string) :=
  let charsetLen := len (String.list_ascii_of_string charset) in
  match rand_Int (Z.to_nat i) charsetLen with
  | inl _ => ret (inr "")
  | inr n =>
      let! c := index (String.list_ascii_of_string charset) (wrap n) in
      let! result := assign result i c in
      ret (inl result)
  end.

Definition RandomString (length : Z) (charset : string) : M string :=
  if len (String.list_ascii_of_string charset) =? 0 then ret ""
  else
    let! result := makeBytes length in
    let! r := forUpTo (Z.to_nat length) 0 (RandomString_body charset)
                result in
    match r with
    | inl result => ret (String.string_of_list_ascii result)
    | inr s => ret s
    end.

Definition defaultCharset : string :=
  "abcdefghijklmnopqrstuvwxyzABCDEFGHIJKLMNOPQRSTUVWXYZ0123456789".

Definition RandomStringDefault (length : Z) : M string :=
  RandomString length defaultCharset.
End Random.

(** The byte is a digit or a letter of ASCII; it is a digit of lower-case
    hexadecimal. *)
Definition alphanumeric (c : Ascii.ascii) : bool :=
  let n := Ascii.N_of_ascii c in
  ((48 <=? n) && (n <=? 57) || (65 <=? n) && (n <=? 90) ||
   (97 <=? n) && (n <=? 122))%N.

Definition hexadecimal (c : Ascii.ascii) : bool :=
  let n := Ascii.N_of_ascii c in
  ((48 <=? n) && (n <=? 57) || (97 <=? n) && (n <=? 102))%N.

(** The draws [i, i + k) of [rand.Int] on the charset answer as the
    library promises: without an error, and below the bound. *)
Definition inContract (rand_Int : nat → Z → error + Z) (charset : string)
    (i k : nat) : Prop :=
  ∀ j, (i ≤ j < i + k)%nat →
    ∃ n, rand_Int j (len (String.list_ascii_of_string charset)) = inr n ∧
         0 ≤ n < len (String.list_ascii_of_string charset).

(** ** internel/utils: [CloneOrUpdate] *)

(** What the file system and go-git answer to [CloneOrUpdate]. *)
Record Disk : Type :=
  { (* sha256.Sum256(data) *)
    sha256_Sum256 : string → list Byte.byte;
    (* filepath.Join(dir, name) *)
    filepath_Join : string → string → string;
    (* os.IsNotExist(err), for the err of os.Stat(path) *)
    Stat_IsNotExist : string → bool;
    (* git.PlainClone(path, false, &CloneOptions{URL, Auth}) *)
    git_PlainClone : string → string → PublicKeys → error + Repository;
    (* git.PlainOpen(path) *)
    git_PlainOpen : string → error + Repository;
    (* w.Pull(&PullOptions{RemoteName, Auth}): its error, and the
       repository as the pull left it *)
    Worktree_Pull :
      Repository → string → PublicKeys → option error * Repository;
    (* repo.Fetch(&FetchOptions{RemoteName, Auth, Force}): its error, and
       the repository as the fetch left it *)
    Repository_Fetch :
      Repository → string → PublicKeys → bool → option error * Repository;
    (* repo.References(): the references the iterator yields, each with its
       Name() and Hash(), and the error the iterator ends with *)
    Repository_References :
      Repository → error + list plumbing.Reference * option error;
    (* w.Reset(&ResetOptions{Mode: HardReset, Commit: h}) *)
    Worktree_Reset : Repository → plumbing.Hash → error + Repository }.

(** [ReferenceName.IsRemote]: the name starts with [refs/remotes/]. *)
Definition IsRemote (r : plumbing.ReferenceName) : bool :=
  String.prefix "refs/remotes/" r.

(** [refs.ForEach(cb)] on a reference iterator. *)
Fixpoint References_ForEach {S} (refs : list plumbing.Reference)
    (tail : option error)
    (cb : plumbing.Reference → S → S * option error) (s : S)
    : S * option error :=
  match refs with
  | [] => (s, tail)
  | r :: rest =>
      match cb r s with
      | (s', None) => References_ForEach rest tail cb s'
      | (s', Some err) => (s', Some err)
      end
  end.

(** The directory of a repository: the base directory joined with the
    hexadecimal of the SHA-256 of the address. *)
Definition repoDirOf (d : Disk) (baseDir repoURL : string) : string :=
  let hash := sha256_Sum256 d repoURL in
  let folderName := hex_EncodeToString hash in
  filepath_Join d baseDir folderName.

(** [CloneOrUpdate] of [internel/utils/git.go]: an existing directory is
    opened and pulled.  The result is the repository with the root of the
    file system handed out. *)
Module Pulling.
Section Pulling.
Variable w : World.
Variable d : Disk.

Definition CloneOrUpdate (baseDir repoURL : string) (auth : PublicKeys)
    : error + Repository * string :=
  let repoDir := repoDirOf d baseDir repoURL in
  if Stat_IsNotExist d repoDir then
    match git_PlainClone d repoDir repoURL auth with
    | inl err => inl (Wrap "clone" err)
    | inr repo => inr (repo, repoDir)
    end
  else
    match git_PlainOpen d repoDir with
    | inl err => inl (Wrap "open existing repo" err)
    | inr repo =>
        match Repository_Worktree_err w repo with
        | Some err => inl (Wrap "get worktree" err)
        | None =>
            let '(err, repo) := Worktree_Pull d repo "origin" auth in
            match err with
            | Some e =>
                if negb (errors_Is e NoErrAlreadyUpToDate)
                then inl (Wrap "pull" e)
                else inr (repo, repoDir)
            | None => inr (repo, repoDir)
            end
        end
    end.
End Pulling.
End Pulling.

(** [CloneOrUpdate] of the other copy of the file: an existing directory
    is opened, fetched with force, and reset hard to a remote reference. *)
Module Resetting.
Section Resetting.
Variable w : World.
Variable d : Disk.

(** The closure of [refs.ForEach]; it captures [remoteRef]. *)
Definition CloneOrUpdate_cb (r : plumbing.Reference)
    (remoteRef : option plumbing.Reference)
    : option plumbing.Reference * option error :=
  if IsRemote (plumbing.Reference_Name r) &&
     negb (bool_decide (plumbing.Reference_Name r = ""))
  then (Some r, Some (New "found"))
  else (remoteRef, None).

(** The else branch once the fetch is done: the references are scanned
    for a remote one, and the work tree is reset to it. *)
Definition CloneOrUpdate_reset (repo : Repository) (repoDir : string)
    : error + Repository * string :=
  match Repository_References d repo with
  | inl err => inl (Wrap "list references" err)
  | inr (refs, tail) =>
      let remoteRef :=
        (References_ForEach refs tail CloneOrUpdate_cb None).1 in
      match remoteRef with
      | None => inl (New "no remote branch found")
      | Some remoteRef =>
          match Repository_Worktree_err w repo with
          | Some err => inl (Wrap "get worktree" err)
          | None =>
              match Worktree_Reset d repo
                      (plumbing.Reference_Hash remoteRef) with
              | inl err => inl (Wrap "reset" err)
              | inr repo => inr (repo, repoDir)
              end
          end
      end
  end.

Definition CloneOrUpdate (baseDir repoURL : string) (auth : PublicKeys)
    : error + Repository * string :=
  let repoDir := repoDirOf d baseDir repoURL in
  if Stat_IsNotExist d repoDir then
    match git_PlainClone d repoDir repoURL auth with
    | inl err => inl (Wrap "clone" err)
    | inr repo => inr (repo, repoDir)
    end
  else
    match git_PlainOpen d repoDir with
    | inl err => inl (Wrap "open existing repo" err)
    | inr repo =>
        let '(err, repo) := Repository_Fetch d repo "origin" auth true in
        match err with
        | Some e =>
            if negb (errors_Is e NoErrAlreadyUpToDate)
            then inl (Wrap "fetch" e)
            else CloneOrUpdate_reset repo repoDir
        | None => CloneOrUpdate_reset repo repoDir
        end
    end.
End Resetting.
End Resetting.

(** The inverse of [hex.EncodeToString] on what it writes: the digits are
    read back two by two. *)
Definition unhexDigit (c : Ascii.ascii) : N :=
  let n := Ascii.N_of_ascii c in
  if (n <? 58)%N then (n - 48)%N else (n - 87)%N.

Fixpoint unhex (s : string) : list Byte.byte :=
  match s with
  | String a (String b rest) =>
      match Byte.of_N (16 * unhexDigit a + unhexDigit b) with
      | Some x => x :: unhex rest
      | None => []
      end
  | _ => []
  end.

(** The first reference of [refs] whose name is a remote one. *)
Definition firstRemote (refs : list plumbing.Reference)
    : option plumbing.Reference :=
  snd <$> list_find (λ r, IsRemote (plumbing.Reference_Name r) = true) refs.

(** A push, a pull or a fetch answered nil or "already up-to-date". *)
Definition upToDateOrNil (outcome : option error) : bool :=
  match outcome with
  | None => true
  | Some e => errors_Is e NoErrAlreadyUpToDate
  end.

(** ** Notions the properties of the operations are stated with *)

(** The iterator that yields the commits of [it] and then ends without an
    error. *)
Definition endsWell (it : CommitIter) : CommitIter :=
  {| iter_commits := iter_commits it; iter_err := None |}.

(** The world [w] with another answer to [Repository.Log]. *)
Definition withLog (w : World)
    (log : Repository → plumbing.Hash → error + CommitIter) : World :=
  {| ssh_NewPublicKeys := ssh_NewPublicKeys w;
     git_Clone := git_Clone w;
     Repository_Log := log;
     time_Now := time_Now w;
     Hash_of := Hash_of w;
     Encode_err := Encode_err w;
     SetEncodedObject_err := SetEncodedObject_err w;
     SetReference_err := SetReference_err w;
     Repository_Push := Repository_Push w;
     plumbing_NewHash := plumbing_NewHash w;
     Hash_String := Hash_String w;
     rand_Read := rand_Read w;
     Repository_Worktree_err := Repository_Worktree_err w;
     Filesystem_Create_err := Filesystem_Create_err w;
     Worktree_Add := Worktree_Add w;
     Worktree_Commit := Worktree_Commit w |}.

(** The world [w] where the SSH library refuses every key, with [e]. *)
Definition refusing (w : World) (e : error) : World :=
  {| ssh_NewPublicKeys := λ _ _ _, inl e;
     git_Clone := git_Clone w;
     Repository_Log := Repository_Log w;
     time_Now := time_Now w;
     Hash_of := Hash_of w;
     Encode_err := Encode_err w;
     SetEncodedObject_err := SetEncodedObject_err w;
     SetReference_err := SetReference_err w;
     Repository_Push := Repository_Push w;
     plumbing_NewHash := plumbing_NewHash w;
     Hash_String := Hash_String w;
     rand_Read := rand_Read w;
     Repository_Worktree_err := Repository_Worktree_err w;
     Filesystem_Create_err := Filesystem_Create_err w;
     Worktree_Add := Worktree_Add w;
     Worktree_Commit := Worktree_Commit w |}.

(** The world [w], but every iterator [Repository.Log] hands out ends
    without an error. *)
Definition silenced (w : World) : World :=
  withLog w (λ r from,
    match Repository_Log w r from with
    | inl err => inl err
    | inr it => inr (endsWell it)
    end).

(** The [ssh.PublicKeys] the operations work with: the one the library made
    of the key, its host key check switched off. *)
Definition insecure (pk : PublicKeys) : PublicKeys :=
  {| pk_User := pk_User pk; pk_Key := pk_Key pk;
     pk_InsecureIgnoreHostKey := true |}.

(** The error of an operation whose [HEAD] is not on a branch. *)
Definition NotOnBranch (refName : plumbing.ReferenceName) : error :=
  New ("HEAD is not on a branch: " +:+ refName).

(** The options of the push of [PushCommit]. *)
Definition plainPush (auth : PublicKeys)
    (refName : plumbing.ReferenceName) : PushOptions :=
  {| Auth := auth; Force := false; RefSpecs := [refSpec refName] |}.

(** What [PushCommit] returns for the answer of the push. *)
Definition PushCommit_result (outcome : option error) : Res unit :=
  match outcome with
  | None => Ret tt
  | Some e =>
      if errors_Is e NoErrAlreadyUpToDate then Ret tt
      else Err (Wrap "push" e)
  end.

(** What an entry of a listing says of a commit, its hash apart. *)
Definition content (s : SimpleCommit) : string * string * string * Z :=
  (sc_Author s, sc_Email s, sc_Message s, sc_Date s).

(** In [w], the address serves the repository [r], and the log is the walk
    from [HEAD] along the first parents, [fuel] commits at most. *)
Definition serves (w : World) (repoURL sshKeyPEM : string) (r : Repository)
    (fuel : nat) : Prop :=
  ∃ auth ref,
    reads w repoURL sshKeyPEM auth r ref
      {| iter_commits := ancestry fuel (Objects r) (plumbing.Reference_Hash ref);
         iter_err := None |}.

(** The encoder writes the signature as it is: its time is a whole number
    of seconds, not before 1970. *)
Definition plain (s : object.Signature) : Prop := written s = s.

(** The entry of [c] once it was written anew with the message [message]:
    the date is the one the encoder writes for the author. *)
Definition contentWith (message : object.Commit → string) (c : object.Commit)
    : string * string * string * Z :=
  (object.Name (object.Author c), object.Email (object.Author c), message c,
   UnixMilli (object.When (written (object.Author c)))).

(** ** Scenes: more sample worlds *)

Module Scene.
(** The sample remote with a detached [HEAD]. *)
Definition detached : Repository :=
  {| Objects := Objects Sample.origin; Trees := Trees Sample.origin;
     HEAD := Detached Sample.h2; Refs := Refs Sample.origin |}.

Definition detachedWorld : World :=
  Sample.worldOf detached Sample.target (λ _, None) (λ _, None).

Definition detachedRef : plumbing.Reference :=
  plumbing.NewHashReference "HEAD" Sample.h2.

(** A log that yields two commits and then fails. *)
Definition cut : CommitIter :=
  {| iter_commits := [Sample.C2; Sample.C1];
     iter_err := Some (Sentinel "unexpected EOF") |}.

Definition brokenLog : World := withLog Sample.world (λ _ _, inr cut).

(** The machines after the two newest commits were kept, and after [C1]
    was deleted; the worlds whose remote is what these runs pushed. *)
Definition trimmed : Machine :=
  (TrimOldCommits Sample.world "u" "k" 2 Sample.boot).2.

Definition afterTrim : World :=
  Sample.worldOf (repo trimmed) Sample.target (λ _, None) (λ _, None).

Definition deleted : Machine :=
  (DeleteCommit Sample.world "u" "k" "C1" Sample.boot).2.

Definition afterDelete : World :=
  Sample.worldOf (repo deleted) Sample.target (λ _, None) (λ _, None).







(** The key as the sample worlds accept it. *)
Definition key : PublicKeys :=
  {| pk_User := "git"; pk_Key := "k"; pk_InsecureIgnoreHostKey := false |}.

(** Random sources: the [j]-th draw answers [j mod max]; the same, but
    the draw 2 fails. *)
Definition cycling (j : nat) (max : Z) : error + Z := inr (Z.of_nat j mod max).

Definition failingAt2 (j : nat) (max : Z) : error + Z :=
  if bool_decide (j = 2%nat) then inl (New "entropy") else cycling j max.

(** A disk on which every directory exists and holds a repository; a pull
    finds it up to date, the references are listed with two remote ones
    after [HEAD] and the branch, and a reset moves the branch. *)
Definition references : list plumbing.Reference :=
  [plumbing.NewHashReference "HEAD" plumbing.ZeroHash;
   plumbing.NewHashReference "refs/heads/main" 8%N;
   plumbing.NewHashReference "refs/remotes/origin/dev" 7%N;
   plumbing.NewHashReference "refs/remotes/origin/main" 8%N].

Definition onDisk : Repository :=
  {| Objects := ∅; Trees := ∅; HEAD := Symbolic Sample.main;
     Refs := <[Sample.main := 8%N]> ∅ |}.

Definition disk : Disk :=
  {| sha256_Sum256 := λ _, replicate 32 Byte.x00;
     filepath_Join := λ dir name, dir +:+ "/" +:+ name;
     Stat_IsNotExist := λ _, false;
     git_PlainClone := λ _ _ _, inr onDisk;
     git_PlainOpen := λ _, inr onDisk;
     Worktree_Pull := λ r _ _, (Some NoErrAlreadyUpToDate, r);
     Repository_Fetch := λ r _ _ _, (None, r);
     Repository_References := λ _, inr (references, None);
     Worktree_Reset := λ r h,
       inr {| Objects := Objects r; Trees := Trees r; HEAD := HEAD r;
              Refs := <[Sample.main := h]> (Refs r) |} |}.
End Scene.

(* ================================================================== *)
(** * Proofs *)

(* ================================================================== *)
(** ** Laws of the monad *)

Lemma bind_Ret {A B} (c : M A) (k : A → M B) m a m1 :
  c m = (Ret a, m1) → bind c k m = k a m1.
Proof. intros H. unfold bind. by rewrite H. Qed.

Lemma bind_Err {A B} (c : M A) (k : A → M B) m e m1 :
  c m = (Err e, m1) → bind c k m = (Err e, m1).
Proof. intros H. unfold bind. by rewrite H. Qed.

Lemma bind_Panicked {A B} (c : M A) (k : A → M B) m p m1 :
  c m = (Panicked p, m1) → bind c k m = (Panicked p, m1).
Proof. intros H. unfold bind. by rewrite H. Qed.

Lemma bind_Ret_inv {A B} (c : M A) (k : A → M B) m b m' :
  bind c k m = (Ret b, m') →
  ∃ a m1, c m = (Ret a, m1) ∧ k a m1 = (Ret b, m').
Proof.
  unfold bind. destruct (c m) as [[a|e|p] m1]; intros H; try discriminate.
  by exists a, m1.
Qed.

Lemma orWrap_Ret {A} text (c : M A) m a m1 :
  c m = (Ret a, m1) → orWrap text c m = (Ret a, m1).
Proof. intros H. unfold orWrap. by rewrite H. Qed.

Lemma orWrap_Err {A} text (c : M A) m e m1 :
  c m = (Err e, m1) → orWrap text c m = (Err (Wrap text e), m1).
Proof. intros H. unfold orWrap. by rewrite H. Qed.

Lemma orWrap_Ret_inv {A} text (c : M A) m a m1 :
  orWrap text c m = (Ret a, m1) → c m = (Ret a, m1).
Proof.
  unfold orWrap. destruct (c m) as [[a'|e|p] m']; intros H; by inversion H.
Qed.

(* ================================================================== *)
(** ** Go's [int] on the values the operations meet *)

Lemma wrap_id z : MinInt ≤ z ≤ MaxInt → wrap z = z.
Proof.
  unfold wrap, MinInt, MaxInt. intros H.
  rewrite Z.mod_small; lia.
Qed.

Lemma wrap_MinInt_pred : wrap (MinInt - 1) = MaxInt.
Proof. reflexivity. Qed.

Lemma len_nonneg {A} (s : list A) : 0 ≤ len s.
Proof. unfold len. lia. Qed.

Lemma index_in {A} (s : list A) (i : nat) a m :
  s !! i = Some a → index s (Z.of_nat i) m = (Ret a, m).
Proof.
  intros H. unfold index, len.
  pose proof (lookup_lt_Some _ _ _ H).
  rewrite bool_decide_eq_true_2 by lia.
  by rewrite Nat2Z.id, H.
Qed.

Lemma index_out {A} (s : list A) (i : Z) m :
  ¬ (0 ≤ i < len s) → index s i m = (Panicked (IndexOutOfRange i (len s)), m).
Proof.
  intros H. unfold index. by rewrite bool_decide_eq_false_2.
Qed.

(* ================================================================== *)
(** ** What the encoder writes *)

Lemma Unix_time_Unix sec : Unix (time_Unix sec) = sec.
Proof. unfold Unix, time_Unix. by rewrite Z.div_mul. Qed.

Lemma written_written s : written (written s) = written s.
Proof.
  unfold written. cbn [object.Name object.Email object.When].
  rewrite Unix_time_Unix. f_equal. f_equal. lia.
Qed.

Lemma readBack_written s : readBack (written s) = written s.
Proof.
  unfold readBack, written. cbn [object.Name object.Email object.When].
  by rewrite Unix_time_Unix.
Qed.

Lemma written_readBack s : written (readBack s) = written s.
Proof.
  unfold readBack, written. cbn [object.Name object.Email object.When].
  by rewrite Unix_time_Unix.
Qed.

(** The encoder writes a signature as it is when its time is a whole
    number of seconds since 1970, and only then. *)
Lemma plain_whole s :
  plain s ↔ ∃ sec, object.When s = time_Unix sec ∧ 0 ≤ sec.
Proof.
  unfold plain. split.
  - intros Hs. exists (Z.max 0 (Unix (object.When s))).
    split; [|lia]. by rewrite <- Hs at 1.
  - intros (sec & Hs & Hsec). destruct s as [n e t]. cbn in *. subst t.
    unfold written. cbn [object.Name object.Email object.When].
    rewrite Unix_time_Unix. f_equal. f_equal. lia.
Qed.

(** The commit read back from what the encoder wrote of [c]. *)
Lemma decoding_encoding c :
  decoding (object.Hash c) (encoding c) =
  {| object.Hash := object.Hash c;
     object.Author := written (object.Author c);
     object.Committer := written (object.Committer c);
     object.Message := object.Message c;
     object.TreeHash := object.TreeHash c;
     object.ParentHashes := object.ParentHashes c |}.
Proof.
  unfold decoding, encoding.
  cbn [enc_Author enc_Committer enc_Message enc_TreeHash enc_ParentHashes].
  by rewrite !readBack_written.
Qed.

(** Encoding what was read back from an encoding gives that encoding. *)
Lemma encoding_decoding h c : encoding (decoding h (encoding c)) = encoding c.
Proof.
  unfold decoding, encoding.
  cbn [enc_Author enc_Committer enc_Message enc_TreeHash enc_ParentHashes
       object.Author object.Committer object.Message object.TreeHash
       object.ParentHashes].
  by rewrite !written_readBack, !written_written.
Qed.

Lemma encoding_rewritten w msgOf k parents old :
  encoding (rewritten w msgOf k parents old) =
  encoding (draft w msgOf k parents old).
Proof. apply encoding_decoding. Qed.

Lemma rewritten_canonical w msgOf k parents old :
  canonical (rewritten w msgOf k parents old).
Proof.
  unfold canonical. rewrite encoding_rewritten. reflexivity.
Qed.

(* ================================================================== *)
(** ** One synthesized commit *)

Section Step.
Variable w : World.

Lemma DeleteCommit_body_eq i old cur :
  DeleteCommit_body w i old cur =
  synthesize w ("get tree for commit " +:+ Hash_String w (object.Hash old))
    "encode rebased commit" "store rebased commit"
    (object.Message old) (if 0 <? i then [cur] else []) old.
Proof. reflexivity. Qed.

Lemma ModifyCommit_body_eq target msg i old cur :
  ModifyCommit_body w target msg i old cur =
  synthesize w ("get tree for commit " +:+ Hash_String w (object.Hash old))
    "encode rebased commit" "store rebased commit"
    (amend target msg old) (if 0 <? i then [cur] else []) old.
Proof. reflexivity. Qed.

Variable msgOf : object.Commit → string.

(** The run of one step, in each of its four outcomes. *)
Lemma synthesize_run tT tE tS parents old m :
  let d := draft w msgOf (clock m) parents old in
  let m1 := {| repo := repo m; clock := S (clock m); trace := trace m |} in
  synthesize w tT tE tS (msgOf old) parents old m =
  if bool_decide (object.TreeHash old ∈ Trees (repo m)) then
    match Encode_err w d with
    | Some e =>
        (Err (Wrap tE e),
         {| repo := repo m; clock := S (clock m);
            trace := trace m ++ [EvEncodeFailed d] |})
    | None =>
        match SetEncodedObject_err w (encoding d) with
        | Some e =>
            (Err (Wrap tS e),
             {| repo := repo m; clock := S (clock m);
                trace := trace m ++ [EvStoreFailed (encoding d)] |})
        | None =>
            (Ret (object.Hash (rewritten w msgOf (clock m) parents old)),
             storeOne (rewritten w msgOf (clock m) parents old) m)
        end
    end
  else (Err (Wrap tT ErrObjectNotFound), m).
Proof.
  intros d m1. unfold synthesize, bind, orWrap, Commit_Tree, getRepo, bind.
  destruct (bool_decide (object.TreeHash old ∈ Trees (repo m))) eqn:Ht;
    [|reflexivity].
  cbn [ret fail Now]. unfold Encode.
  fold (draft w msgOf (clock m) parents old). fold d.
  destruct (Encode_err w d) as [e|] eqn:He; [reflexivity|].
  cbn [ret]. unfold SetEncodedObject.
  destruct (SetEncodedObject_err w (encoding d)) as [e|] eqn:Hs;
    [reflexivity|].
  unfold storeOne. rewrite encoding_rewritten. reflexivity.
Qed.
End Step.

(* ================================================================== *)
(** ** Steps that neither move a reference nor push *)

Lemma quiet_pure {A} (c : M A) :
  (∀ m, (c m).2 = m) → quiet c.
Proof.
  intros Hc m res m' H. specialize (Hc m). rewrite H in Hc. simpl in Hc.
  subst m'. split_and!; [done..|]. exists []. rewrite app_nil_r.
  split_and!; [done|constructor|intros; constructor].
Qed.

Lemma quiet_ret {A} (a : A) : quiet (ret a).
Proof. by apply quiet_pure. Qed.

Lemma quiet_fail {A} e : quiet (@fail A e).
Proof. by apply quiet_pure. Qed.

Lemma quiet_throw {A} p : quiet (@throw A p).
Proof. by apply quiet_pure. Qed.

Lemma quiet_bind {A B} (c : M A) (k : A → M B) :
  quiet c → (∀ a, quiet (k a)) → quiet (bind c k).
Proof.
  intros Hc Hk m res m'. unfold bind.
  destruct (c m) as [[a|e|p] m1] eqn:Ec; intros H.
  - destruct (Hc _ _ _ Ec) as (R1 & D1 & evs1 & T1 & P1 & F1).
    destruct (Hk a _ _ _ H) as (R2 & D2 & evs2 & T2 & P2 & F2).
    split_and!; [congruence..|].
    exists (evs1 ++ evs2). rewrite T2, T1, app_assoc.
    split_and!; [done|by apply Forall_app|].
    intros Hne. apply Forall_app. split; [by apply F1|by apply F2].
  - inversion H; subst.
    destruct (Hc _ _ _ Ec) as (R1 & D1 & evs1 & T1 & P1 & F1).
    split_and!; [done..|]. by exists evs1.
  - inversion H; subst.
    destruct (Hc _ _ _ Ec) as (R1 & D1 & evs1 & T1 & P1 & F1).
    split_and!; [done..|]. exists evs1. split_and!; [done..|].
    intros _. by apply F1.
Qed.

Lemma quiet_orWrap {A} text (c : M A) : quiet c → quiet (orWrap text c).
Proof.
  intros Hc m res m'. unfold orWrap.
  destruct (c m) as [[a|e|p] m1] eqn:Ec; intros H; inversion H; subst;
    destruct (Hc _ _ _ Ec) as (R1 & D1 & evs1 & T1 & P1 & F1);
    (split_and!; [done..|]); exists evs1; (split_and!; [done..|]).
  - intros _. by apply F1.
  - done.
  - intros _. by apply F1.
Qed.

Lemma quiet_index {A} (s : list A) i : quiet (index s i).
Proof.
  apply quiet_pure. intros m. unfold index.
  case_bool_decide; [destruct (s !! Z.to_nat i)|]; done.
Qed.

Section Quiet.
Variable w : World.

Lemma quiet_Now : quiet (Now w).
Proof.
  intros m res m' H. inversion H; subst. simpl.
  split_and!; [done..|]. exists []. rewrite app_nil_r.
  split_and!; [done|constructor|intros; constructor].
Qed.

Lemma quiet_Commit_Tree c : quiet (Commit_Tree c).
Proof.
  apply quiet_pure. intros m. unfold Commit_Tree, bind, getRepo.
  by case_bool_decide.
Qed.

Lemma quiet_Encode c : quiet (Encode w c).
Proof.
  unfold Encode. destruct (Encode_err w c) as [e|]; [|apply quiet_ret].
  intros m res m' H. inversion H; subst. simpl.
  split_and!; [done..|]. exists [EvEncodeFailed c].
  split_and!; [done|by repeat constructor|].
  done.
Qed.

Lemma quiet_SetEncodedObject o : quiet (SetEncodedObject w o).
Proof.
  unfold SetEncodedObject. destruct (SetEncodedObject_err w o) as [e|].
  - intros m res m' H. inversion H; subst. simpl.
    split_and!; [done..|]. exists [EvStoreFailed o].
    split_and!; [done|by repeat constructor|].
    done.
  - intros m res m' H. inversion H; subst. simpl.
    split_and!; [done..|]. exists [EvObjectStored (Hash_of w o) o].
    split_and!; [done|by repeat constructor|].
    intros _. by repeat constructor.
Qed.

Lemma quiet_synthesize tT tE tS message parents old :
  quiet (synthesize w tT tE tS message parents old).
Proof.
  unfold synthesize.
  apply quiet_bind; [apply quiet_orWrap, quiet_Commit_Tree|intros tree].
  apply quiet_bind; [apply quiet_Now|intros now].
  apply quiet_bind; [apply quiet_orWrap, quiet_Encode|intros obj].
  apply quiet_orWrap, quiet_SetEncodedObject.
Qed.

Lemma quiet_countdown {A} n (body : Z → A → M A) a :
  (∀ i x, quiet (body i x)) → quiet (countdown n body a).
Proof.
  intros Hb. revert a. induction n as [|n IH]; intros a; simpl.
  - apply quiet_ret.
  - apply quiet_bind; [apply Hb|intros a'; apply IH].
Qed.

Lemma quiet_forRange {A B} (xs : list B) i (body : Z → B → A → M A) a :
  (∀ i x y, quiet (body i x y)) → quiet (forRange i xs body a).
Proof.
  intros Hb. revert i a. induction xs as [|x xs IH]; intros i a; simpl.
  - apply quiet_ret.
  - apply quiet_bind; [apply Hb|intros a'; apply IH].
Qed.

Lemma quiet_TrimOldCommits_rewrite commits keep :
  quiet (TrimOldCommits_rewrite w commits keep).
Proof.
  unfold TrimOldCommits_rewrite.
  apply quiet_bind; [apply quiet_index|intros anc].
  apply quiet_bind; [apply quiet_orWrap, quiet_Commit_Tree|intros tree].
  apply quiet_bind; [apply quiet_Now|intros now].
  apply quiet_bind; [apply quiet_orWrap, quiet_Encode|intros obj].
  apply quiet_bind; [apply quiet_orWrap, quiet_SetEncodedObject|intros h].
  apply quiet_countdown. intros i cur. unfold TrimOldCommits_body.
  apply quiet_bind; [apply quiet_index|intros old].
  apply quiet_synthesize.
Qed.

Lemma quiet_DeleteCommit_rewrite commits targetIndex :
  quiet (DeleteCommit_rewrite w commits targetIndex).
Proof.
  unfold DeleteCommit_rewrite.
  apply quiet_bind.
  - apply quiet_countdown. intros i acc. unfold DeleteCommit_skip.
    case_bool_decide; [|apply quiet_ret].
    apply quiet_bind; [apply quiet_index|intros c; apply quiet_ret].
  - intros news. apply quiet_forRange. intros i old cur.
    rewrite DeleteCommit_body_eq. apply quiet_synthesize.
Qed.

Lemma quiet_ModifyCommit_rewrite commits target msg :
  quiet (ModifyCommit_rewrite w commits target msg).
Proof.
  unfold ModifyCommit_rewrite.
  apply quiet_bind.
  - apply quiet_countdown. intros i acc. unfold ModifyCommit_reverse.
    apply quiet_bind; [apply quiet_index|intros c; apply quiet_ret].
  - intros news. apply quiet_forRange. intros i old cur.
    rewrite ModifyCommit_body_eq. apply quiet_synthesize.
Qed.
End Quiet.

(* ================================================================== *)
(** ** The iterator's closures *)

Lemma ForEach_collect cs tail acc :
  ForEach_loop cs tail collect_cb acc = (acc ++ cs, tail).
Proof.
  revert acc. induction cs as [|c cs IH]; intros acc; simpl.
  - by rewrite app_nil_r.
  - rewrite IH. by rewrite <- app_assoc.
Qed.

Lemma collect_commits it : (ForEach it collect_cb []).1 = iter_commits it.
Proof. unfold ForEach. by rewrite ForEach_collect. Qed.

(** The position [DeleteCommit] ends with: it is [ti] when no commit has
    the target hash, and the position of the last commit that has it
    otherwise. *)
Lemma ForEach_DeleteCommit_cb target cs tail acc ti :
  ∃ ti', ForEach_loop cs tail (DeleteCommit_cb target) (acc, ti)
           = ((acc ++ cs, ti'), tail) ∧
         ((ti' = ti ∧ Forall (λ c, object.Hash c ≠ target) cs) ∨
          (∃ (j : nat) c, ti' = len acc + Z.of_nat j ∧ cs !! j = Some c ∧
             object.Hash c = target ∧
             Forall (λ c, object.Hash c ≠ target) (drop (S j) cs))).
Proof.
  revert acc ti. induction cs as [|c cs IH]; intros acc ti.
  - exists ti. simpl. rewrite app_nil_r. split; [done|]. left. by split.
  - simpl.
    destruct (IH (acc ++ [c])
                (if bool_decide (object.Hash c = target) then len acc else ti))
      as (ti' & Hrun & Hti).
    exists ti'. rewrite Hrun, <- app_assoc. split; [done|].
    assert (Hlen : len (acc ++ [c]) = len acc + 1).
    { unfold len. rewrite length_app. simpl. lia. }
    destruct Hti as [[-> Hall]|(j & d & -> & Hj & Hd & Hall)].
    + case_bool_decide as Hc.
      * right. exists 0%nat, c. simpl. rewrite drop_0.
        split_and!; [lia|done..].
      * left. split; [done|]. by constructor.
    + right. exists (S j), d. simpl. split_and!; [lia|done..].
Qed.

Lemma ForEach_ModifyCommit_cb target cs tail acc found :
  ForEach_loop cs tail (ModifyCommit_cb target) (acc, found) =
  ((acc ++ cs,
    found || bool_decide (Exists (λ c, object.Hash c = target) cs)), tail).
Proof.
  revert acc found. induction cs as [|c cs IH]; intros acc found.
  - cbn [ForEach_loop]. rewrite app_nil_r.
    rewrite bool_decide_eq_false_2 by (by intros H%Exists_nil).
    by rewrite orb_false_r.
  - cbn [ForEach_loop ModifyCommit_cb]. rewrite IH, <- app_assoc. do 2 f_equal.
    destruct (decide (object.Hash c = target)) as [Hc|Hc].
    + rewrite (bool_decide_eq_true_2 _ Hc).
      rewrite (bool_decide_eq_true_2 (Exists _ (c :: cs)))
        by (by apply Exists_cons_hd).
      by rewrite orb_true_r.
    + rewrite (bool_decide_eq_false_2 _ Hc). f_equal.
      apply bool_decide_ext. rewrite Exists_cons. tauto.
Qed.

(* ================================================================== *)
(** ** The loops that put the survivors root first *)

Lemma take_S_snoc {A} (l : list A) n x :
  l !! n = Some x → take (S n) l = take n l ++ [x].
Proof. intros H. by rewrite (take_S_r _ _ _ H). Qed.

Lemma countdown_reverse commits n acc m :
  (n ≤ length commits)%nat →
  countdown n (ModifyCommit_reverse commits) acc m =
  (Ret (acc ++ reverse (take n commits)), m).
Proof.
  revert acc. induction n as [|n IH]; intros acc Hn.
  - simpl. by rewrite take_0, app_nil_r.
  - destruct (lookup_lt_is_Some_2 commits n) as [c Hc]; [lia|].
    cbn [countdown]. unfold ModifyCommit_reverse at 1.
    rewrite (bind_Ret _ _ _ (acc ++ [c]) m).
    2:{ by rewrite (bind_Ret _ _ _ c m) by (by apply index_in). }
    rewrite IH by lia. rewrite (take_S_snoc _ _ _ Hc), reverse_app.
    simpl. by rewrite <- app_assoc.
Qed.

Lemma delete_take_snoc {A} (l : list A) (t n : nat) x :
  length l = n →
  delete t (l ++ [x]) =
  if bool_decide (n = t) then l else delete t l ++ [x].
Proof.
  intros <-. revert t. induction l as [|y l IH]; intros t.
  - destruct t; simpl; repeat case_bool_decide; done || lia.
  - destruct t as [|t]; simpl.
    + repeat case_bool_decide; done || lia.
    + rewrite IH. repeat case_bool_decide; done || lia.
Qed.

Lemma delete_beyond {A} (l : list A) (t : nat) :
  (length l ≤ t)%nat → delete t l = l.
Proof.
  intros H. rewrite delete_take_drop, take_ge, drop_ge by lia.
  by rewrite app_nil_r.
Qed.

Lemma countdown_skip commits (t : nat) n acc m :
  (n ≤ length commits)%nat →
  countdown n (DeleteCommit_skip commits (Z.of_nat t)) acc m =
  (Ret (acc ++ reverse (delete t (take n commits))), m).
Proof.
  revert acc. induction n as [|n IH]; intros acc Hn.
  - simpl. rewrite take_0. destruct t; simpl; by rewrite app_nil_r.
  - destruct (lookup_lt_is_Some_2 commits n) as [c Hc]; [lia|].
    cbn [countdown]. unfold DeleteCommit_skip at 1.
    rewrite (take_S_snoc _ _ _ Hc).
    rewrite (delete_take_snoc _ t n) by (rewrite length_take; lia).
    case_bool_decide as Hi.
    + rewrite bool_decide_eq_false_2 by lia.
      rewrite (bind_Ret _ _ _ (acc ++ [c]) m).
      2:{ by rewrite (bind_Ret _ _ _ c m) by (by apply index_in). }
      rewrite IH by lia. rewrite reverse_app. simpl.
      by rewrite <- app_assoc.
    + rewrite bool_decide_eq_true_2 by lia.
      rewrite (bind_Ret _ _ _ acc m) by done.
      rewrite IH by lia.
      by rewrite (delete_beyond (take n commits) t)
        by (rewrite length_take; lia).
Qed.

(** The bound of [for i := len(commits) - 1; i >= 0; i--]. *)
Lemma downFrom_len {A} (s : list A) :
  len s ≤ MaxInt → Z.to_nat (int_sub (len s) 1 + 1) = length s.
Proof.
  intros H. unfold int_sub. rewrite wrap_id.
  - unfold len. lia.
  - pose proof (len_nonneg s). unfold MinInt, MaxInt in *. lia.
Qed.

(* ================================================================== *)
(** ** The loop that synthesizes the new chain *)

Section Rebuild.
Variable w : World.
Variable msgOf : object.Commit → string.
Variable treeText : object.Commit → string.

Lemma tipOf_cons h c news : tipOf h (c :: news) = tipOf (object.Hash c) news.
Proof.
  unfold tipOf. destruct news as [|d news]; [done|].
  change (last (c :: d :: news)) with (last (d :: news)).
  destruct (last (d :: news)) eqn:E; [done|]. by apply last_None in E.
Qed.

(** When no step fails, the loop stores the re-derived chain and returns
    the id of its last commit. *)
Lemma rebuild_rechain olds parents cur m :
  rechains w msgOf (Trees (repo m)) (clock m) parents olds →
  rebuild w msgOf treeText parents cur olds m =
  (Ret (tipOf cur (rechain w msgOf (clock m) parents olds)),
   storeAll (rechain w msgOf (clock m) parents olds) m).
Proof.
  revert parents cur m. induction olds as [|old rest IH];
    intros parents cur m H; [done|].
  destruct H as (Ht & He & Hs & Hrest).
  cbn [rebuild rechain storeAll]. rewrite tipOf_cons.
  erewrite bind_Ret.
  2:{ rewrite synthesize_run, bool_decide_eq_true_2 by done.
      by rewrite He, Hs. }
  by apply (IH _ _ (storeOne _ m)).
Qed.

(** A loop that returned met no failing step. *)
Lemma rebuild_Ret_inv olds parents cur m h m' :
  rebuild w msgOf treeText parents cur olds m = (Ret h, m') →
  rechains w msgOf (Trees (repo m)) (clock m) parents olds.
Proof.
  revert parents cur m. induction olds as [|old rest IH];
    intros parents cur m H; [done|].
  cbn [rebuild] in H. apply bind_Ret_inv in H as (h1 & m1 & Hstep & Hrest).
  rewrite synthesize_run in Hstep.
  case_bool_decide as Ht; [|discriminate].
  destruct (Encode_err w _) eqn:He; [discriminate|].
  destruct (SetEncodedObject_err w _) eqn:Hs; [discriminate|].
  inversion Hstep; subst h1 m1. clear Hstep.
  cbn [rechains]. split_and!; [done..|].
  by apply (IH _ _ _ Hrest).
Qed.

Lemma quiet_rebuild olds parents cur :
  quiet (rebuild w msgOf treeText parents cur olds).
Proof.
  revert parents cur. induction olds as [|old rest IH]; intros parents cur.
  - apply quiet_ret.
  - cbn [rebuild]. apply quiet_bind; [apply quiet_synthesize|].
    intros h. apply IH.
Qed.
End Rebuild.

(** The loops of the source are that loop. *)
Lemma bind_ext {A B} (c : M A) (k1 k2 : A → M B) m :
  (∀ a m1, k1 a m1 = k2 a m1) → bind c k1 m = bind c k2 m.
Proof. intros H. unfold bind. by destruct (c m) as [[a|e|p] m1]. Qed.

Lemma bind_ext_l {A B} (c1 c2 : M A) (k : A → M B) m :
  (∀ m1, c1 m1 = c2 m1) → bind c1 k m = bind c2 k m.
Proof. intros H. unfold bind. by rewrite H. Qed.

Lemma bind_assoc {A B C} (c : M A) (k : A → M B) (k' : B → M C) m :
  bind (bind c k) k' m = bind c (λ a, bind (k a) k') m.
Proof. unfold bind. by destruct (c m) as [[a|e|p] m1]. Qed.

Lemma forRange_DeleteCommit_body w olds i cur m :
  0 ≤ i →
  forRange i olds (DeleteCommit_body w) cur m =
  rebuild w object.Message (treeTextOf w)
    (if 0 <? i then [cur] else []) cur olds m.
Proof.
  revert i cur m. induction olds as [|old rest IH]; intros i cur m Hi; [done|].
  cbn [forRange rebuild]. rewrite DeleteCommit_body_eq.
  apply bind_ext. intros h m1. rewrite IH by lia.
  by replace (0 <? i + 1) with true by lia.
Qed.

Lemma forRange_ModifyCommit_body w target msg olds i cur m :
  0 ≤ i →
  forRange i olds (ModifyCommit_body w target msg) cur m =
  rebuild w (amend target msg) (treeTextOf w)
    (if 0 <? i then [cur] else []) cur olds m.
Proof.
  revert i cur m. induction olds as [|old rest IH]; intros i cur m Hi; [done|].
  cbn [forRange rebuild]. rewrite ModifyCommit_body_eq.
  apply bind_ext. intros h m1. rewrite IH by lia.
  by replace (0 <? i + 1) with true by lia.
Qed.

Lemma countdown_TrimOldCommits_body w commits n cur m :
  (n ≤ length commits)%nat →
  countdown n (TrimOldCommits_body w commits) cur m =
  rebuild w object.Message (treeTextOf w) [cur] cur
    (reverse (take n commits)) m.
Proof.
  revert cur m. induction n as [|n IH]; intros cur m Hn.
  - by rewrite take_0.
  - destruct (lookup_lt_is_Some_2 commits n) as [c Hc]; [lia|].
    rewrite (take_S_snoc _ _ _ Hc), reverse_app. cbn [countdown].
    unfold TrimOldCommits_body at 1.
    rewrite bind_assoc, (bind_Ret _ _ _ c m) by (by apply index_in).
    change (reverse [c] ++ reverse (take n commits))
      with (c :: reverse (take n commits)).
    cbn [rebuild].
    apply bind_ext. intros h m1. apply IH; lia.
Qed.

(* ================================================================== *)
(** ** The re-derived chain *)

Lemma linkedFrom_snoc ps chain c :
  linkedFrom ps (chain ++ [c]) ↔
  linkedFrom ps chain ∧
  object.ParentHashes c =
    match last chain with Some p => [object.Hash p] | None => ps end.
Proof.
  revert ps. induction chain as [|d chain IH]; intros ps.
  - simpl. tauto.
  - cbn [app linkedFrom]. rewrite IH.
    destruct chain as [|d' chain]; [simpl; tauto|].
    change (last (d :: d' :: chain)) with (last (d' :: chain)).
    destruct (last (d' :: chain)) eqn:E; [tauto|].
    by apply last_None in E.
Qed.

Lemma linkedDown_reverse chain :
  linkedFrom [] chain → linkedDown (reverse chain).
Proof.
  induction chain as [|c chain IH] using rev_ind; [done|].
  rewrite linkedFrom_snoc, reverse_snoc. intros [Hl Hc].
  cbn [linkedDown]. split; [|by apply IH].
  rewrite Hc.
  destruct chain as [|d chain _] using rev_ind; [done|].
  by rewrite last_snoc, reverse_snoc.
Qed.

Lemma linkedDown_lookup chain j c p :
  linkedDown chain → chain !! j = Some c → chain !! S j = Some p →
  object.ParentHashes c = [object.Hash p].
Proof.
  revert j. induction chain as [|d chain IH]; intros j Hl Hc Hp; [done|].
  destruct Hl as [Hd Hl]. destruct j as [|j].
  - simpl in Hc, Hp. inversion Hc; subst d.
    destruct chain; [done|]. simpl in Hp. by inversion Hp; subst.
  - by apply (IH j).
Qed.

Lemma linkedDown_last chain c :
  linkedDown chain → last chain = Some c → object.ParentHashes c = [].
Proof.
  induction chain as [|d chain IH]; intros Hl Hc; [done|].
  destruct Hl as [Hd Hl]. destruct chain as [|d' chain].
  - simpl in Hc. by inversion Hc; subst.
  - by apply IH.
Qed.

Section RechainFacts.
Variable w : World.
Variable msgOf : object.Commit → string.

Lemma rewritten_rewrites k ps old :
  rewrites w msgOf old (rewritten w msgOf k ps old).
Proof.
  unfold rewrites, rewritten, decoding.
  cbn [object.TreeHash object.Author object.Message object.Committer
       object.Hash enc_Author enc_Committer enc_Message enc_TreeHash
       encoding draft newCommitOf].
  split_and!; [done|apply readBack_written|done| |].
  - exists k. apply readBack_written.
  - symmetry. f_equal.
    exact (encoding_rewritten w msgOf k ps old).
Qed.

Lemma rechain_canonical k ps olds :
  Forall canonical (rechain w msgOf k ps olds).
Proof.
  revert k ps. induction olds as [|old rest IH]; intros k ps;
    [constructor|].
  cbn [rechain]. constructor; [apply rewritten_canonical|apply IH].
Qed.

Lemma rechain_length k ps olds :
  length (rechain w msgOf k ps olds) = length olds.
Proof.
  revert k ps. induction olds as [|old rest IH]; intros k ps; [done|].
  simpl. by rewrite IH.
Qed.

Lemma rechain_rewrites k ps olds :
  Forall2 (rewrites w msgOf) olds (rechain w msgOf k ps olds).
Proof.
  revert k ps. induction olds as [|old rest IH]; intros k ps;
    [constructor|].
  cbn [rechain]. constructor; [apply rewritten_rewrites|apply IH].
Qed.

Lemma rechain_linkedFrom k ps olds :
  linkedFrom ps (rechain w msgOf k ps olds).
Proof.
  revert k ps. induction olds as [|old rest IH]; intros k ps; [done|].
  cbn [rechain linkedFrom]. split; [done|apply IH].
Qed.

Lemma rechain_lookup k ps olds (j : nat) c :
  rechain w msgOf k ps olds !! j = Some c →
  ∃ old ps', olds !! j = Some old ∧
             c = rewritten w msgOf (k + j) ps' old.
Proof.
  revert k ps j. induction olds as [|old rest IH]; intros k ps j H;
    [done|].
  destruct j as [|j]; simpl in H.
  - inversion H; subst. exists old, ps. by rewrite Nat.add_0_r.
  - destruct (IH _ _ _ H) as (old' & ps' & Ho & ->).
    exists old', ps'. split; [done|]. f_equal. lia.
Qed.

End RechainFacts.

(* ================================================================== *)
(** ** The machine after the chain was stored *)

Lemma stored_app t1 t2 : stored (t1 ++ t2) = stored t1 ++ stored t2.
Proof.
  induction t1 as [|e t1 IH]; [done|]. destruct e; simpl; by rewrite ?IH.
Qed.

Lemma storeAll_trace news m :
  trace (storeAll news m) =
  trace m ++ map (λ c, EvObjectStored (object.Hash c) (encoding c)) news.
Proof.
  revert m. induction news as [|c news IH]; intros m; simpl.
  - by rewrite app_nil_r.
  - rewrite IH. simpl. by rewrite <- app_assoc.
Qed.

Lemma stored_map news :
  Forall canonical news →
  stored (map (λ c, EvObjectStored (object.Hash c) (encoding c)) news) = news.
Proof.
  induction 1 as [|c news Hc _ IH]; [done|].
  cbn [map stored]. by rewrite IH, Hc.
Qed.

Lemma storeAll_stored news m :
  Forall canonical news →
  stored (trace (storeAll news m)) = stored (trace m) ++ news.
Proof. intros Hn. by rewrite storeAll_trace, stored_app, stored_map. Qed.

Lemma storeAll_repo news m :
  Refs (repo (storeAll news m)) = Refs (repo m) ∧
  HEAD (repo (storeAll news m)) = HEAD (repo m) ∧
  Trees (repo (storeAll news m)) = Trees (repo m) ∧
  clock (storeAll news m) = (clock m + length news)%nat.
Proof.
  revert m. induction news as [|c news IH]; intros m; simpl.
  - split_and!; [done..|lia].
  - destruct (IH (storeOne c m)) as (-> & -> & -> & ->). simpl.
    split_and!; [done..|lia].
Qed.

Section Readback.
Variable w : World.
Hypothesis collisionFree : ∀ a b, Hash_of w a = Hash_of w b → a = b.

Lemma storeAll_keeps news m h o :
  Forall (addressed w) news → Hash_of w o = h →
  Objects (repo m) !! h = Some o →
  Objects (repo (storeAll news m)) !! h = Some o.
Proof.
  revert m. induction news as [|c news IH]; intros m Hn Hh Hm; [done|].
  inversion Hn as [|? ? Hc Hn']; subst. cbn [storeAll].
  apply IH; [done..|]. simpl.
  destruct (decide (object.Hash c = Hash_of w o)) as [E|E].
  - rewrite E, lookup_insert_eq. f_equal. apply collisionFree.
    by rewrite <- Hc.
  - by rewrite lookup_insert_ne.
Qed.

Lemma storeAll_holds news m c :
  Forall (addressed w) news → c ∈ news →
  Objects (repo (storeAll news m)) !! object.Hash c = Some (encoding c).
Proof.
  revert m. induction news as [|d news IH]; intros m Hn Hc.
  - by apply elem_of_nil in Hc.
  - inversion Hn as [|? ? Hd Hn']; subst. cbn [storeAll].
    apply elem_of_cons in Hc as [->|Hc].
    + apply storeAll_keeps; [done|by rewrite <- Hd|].
      simpl. by rewrite lookup_insert_eq.
    + by apply IH.
Qed.

(** Walking the first parents from the head of a linked chain whose
    records the storage holds visits the chain and nothing else. *)
Lemma ancestry_linkedDown objs chain c rest fuel :
  chain = c :: rest → linkedDown chain → Forall canonical chain →
  Forall (λ c, objs !! object.Hash c = Some (encoding c)) chain →
  (length chain ≤ fuel)%nat →
  ancestry fuel objs (object.Hash c) = chain.
Proof.
  revert chain c rest. induction fuel as [|fuel IH];
    intros chain c rest -> Hl Hcan Ho Hf; [simpl in Hf; lia|].
  inversion Ho as [|? ? Hc Ho']; subst. destruct Hl as [Hp Hl].
  inversion Hcan as [|? ? Hcc Hcan']; subst.
  cbn [ancestry]. rewrite Hc, Hcc. f_equal.
  change (enc_ParentHashes (encoding c)) with (object.ParentHashes c).
  rewrite Hp. destruct rest as [|p rest]; [done|].
  apply (IH _ p rest); [done..|]. simpl in *. lia.
Qed.
End Readback.

(* ================================================================== *)
(** ** The rewrite blocks *)

Section Blocks.
Variable w : World.

Lemma int_sub_small a b :
  MinInt ≤ a - b ≤ MaxInt → int_sub a b = a - b.
Proof. apply wrap_id. Qed.

(** [DeleteCommit]: the survivors are the commits but the one deleted,
    root first. *)
Lemma DeleteCommit_rewrite_rebuild commits (t : nat) m :
  len commits ≤ MaxInt →
  DeleteCommit_rewrite w commits (Z.of_nat t) m =
  rebuild w object.Message (treeTextOf w) [] plumbing.ZeroHash
    (reverse (delete t commits)) m.
Proof.
  intros Hlen. unfold DeleteCommit_rewrite, forDownTo0.
  rewrite downFrom_len by done.
  erewrite bind_Ret by (by apply countdown_skip).
  rewrite firstn_all, app_nil_l.
  by rewrite forRange_DeleteCommit_body.
Qed.

(** [ModifyCommit]: every commit survives. *)
Lemma ModifyCommit_rewrite_rebuild commits target msg m :
  len commits ≤ MaxInt →
  ModifyCommit_rewrite w commits target msg m =
  rebuild w (amend target msg) (treeTextOf w) [] plumbing.ZeroHash
    (reverse commits) m.
Proof.
  intros Hlen. unfold ModifyCommit_rewrite, forDownTo0.
  rewrite downFrom_len by done.
  erewrite bind_Ret by (by apply countdown_reverse).
  rewrite firstn_all, app_nil_l.
  by rewrite forRange_ModifyCommit_body.
Qed.

(** [TrimOldCommits]: the root is made apart, with its own texts; then
    the loop stacks the newer commits on it. *)
Lemma TrimOldCommits_rewrite_root commits (n : nat) anc m :
  commits !! n = Some anc → len commits ≤ MaxInt →
  TrimOldCommits_rewrite w commits (Z.of_nat (S n)) m =
  (let! h := synthesize w "get tree for new root" "encode new root commit"
               "store new root commit" (object.Message anc) [] anc in
   rebuild w object.Message (treeTextOf w) [h] h
     (reverse (take n commits))) m.
Proof.
  intros Hanc Hlen. unfold TrimOldCommits_rewrite.
  pose proof (lookup_lt_Some _ _ _ Hanc) as Hn.
  assert (Hn' : Z.of_nat n < MaxInt) by (unfold len in Hlen; lia).
  rewrite int_sub_small by (unfold MinInt, MaxInt in *; lia).
  replace (Z.of_nat (S n) - 1) with (Z.of_nat n) by lia.
  rewrite (bind_Ret _ _ _ anc m) by (by apply index_in).
  unfold synthesize. rewrite !bind_assoc. apply bind_ext. intros tree m1.
  rewrite !bind_assoc. apply bind_ext. intros now m2.
  rewrite !bind_assoc. apply bind_ext. intros obj m3.
  apply bind_ext. intros h m4. unfold forDownTo0.
  rewrite int_sub_small by (unfold MinInt, MaxInt in *; lia).
  replace (Z.to_nat (Z.of_nat (S n) - 2 + 1)) with n by lia.
  apply countdown_TrimOldCommits_body. lia.
Qed.

Lemma TrimOldCommits_rewrite_rechain commits (n : nat) m :
  (n < length commits)%nat → len commits ≤ MaxInt →
  rechains w object.Message (Trees (repo m)) (clock m) []
    (reverse (take (S n) commits)) →
  let news := rechain w object.Message (clock m) []
                (reverse (take (S n) commits)) in
  TrimOldCommits_rewrite w commits (Z.of_nat (S n)) m =
  (Ret (tipOf plumbing.ZeroHash news), storeAll news m).
Proof.
  intros Hn Hlen. destruct (lookup_lt_is_Some_2 commits n) as [anc Hanc];
    [done|].
  rewrite (take_S_snoc _ _ _ Hanc), reverse_app.
  change (reverse [anc] ++ reverse (take n commits))
    with (anc :: reverse (take n commits)).
  intros (Ht & He & Hs & Hrest) news.
  rewrite (TrimOldCommits_rewrite_root _ _ _ _ Hanc Hlen).
  erewrite bind_Ret.
  2:{ rewrite (synthesize_run w object.Message),
        bool_decide_eq_true_2 by done.
      by rewrite He, Hs. }
  rewrite (rebuild_rechain w) by done.
  subst news. cbn [rechain storeAll]. by rewrite tipOf_cons.
Qed.

Lemma TrimOldCommits_rewrite_Ret_inv commits (n : nat) m h m' :
  (n < length commits)%nat → len commits ≤ MaxInt →
  TrimOldCommits_rewrite w commits (Z.of_nat (S n)) m = (Ret h, m') →
  rechains w object.Message (Trees (repo m)) (clock m) []
    (reverse (take (S n) commits)).
Proof.
  intros Hn Hlen. destruct (lookup_lt_is_Some_2 commits n) as [anc Hanc];
    [done|].
  rewrite (take_S_snoc _ _ _ Hanc), reverse_app.
  change (reverse [anc] ++ reverse (take n commits))
    with (anc :: reverse (take n commits)).
  rewrite (TrimOldCommits_rewrite_root _ _ _ _ Hanc Hlen).
  intros H. apply bind_Ret_inv in H as (h1 & m1 & Hstep & Hrest).
  rewrite (synthesize_run w object.Message) in Hstep.
  case_bool_decide as Ht; [|discriminate].
  destruct (Encode_err w _) eqn:He; [discriminate|].
  destruct (SetEncodedObject_err w _) eqn:Hs; [discriminate|].
  inversion Hstep; subst h1 m1. clear Hstep.
  cbn [rechains]. split_and!; [done..|].
  by apply (rebuild_Ret_inv w _ _ _ _ _ _ _ _ Hrest).
Qed.

(* ---------------------------------------------------------------- *)
(** *** Publication *)

Lemma publish_run auth refName h m :
  let ref := plumbing.NewHashReference refName h in
  publish w auth refName h m =
  match SetReference_err w ref with
  | Some e => (Err (Wrap "set ref" e), m)
  | None =>
      let m1 := withRef ref m in
      match Repository_Push w (repo m1) (forcePush auth refName) with
      | Some e =>
          (Err (Wrap "push" e), pushed (forcePush auth refName) (Some e) m1)
      | None => (Ret tt, pushed (forcePush auth refName) None m1)
      end
  end.
Proof.
  intros ref. unfold publish, bind, orWrap, SetReference. fold ref.
  destruct (SetReference_err w ref) as [e|]; [done|].
  cbn. fold (forcePush auth refName).
  by destruct (Repository_Push w _ (forcePush auth refName)).
Qed.

(* ---------------------------------------------------------------- *)
(** *** The shared prelude *)

Lemma NewSSHAuth_opens url key auth r headRef it m :
  opens w url key auth r headRef it →
  NewSSHAuth w key m = (Ret auth, m).
Proof.
  intros ((pk & Hpk & ->) & _). unfold NewSSHAuth. by rewrite Hpk.
Qed.

Lemma CloneToMemory_opens url key auth r headRef it m :
  opens w url key auth r headRef it →
  CloneToMemory w url auth m = (Ret tt, cloned r m).
Proof.
  intros (_ & Hc & _). unfold CloneToMemory. by rewrite Hc.
Qed.

Lemma Head_opens url key auth r headRef it m :
  opens w url key auth r headRef it →
  Head (cloned r m) = (Ret headRef, cloned r m).
Proof.
  intros (_ & _ & Hh & _). unfold Head, bind, getRepo. simpl.
  by rewrite Hh.
Qed.

Lemma Log_opens url key auth r headRef it m :
  opens w url key auth r headRef it →
  Log w (plumbing.Reference_Hash headRef) (cloned r m) =
  (Ret it, cloned r m).
Proof.
  intros (_ & _ & _ & _ & Hl). unfold Log, bind, getRepo. simpl.
  by rewrite Hl.
Qed.

Lemma TrimOldCommits_opened url key keep auth r headRef it m :
  opens w url key auth r headRef it →
  TrimOldCommits w url key keep m =
  (if len (iter_commits it) <=? keep then ret tt
   else
     let! h := TrimOldCommits_rewrite w (iter_commits it) keep in
     publish w auth (plumbing.Reference_Name headRef) h) (cloned r m).
Proof.
  intros Ho. unfold TrimOldCommits.
  rewrite (bind_Ret _ _ _ _ _ (NewSSHAuth_opens _ _ _ _ _ _ m Ho)).
  rewrite (bind_Ret _ _ _ _ _ (CloneToMemory_opens _ _ _ _ _ _ m Ho)).
  rewrite (bind_Ret _ _ _ _ _
             (orWrap_Ret _ _ _ _ _ (Head_opens _ _ _ _ _ _ m Ho))).
  destruct Ho as (Ha & Hc & Hh & Hb & Hl) eqn:Ho'. rewrite Hb.
  cbn [negb].
  rewrite (bind_Ret _ _ _ _ _
             (orWrap_Ret _ _ _ _ _ (Log_opens _ _ _ _ _ _ m Ho))).
  by rewrite collect_commits.
Qed.
End Blocks.

(* ================================================================== *)
(** ** Computations that do not panic *)

Lemma calm_bind {A B} (c : M A) (k : A → M B) :
  calm c → (∀ a, calm (k a)) → calm (bind c k).
Proof.
  intros Hc Hk m. unfold bind. specialize (Hc m).
  destruct (c m) as [[a|e|q] m1]; simpl in *; [apply Hk|done..].
Qed.

Lemma calm_orWrap {A} text (c : M A) : calm c → calm (orWrap text c).
Proof.
  intros Hc m. unfold orWrap. specialize (Hc m).
  by destruct (c m) as [[a|e|q] m1].
Qed.

Lemma calm_synthesize w tT tE tS message parents old :
  calm (synthesize w tT tE tS message parents old).
Proof.
  unfold synthesize.
  apply calm_bind.
  { apply calm_orWrap. intros m. unfold Commit_Tree, bind, getRepo.
    by case_bool_decide. }
  intros tree. apply calm_bind; [done|intros now].
  apply calm_bind.
  { apply calm_orWrap. intros m. unfold Encode.
    by destruct (Encode_err w _). }
  intros obj. apply calm_orWrap. intros m. unfold SetEncodedObject.
  by destruct (SetEncodedObject_err w _).
Qed.

Lemma calm_rebuild w msgOf treeText parents cur olds :
  calm (rebuild w msgOf treeText parents cur olds).
Proof.
  revert parents cur. induction olds as [|old rest IH]; intros parents cur;
    [done|].
  cbn [rebuild]. apply calm_bind; [apply calm_synthesize|intros h; apply IH].
Qed.

Lemma calm_publish w auth refName h : calm (publish w auth refName h).
Proof.
  intros m. rewrite publish_run. cbv zeta.
  destruct (SetReference_err w _); [done|].
  by destruct (Repository_Push w _ _).
Qed.

Lemma calm_not_Panicked {A} (c : M A) m p : calm c → (c m).1 ≠ Panicked p.
Proof. intros Hc H. specialize (Hc m). by rewrite H in Hc. Qed.

(* ================================================================== *)
(** ** TrimOldCommits when there is nothing to trim, and when [keep] is not
    positive *)

(** C9 — When the chain has no more than [keep] records, [TrimOldCommits]
    returns success and leaves the machine as the clone made it: the
    repository is the one cloned (no object written, no reference moved)
    and the trace is the one before the call (nothing stored, nothing set,
    nothing pushed).  Calling it again, from there, does the same: with
    [keep] equal to the length the operation is idempotent. *)
Theorem TrimOldCommits_noop w url key keep auth r headRef it m :
  opens w url key auth r headRef it →
  len (iter_commits it) ≤ keep →
  ∃ m', TrimOldCommits w url key keep m = (Ret tt, m') ∧
        repo m' = r ∧ trace m' = trace m ∧ clock m' = clock m ∧
        TrimOldCommits w url key keep m' = (Ret tt, m').
Proof.
  intros Ho Hk. exists (cloned r m).
  rewrite !(TrimOldCommits_opened _ _ _ _ _ _ _ _ _ Ho).
  replace (len (iter_commits it) <=? keep) with true by lia.
  by split_and!.
Qed.

(** C10 (as amended) — On a chain of at least one record and with
    [keep ≤ 0], [TrimOldCommits] passes the guard and panics on
    [commits[keep-1]]: the index, computed in [int], is out of bounds; it
    is [keep - 1], a negative number, unless [keep] is the least [int], where
    it wraps to the greatest.  With [keep ≥ 1] the operation does not
    panic, and past the guard the index of the new root is in bounds
    exactly when [keep ≥ 1]. *)
Theorem TrimOldCommits_nonpositive_keep w url key keep auth r headRef it m :
  opens w url key auth r headRef it →
  1 ≤ len (iter_commits it) ≤ MaxInt →
  MinInt ≤ keep ≤ MaxInt →
  (keep ≤ 0 →
     TrimOldCommits w url key keep m =
       (Panicked (IndexOutOfRange (int_sub keep 1) (len (iter_commits it))),
        cloned r m) ∧
     ¬ (0 ≤ int_sub keep 1 < len (iter_commits it)) ∧
     (MinInt < keep → int_sub keep 1 = keep - 1 ∧ keep - 1 < 0) ∧
     (keep = MinInt → int_sub keep 1 = MaxInt)) ∧
  (1 ≤ keep → ∀ p, (TrimOldCommits w url key keep m).1 ≠ Panicked p) ∧
  (keep < len (iter_commits it) →
     (0 ≤ int_sub keep 1 < len (iter_commits it) ↔ 1 ≤ keep)).
Proof.
  intros Ho Hlen Hkeep.
  assert (Hidx : keep ≤ 0 → ¬ (0 ≤ int_sub keep 1 < len (iter_commits it))).
  { intros Hk. destruct (decide (keep = MinInt)) as [->|Hne].
    - unfold int_sub. rewrite wrap_MinInt_pred. lia.
    - rewrite int_sub_small by (unfold MinInt, MaxInt in *; lia). lia. }
  split_and!.
  - intros Hk. split_and!.
    + rewrite (TrimOldCommits_opened _ _ _ _ _ _ _ _ _ Ho).
      replace (len (iter_commits it) <=? keep) with false by lia.
      unfold TrimOldCommits_rewrite. rewrite bind_assoc.
      apply bind_Panicked, index_out. by apply Hidx.
    + by apply Hidx.
    + intros Hm. rewrite int_sub_small by (unfold MinInt, MaxInt in *; lia).
      lia.
    + intros ->. unfold int_sub. by rewrite wrap_MinInt_pred.
  - intros Hk p. rewrite (TrimOldCommits_opened _ _ _ _ _ _ _ _ _ Ho).
    destruct (len (iter_commits it) <=? keep) eqn:Hg; [done|].
    apply Z.leb_gt in Hg.
    destruct (Z.to_nat keep) as [|n] eqn:Hn; [lia|].
    replace keep with (Z.of_nat (S n)) by lia.
    destruct (lookup_lt_is_Some_2 (iter_commits it) n) as [anc Hanc];
      [unfold len in Hg; lia|].
    apply calm_not_Panicked.
    apply calm_bind; [|intros h; apply calm_publish].
    intros m1.
    rewrite (TrimOldCommits_rewrite_root _ _ _ _ _ Hanc) by lia.
    revert m1. apply calm_bind; [apply calm_synthesize|].
    intros h. apply calm_rebuild.
  - intros Hg. split.
    + intros Hin. destruct (decide (1 ≤ keep)); [done|].
      exfalso. apply Hidx; [lia|done].
    + intros Hk. rewrite int_sub_small by (unfold MinInt, MaxInt in *; lia).
      lia.
Qed.

(* ================================================================== *)
(** ** DeleteCommit and ModifyCommit past the prelude *)

Lemma DeleteCommit_opened w url key commitHash auth r headRef it m :
  opens w url key auth r headRef it →
  DeleteCommit w url key commitHash m =
  (let s := (ForEach it (DeleteCommit_cb (plumbing_NewHash w commitHash))
               ([], -1)).1 in
   if s.2 =? -1 then fail CommitNotFound
   else if len s.1 =? 1 then fail CannotDeleteSoleCommit
   else
     let! h := DeleteCommit_rewrite w s.1 s.2 in
     publish w auth (plumbing.Reference_Name headRef) h) (cloned r m).
Proof.
  intros Ho. unfold DeleteCommit.
  rewrite (bind_Ret _ _ _ _ _ (NewSSHAuth_opens _ _ _ _ _ _ _ m Ho)).
  rewrite (bind_Ret _ _ _ _ _
             (orWrap_Ret _ _ _ _ _ (CloneToMemory_opens _ _ _ _ _ _ _ m Ho))).
  rewrite (bind_Ret _ _ _ _ _
             (orWrap_Ret _ _ _ _ _ (Head_opens _ _ _ _ _ _ _ m Ho))).
  pose proof Ho as (_ & _ & _ & Hb & _). rewrite Hb. cbn [negb].
  by rewrite (bind_Ret _ _ _ _ _
                (orWrap_Ret _ _ _ _ _ (Log_opens _ _ _ _ _ _ _ m Ho))).
Qed.

Lemma ModifyCommit_opened w url key commitHash msg auth r headRef it m :
  opens w url key auth r headRef it →
  ModifyCommit w url key commitHash msg m =
  (let s := (ForEach it (ModifyCommit_cb (plumbing_NewHash w commitHash))
               ([], false)).1 in
   if negb s.2 then fail CommitNotFound
   else
     let! h := ModifyCommit_rewrite w s.1 (plumbing_NewHash w commitHash)
                 msg in
     publish w auth (plumbing.Reference_Name headRef) h) (cloned r m).
Proof.
  intros Ho. unfold ModifyCommit.
  rewrite (bind_Ret _ _ _ _ _ (NewSSHAuth_opens _ _ _ _ _ _ _ m Ho)).
  rewrite (bind_Ret _ _ _ _ _
             (orWrap_Ret _ _ _ _ _ (CloneToMemory_opens _ _ _ _ _ _ _ m Ho))).
  rewrite (bind_Ret _ _ _ _ _
             (orWrap_Ret _ _ _ _ _ (Head_opens _ _ _ _ _ _ _ m Ho))).
  pose proof Ho as (_ & _ & _ & Hb & _). rewrite Hb. cbn [negb].
  by rewrite (bind_Ret _ _ _ _ _
                (orWrap_Ret _ _ _ _ _ (Log_opens _ _ _ _ _ _ _ m Ho))).
Qed.

(** C6 (as amended) — On a chain of exactly one record [DeleteCommit]
    fails and leaves the clone as it is: with [CannotDeleteSoleCommit] when
    the target is the hash of that record, with [CommitNotFound] when it is
    not, the search for the target coming first. *)
Theorem DeleteCommit_sole_commit w url key commitHash auth r headRef it c m :
  opens w url key auth r headRef it →
  iter_commits it = [c] →
  DeleteCommit w url key commitHash m =
  (Err (if bool_decide (object.Hash c = plumbing_NewHash w commitHash)
        then CannotDeleteSoleCommit else CommitNotFound),
   cloned r m).
Proof.
  intros Ho Hc. rewrite (DeleteCommit_opened _ _ _ _ _ _ _ _ _ Ho).
  unfold ForEach. rewrite Hc. cbn [ForEach_loop DeleteCommit_cb].
  by case_bool_decide.
Qed.

(* ================================================================== *)
(** ** FetchCommits *)

Lemma opens_reads w url key auth r headRef it :
  opens w url key auth r headRef it → reads w url key auth r headRef it.
Proof. intros (? & ? & ? & ? & ?). by split_and!. Qed.

(** [make]: the lengths and capacities that pass the check of the run
    time, and those that do not. *)
Lemma makeslice_ok size len cap m :
  0 ≤ len ≤ cap → size * cap ≤ maxAlloc →
  makeslice size len cap m = (Ret tt, m).
Proof.
  intros Hlen Hmem. unfold makeslice.
  replace (cap <? 0) with false by lia.
  replace (maxAlloc <? size * cap) with false by lia.
  replace (len <? 0) with false by lia.
  by replace (cap <? len) with false by lia.
Qed.

Lemma makeslice_cap size cap m :
  cap < 0 ∨ maxAlloc < size * cap →
  makeslice size 0 cap m = (Panicked MakesliceCapOutOfRange, m).
Proof.
  intros Hcap. unfold makeslice. rewrite Z.mul_0_r.
  assert (Hout : (cap <? 0) || (maxAlloc <? size * cap) = true).
  { apply orb_true_iff. destruct Hcap; [left|right]; lia. }
  by rewrite Hout.
Qed.

Lemma makeslice_len n m :
  n < 0 ∨ maxAlloc < n →
  makeslice 1 n n m = (Panicked MakesliceLenOutOfRange, m).
Proof.
  intros Hn. unfold makeslice. rewrite Z.mul_1_l.
  assert (Hout : (n <? 0) || (maxAlloc <? n) = true).
  { apply orb_true_iff. destruct Hn; [left|right]; lia. }
  rewrite Hout. cbn [orb].
  by destruct ((n <? 0) || (maxAlloc <? n) || (n <? 0) || (n <? n)).
Qed.

Lemma make0_ok {A} size cap m :
  0 ≤ cap → size * cap ≤ maxAlloc → @make0 A size cap m = (Ret [], m).
Proof.
  intros Hcap Hmem. unfold make0.
  by rewrite (bind_Ret _ _ _ tt m) by (apply makeslice_ok; lia).
Qed.

Lemma make0_out {A} size cap m :
  cap < 0 ∨ maxAlloc < size * cap →
  @make0 A size cap m = (Panicked MakesliceCapOutOfRange, m).
Proof.
  intros Hcap. unfold make0.
  by rewrite (bind_Panicked _ _ _ MakesliceCapOutOfRange m)
    by (by apply makeslice_cap).
Qed.

Lemma makeBytes_ok n m :
  0 ≤ n ≤ maxAlloc →
  makeBytes n m = (Ret (replicate (Z.to_nat n) Ascii.zero), m).
Proof.
  intros Hn. unfold makeBytes.
  by rewrite (bind_Ret _ _ _ tt m) by (apply makeslice_ok; lia).
Qed.

Lemma makeBytes_out n m :
  n < 0 ∨ maxAlloc < n →
  makeBytes n m = (Panicked MakesliceLenOutOfRange, m).
Proof.
  intros Hn. unfold makeBytes.
  by rewrite (bind_Panicked _ _ _ MakesliceLenOutOfRange m)
    by (by apply makeslice_len).
Qed.

Lemma FetchCommits_read w url key max auth r ref it m :
  reads w url key auth r ref it →
  FetchCommits w url key max m =
  (let! results := make0 SimpleCommit_size max in
   let '((results, _), err) :=
     ForEach it (FetchCommits_cb w max) (results, 0) in
   match err with
   | Some e =>
       if bool_decide (e ≠ io_EOF) then fail (Wrap "iterate log" e)
       else ret results
   | None => ret results
   end) (cloned r m).
Proof.
  intros ((pk & Hpk & ->) & Hc & Hh & Hl). unfold FetchCommits.
  erewrite bind_Ret by (unfold NewSSHAuth; by rewrite Hpk).
  erewrite bind_Ret by (unfold CloneToMemory; by rewrite Hc).
  erewrite bind_Ret.
  2:{ apply orWrap_Ret. unfold Head, bind, getRepo. simpl. by rewrite Hh. }
  erewrite bind_Ret.
  2:{ apply orWrap_Ret. unfold Log, bind, getRepo. simpl. by rewrite Hl. }
  done.
Qed.

(** Without a bound every commit is taken. *)
Lemma ForEach_FetchCommits_all w max cs tail acc count :
  max ≤ 0 →
  ∃ count', ForEach_loop cs tail (FetchCommits_cb w max) (acc, count) =
            ((acc ++ map (simple w) cs, count'), tail).
Proof.
  intros Hmax. revert acc count.
  induction cs as [|c cs IH]; intros acc count.
  - exists count. simpl. by rewrite app_nil_r.
  - cbn [ForEach_loop FetchCommits_cb].
    replace (0 <? max) with false by lia. cbn [andb].
    destruct (IH (acc ++ [simple w c]) (int_add count 1)) as (count' & ->).
    exists count'. by rewrite <- app_assoc.
Qed.

(** With a bound the first [max - count] commits are taken, and the
    closure stops the iterator when there is one more. *)
Lemma ForEach_FetchCommits_bounded w max cs tail acc count :
  0 < max ≤ MaxInt → 0 ≤ count ≤ max →
  ∃ count', ForEach_loop cs tail (FetchCommits_cb w max) (acc, count) =
            ((acc ++ map (simple w) (take (Z.to_nat (max - count)) cs),
              count'),
             if bool_decide (Z.to_nat (max - count) < length cs)%nat
             then Some io_EOF else tail).
Proof.
  intros Hmax. revert acc count.
  induction cs as [|c cs IH]; intros acc count Hcount.
  - exists count. cbn [ForEach_loop]. rewrite take_nil, app_nil_r.
    by rewrite bool_decide_eq_false_2 by (simpl; lia).
  - cbn [ForEach_loop FetchCommits_cb].
    replace (0 <? max) with true by lia. cbn [andb].
    destruct (max <=? count) eqn:Hle.
    + exists count. replace (Z.to_nat (max - count)) with 0%nat by lia.
      rewrite take_0, app_nil_r.
      by rewrite bool_decide_eq_true_2 by (simpl; lia).
    + apply Z.leb_gt in Hle.
      assert (Hadd : int_add count 1 = count + 1).
      { apply wrap_id. unfold MinInt, MaxInt in *. lia. }
      rewrite Hadd.
      destruct (IH (acc ++ [simple w c]) (count + 1)) as (count' & ->);
        [lia|].
      exists count'.
      replace (Z.to_nat (max - count))
        with (S (Z.to_nat (max - (count + 1)))) by lia.
      cbn [take map length]. rewrite <- app_assoc.
      by rewrite (bool_decide_ext
                    (S (Z.to_nat (max - (count + 1))) < S (length cs))%nat
                    (Z.to_nat (max - (count + 1)) < length cs)%nat) by lia.
Qed.

(** C8 — Past its prelude, [FetchCommits] panics on a negative [max]: the
    slice of the results is made with capacity [max] before the log is
    walked.  It panics in the same way when [max] entries are more bytes
    than [make] may ask for.  With [max = 0] it returns every commit of the
    log, and with a [max > 0] that [make] accepts the first [max] of them,
    in the order of the log, which is newest first. *)
Theorem FetchCommits_bounds w url key max auth r ref it m :
  reads w url key auth r ref it →
  MinInt ≤ max ≤ MaxInt →
  (max < 0 →
     FetchCommits w url key max m =
     (Panicked MakesliceCapOutOfRange, cloned r m)) ∧
  (max = 0 → iter_err it = None →
     FetchCommits w url key max m =
     (Ret (map (simple w) (iter_commits it)), cloned r m)) ∧
  (0 < max → SimpleCommit_size * max ≤ maxAlloc →
     ((Z.to_nat max < length (iter_commits it))%nat ∨ iter_err it = None) →
     ∃ results,
       FetchCommits w url key max m = (Ret results, cloned r m) ∧
       results = map (simple w) (take (Z.to_nat max) (iter_commits it)) ∧
       len results ≤ max) ∧
  (maxAlloc < SimpleCommit_size * max →
     FetchCommits w url key max m =
     (Panicked MakesliceCapOutOfRange, cloned r m)).
Proof.
  intros Hr Hmax. rewrite (FetchCommits_read _ _ _ _ _ _ _ _ _ Hr).
  split_and!.
  - intros Hneg.
    by rewrite (bind_Panicked _ _ _ MakesliceCapOutOfRange (cloned r m))
      by (apply make0_out; by left).
  - intros -> Herr.
    rewrite (bind_Ret _ _ _ [] (cloned r m)) by (by apply make0_ok).
    unfold ForEach.
    destruct (ForEach_FetchCommits_all w 0 (iter_commits it) (iter_err it)
                [] 0) as (count' & ->); [done|].
    by rewrite Herr.
  - intros Hpos Hmem Hstop.
    rewrite (bind_Ret _ _ _ [] (cloned r m)) by (apply make0_ok; [lia|done]).
    unfold ForEach.
    destruct (ForEach_FetchCommits_bounded w max (iter_commits it)
                (iter_err it) [] 0) as (count' & ->); [lia..|].
    rewrite Z.sub_0_r. cbn [app].
    exists (map (simple w) (take (Z.to_nat max) (iter_commits it))).
    split_and!; [|done|].
    + case_bool_decide as Hlt; [done|].
      destruct Hstop as [Hs|Hs]; [done|]. by rewrite Hs.
    + unfold len. rewrite length_map, length_take. lia.
  - intros Hbig.
    by rewrite (bind_Panicked _ _ _ MakesliceCapOutOfRange (cloned r m))
      by (apply make0_out; by right).
Qed.

(* ================================================================== *)
(** ** A rewrite block followed by the publication *)

Lemma rechains_reliable w msgOf trees k ps olds :
  reliable w → Forall (λ c, object.TreeHash c ∈ trees) olds →
  rechains w msgOf trees k ps olds.
Proof.
  intros (He & Hs & _) Ht. revert k ps.
  induction Ht as [|old rest Hold Hrest IH]; intros k ps; [done|].
  cbn [rechains]. by split_and!.
Qed.

Lemma stored_republished w msgOf auth refName olds m :
  stored (trace (republished w msgOf auth refName olds m)) =
  stored (trace m) ++ rechain w msgOf (clock m) [] olds.
Proof.
  unfold republished, pushed, withRef. cbn [trace].
  rewrite !stored_app, storeAll_stored by apply rechain_canonical.
  cbn [stored]. by rewrite !app_nil_r.
Qed.

Lemma Refs_republished w msgOf auth refName olds m :
  Refs (repo (republished w msgOf auth refName olds m)) =
  <[refName := tipOf plumbing.ZeroHash (rechain w msgOf (clock m) [] olds)]>
    (Refs (repo m)).
Proof.
  unfold republished, pushed, withRef. cbn [repo Refs].
  cbn [plumbing.Reference_Name plumbing.Reference_Hash].
  by destruct (storeAll_repo (rechain w msgOf (clock m) [] olds) m) as [-> _].
Qed.

Lemma Objects_republished w msgOf auth refName olds m :
  Objects (repo (republished w msgOf auth refName olds m)) =
  Objects (repo (storeAll (rechain w msgOf (clock m) [] olds) m)).
Proof. done. Qed.

Section Published.
Variable w : World.
Variable msgOf : object.Commit → string.
Variable olds : list object.Commit.
Variable block : M plumbing.Hash.

Hypothesis block_rechain : ∀ m,
  rechains w msgOf (Trees (repo m)) (clock m) [] olds →
  block m =
  (Ret (tipOf plumbing.ZeroHash (rechain w msgOf (clock m) [] olds)),
   storeAll (rechain w msgOf (clock m) [] olds) m).
Hypothesis block_Ret_inv : ∀ m h m',
  block m = (Ret h, m') →
  rechains w msgOf (Trees (repo m)) (clock m) [] olds.

(** In a reliable world the block and the publication go through. *)
Lemma published_reliable auth refName m :
  reliable w →
  Forall (λ c, object.TreeHash c ∈ Trees (repo m)) olds →
  (let! h := block in publish w auth refName h) m =
  (Ret tt, republished w msgOf auth refName olds m).
Proof.
  intros Hw Ht. pose proof Hw as (_ & _ & Hr & Hp).
  erewrite bind_Ret by (by apply block_rechain, rechains_reliable).
  rewrite publish_run. cbv zeta. by rewrite Hr, Hp.
Qed.

(** A run that succeeded is the run of a world where nothing failed. *)
Lemma published_Ret_inv auth refName m m' :
  (let! h := block in publish w auth refName h) m = (Ret tt, m') →
  m' = republished w msgOf auth refName olds m.
Proof.
  intros H. apply bind_Ret_inv in H as (h & m1 & Hb & Hp).
  pose proof (block_Ret_inv _ _ _ Hb) as Hrs.
  rewrite (block_rechain _ Hrs) in Hb. inversion Hb; subst h m1. clear Hb.
  rewrite publish_run in Hp. cbv zeta in Hp.
  destruct (SetReference_err w _); [discriminate|].
  destruct (Repository_Push w _ _); [discriminate|].
  by inversion Hp.
Qed.
End Published.

(** When an encode or a persist step of the block fails, the run ends in an
    error there: the references are those before the block, and nothing was
    published. *)
Lemma published_failure w (block : M plumbing.Hash) auth refName m res m' evs :
  quiet block →
  (let! h := block in publish w auth refName h) m = (res, m') →
  trace m' = trace m ++ evs →
  Exists (λ e, isStoreFailure e = true) evs →
  failed res = true ∧
  Refs (repo m') = Refs (repo m) ∧
  HEAD (repo m') = HEAD (repo m) ∧
  Forall (λ e, isPublication e = false) evs.
Proof.
  intros Hq Hrun Htr Hex. unfold bind in Hrun.
  destruct (block m) as [[h|e|p] m1] eqn:Hb;
    destruct (Hq _ _ _ Hb) as (HR & HH & evs1 & Ht1 & Hp1 & Hf1).
  - exfalso. rewrite publish_run in Hrun. cbv zeta in Hrun.
    assert (Hno : Forall (λ e, isStoreFailure e = false) evs).
    { specialize (Hf1 eq_refl).
      destruct (SetReference_err w _).
      - inversion Hrun; subst. rewrite Ht1 in Htr.
        apply app_inv_head in Htr. by subst.
      - destruct (Repository_Push w _ _); inversion Hrun; subst;
          cbn [pushed withRef trace] in Htr; rewrite Ht1 in Htr;
          rewrite <- !app_assoc in Htr; apply app_inv_head in Htr; subst;
          (apply Forall_app; split; [done|by repeat constructor]). }
    apply Exists_exists in Hex as (ev & Hin & Hev).
    rewrite Forall_forall in Hno. specialize (Hno _ Hin). congruence.
  - inversion Hrun; subst. rewrite Ht1 in Htr. apply app_inv_head in Htr.
    subst. by split_and!.
  - exfalso. inversion Hrun; subst. rewrite Ht1 in Htr.
    apply app_inv_head in Htr. subst. specialize (Hf1 eq_refl).
    apply Exists_exists in Hex as (ev & Hin & Hev).
    rewrite Forall_forall in Hf1. specialize (Hf1 _ Hin). congruence.
Qed.

(* ================================================================== *)
(** ** The three rewrites past their guards *)

Lemma DeleteCommit_scan target it :
  ∃ ti, (ForEach it (DeleteCommit_cb target) ([], -1)).1
          = (iter_commits it, ti) ∧
        ((ti = -1 ∧ Forall (λ c, object.Hash c ≠ target) (iter_commits it)) ∨
         (∃ (t : nat) d, ti = Z.of_nat t ∧ iter_commits it !! t = Some d ∧
            object.Hash d = target ∧
            Forall (λ c, object.Hash c ≠ target)
              (drop (S t) (iter_commits it)))).
Proof.
  unfold ForEach.
  destruct (ForEach_DeleteCommit_cb target (iter_commits it) (iter_err it)
              [] (-1)) as (ti & -> & H).
  exists ti. split; [done|].
  destruct H as [H|(j & d & -> & H)]; [by left|right].
  exists j, d. split; [unfold len; simpl; lia|done].
Qed.

Lemma ModifyCommit_scan target it :
  (ForEach it (ModifyCommit_cb target) ([], false)).1 =
  (iter_commits it,
   bool_decide (Exists (λ c, object.Hash c = target) (iter_commits it))).
Proof. unfold ForEach. by rewrite ForEach_ModifyCommit_cb. Qed.

Lemma index_nonpositive_keep {A} (s : list A) keep :
  MinInt ≤ keep ≤ 0 → len s ≤ MaxInt → ¬ (0 ≤ int_sub keep 1 < len s).
Proof.
  intros Hk Hlen. destruct (decide (keep = MinInt)) as [->|Hne].
  - unfold int_sub. rewrite wrap_MinInt_pred. lia.
  - rewrite int_sub_small by (unfold MinInt, MaxInt in *; lia). lia.
Qed.

Section Guards.
Variable w : World.
Variables (url key : string) (auth : PublicKeys) (r : Repository).
Variables (headRef : plumbing.Reference) (it : CommitIter).
Hypothesis Ho : opens w url key auth r headRef it.
Hypothesis Hlen : len (iter_commits it) ≤ MaxInt.

Let commits := iter_commits it.
Let refName := plumbing.Reference_Name headRef.

(** [TrimOldCommits] with [1 ≤ keep < len(commits)]. *)
Lemma TrimOldCommits_block (n : nat) m :
  (S n < length commits)%nat →
  TrimOldCommits w url key (Z.of_nat (S n)) m =
  (let! h := TrimOldCommits_rewrite w commits (Z.of_nat (S n)) in
   publish w auth refName h) (cloned r m).
Proof.
  intros Hn. rewrite (TrimOldCommits_opened _ _ _ _ _ _ _ _ _ Ho).
  fold commits.
  assert (Hg : (len commits <=? Z.of_nat (S n)) = false).
  { apply Z.leb_gt. unfold len. lia. }
  by rewrite Hg.
Qed.

(** [DeleteCommit]: either no commit has the target hash, or the last
    one that has it is at [t]. *)
Lemma DeleteCommit_block commitHash m :
  let target := plumbing_NewHash w commitHash in
  (Forall (λ c, object.Hash c ≠ target) commits ∧
   DeleteCommit w url key commitHash m = (Err CommitNotFound, cloned r m)) ∨
  (∃ (t : nat) d,
     commits !! t = Some d ∧ object.Hash d = target ∧
     Forall (λ c, object.Hash c ≠ target) (drop (S t) commits) ∧
     DeleteCommit w url key commitHash m =
     (if len commits =? 1 then fail CannotDeleteSoleCommit
      else
        let! h := rebuild w object.Message (treeTextOf w) []
                    plumbing.ZeroHash (reverse (delete t commits)) in
        publish w auth refName h) (cloned r m)).
Proof.
  cbv zeta. rewrite (DeleteCommit_opened _ _ _ _ _ _ _ _ _ Ho). cbv zeta.
  set (target := plumbing_NewHash w commitHash).
  destruct (DeleteCommit_scan target it)
    as (ti & -> & [[-> Hall]|(t & d & -> & Ht & Hd & Hall)]).
  - left. by split.
  - right. exists t, d. split_and!; [done..|]. cbn [fst snd].
    assert (Hne : (Z.of_nat t =? -1) = false) by (apply Z.eqb_neq; lia).
    rewrite Hne. fold commits.
    destruct (len commits =? 1); [done|].
    apply bind_ext_l. intros m1.
    by apply DeleteCommit_rewrite_rebuild.
Qed.

(** [ModifyCommit]: either no commit has the target hash, or all the
    commits are rebuilt. *)
Lemma ModifyCommit_block commitHash msg m :
  let target := plumbing_NewHash w commitHash in
  ModifyCommit w url key commitHash msg m =
  (if bool_decide (Exists (λ c, object.Hash c = target) commits)
   then
     let! h := rebuild w (amend target msg) (treeTextOf w) []
                 plumbing.ZeroHash (reverse commits) in
     publish w auth refName h
   else fail CommitNotFound) (cloned r m).
Proof.
  cbv zeta. rewrite (ModifyCommit_opened _ _ _ _ _ _ _ _ _ _ Ho). cbv zeta.
  set (target := plumbing_NewHash w commitHash).
  rewrite ModifyCommit_scan. cbn [fst snd]. fold commits.
  destruct (bool_decide (Exists _ commits)); [|done]. cbn [negb].
  apply bind_ext_l. intros m1.
  by apply ModifyCommit_rewrite_rebuild.
Qed.
End Guards.

(* ================================================================== *)
(** ** The chain a rewrite leaves behind *)

Lemma Forall2_rewrites_fmap w msgOf olds news :
  Forall2 (rewrites w msgOf) olds news →
  object.TreeHash <$> news = object.TreeHash <$> olds ∧
  object.Author <$> news = (λ c, written (object.Author c)) <$> olds ∧
  object.Message <$> news = msgOf <$> olds ∧
  Forall (addressed w) news.
Proof.
  induction 1 as [|old new olds news (Ht & Ha & Hm & _ & Hh) _ IH].
  - split_and!; [done..|constructor].
  - destruct IH as (IHt & IHa & IHm & IHh). cbn [fmap list_fmap].
    rewrite Ht, Ha, Hm. split_and!; [by f_equal..|by constructor].
Qed.

Lemma Forall2_reverse {A B} (P : A → B → Prop) l k :
  Forall2 P l k → Forall2 P (reverse l) (reverse k).
Proof.
  induction 1 as [|x y l k Hxy _ IH]; [constructor|].
  rewrite !reverse_cons. apply Forall2_app; [done|by repeat constructor].
Qed.

Lemma tipOf_last h news tip :
  last news = Some tip → tipOf h news = object.Hash tip.
Proof. intros H. unfold tipOf. by rewrite H. Qed.

Lemma republished_chain w msgOf auth refName olds m :
  olds ≠ [] →
  ∃ chain,
    stored (trace (republished w msgOf auth refName olds m)) =
      stored (trace m) ++ reverse chain ∧
    length chain = length olds ∧
    Forall2 (rewrites w msgOf) (reverse olds) chain ∧
    linkedDown chain ∧
    (∃ root, last chain = Some root ∧ object.ParentHashes root = []) ∧
    (∃ tip, head chain = Some tip ∧
       Refs (repo (republished w msgOf auth refName olds m)) =
       <[refName := object.Hash tip]> (Refs (repo m))) ∧
    ((∀ a b, Hash_of w a = Hash_of w b → a = b) →
     ∀ fuel, (length olds ≤ fuel)%nat →
       ∃ tip, head chain = Some tip ∧
         ancestry fuel
           (Objects (repo (republished w msgOf auth refName olds m)))
           (object.Hash tip) = chain).
Proof.
  intros Hne. set (news := rechain w msgOf (clock m) [] olds).
  assert (Hlen : length news = length olds) by apply rechain_length.
  assert (Hrw : Forall2 (rewrites w msgOf) olds news)
    by apply rechain_rewrites.
  assert (Hlk : linkedDown (reverse news))
    by apply linkedDown_reverse, rechain_linkedFrom.
  destruct (reverse news) as [|tip rest] eqn:Hchain.
  { apply (f_equal length) in Hchain. rewrite length_reverse, Hlen in Hchain.
    by destruct olds. }
  assert (Hlast : last news = Some tip).
  { by rewrite <- head_reverse, Hchain. }
  exists (tip :: rest). split_and!.
  - by rewrite <- Hchain, reverse_involutive, stored_republished.
  - by rewrite <- Hchain, length_reverse.
  - rewrite <- Hchain. by apply Forall2_reverse.
  - done.
  - destruct (last (tip :: rest)) as [root|] eqn:Hroot.
    + exists root. split; [done|]. by apply (linkedDown_last (tip :: rest)).
    + by apply last_None in Hroot.
  - exists tip. split; [done|].
    by rewrite Refs_republished, (tipOf_last _ _ _ Hlast).
  - intros Hcf fuel Hfuel. exists tip. split; [done|].
    apply (ancestry_linkedDown _ _ tip rest); [done|done| | |].
    + rewrite <- Hchain. apply Forall_reverse, rechain_canonical.
    + rewrite Objects_republished, <- Hchain. rewrite Forall_forall.
      intros c Hc. apply (storeAll_holds w Hcf).
      * by apply (Forall2_rewrites_fmap w msgOf olds).
      * by apply elem_of_reverse.
    + rewrite <- Hchain, length_reverse. lia.
Qed.

(* ================================================================== *)
(** ** TrimOldCommits *)

(** C1 (as amended) — For a chain of length [L] and [1 ≤ keep ≤ L], in a
    world where nothing fails, [TrimOldCommits] succeeds.  When [keep < L]
    it stores a new chain of exactly [keep] records, which, tip to root, has
    the messages and the tree hashes of the [keep] newest records of the
    original chain; the chain is linked, its root has no parent, the branch
    is moved to its tip, and with a collision-free hash the storage read
    back from the tip gives that chain.  When [keep = L] nothing is written
    and the chain is left as it is. *)
Theorem TrimOldCommits_keeps_newest w url key keep auth r headRef it m :
  opens w url key auth r headRef it →
  1 ≤ keep ≤ len (iter_commits it) →
  len (iter_commits it) ≤ MaxInt →
  Forall (λ c, object.TreeHash c ∈ Trees r)
    (take (Z.to_nat keep) (iter_commits it)) →
  reliable w →
  ∃ m',
    TrimOldCommits w url key keep m = (Ret tt, m') ∧
    (keep = len (iter_commits it) → m' = cloned r m) ∧
    (keep < len (iter_commits it) →
     ∃ chain,
       stored (trace m') = stored (trace m) ++ reverse chain ∧
       len chain = keep ∧
       object.Message <$> chain =
         object.Message <$> take (Z.to_nat keep) (iter_commits it) ∧
       object.TreeHash <$> chain =
         object.TreeHash <$> take (Z.to_nat keep) (iter_commits it) ∧
       linkedDown chain ∧
       (∃ root, last chain = Some root ∧ object.ParentHashes root = []) ∧
       (∃ tip, head chain = Some tip ∧
          Refs (repo m') =
          <[plumbing.Reference_Name headRef := object.Hash tip]> (Refs r)) ∧
       ((∀ a b, Hash_of w a = Hash_of w b → a = b) →
        ∀ fuel, (Z.to_nat keep ≤ fuel)%nat →
          ∃ tip, head chain = Some tip ∧
            ancestry fuel (Objects (repo m')) (object.Hash tip) = chain)).
Proof.
  intros Ho Hkeep Hlen Htrees Hw.
  destruct (decide (keep = len (iter_commits it))) as [->|Hlt].
  { exists (cloned r m). split_and!; [|done|lia].
    rewrite (TrimOldCommits_opened _ _ _ _ _ _ _ _ _ Ho).
    by rewrite Z.leb_refl. }
  destruct (Z.to_nat keep) as [|n] eqn:Hn; [lia|].
  assert (Hkeep' : keep = Z.of_nat (S n)) by lia. subst keep.
  assert (Hn' : (S n < length (iter_commits it))%nat)
    by (unfold len in *; lia).
  set (olds := reverse (take (S n) (iter_commits it))).
  exists (republished w object.Message auth
            (plumbing.Reference_Name headRef) olds (cloned r m)).
  split_and!.
  - rewrite (TrimOldCommits_block _ _ _ _ _ _ _ Ho) by done.
    apply (published_reliable w object.Message olds); [|done|].
    + intros m1. apply TrimOldCommits_rewrite_rechain; [lia|done].
    + by apply Forall_reverse.
  - intros Heq. unfold len in Heq. lia.
  - intros _.
    assert (Holds : length olds = S n).
    { unfold olds. rewrite length_reverse, length_take. lia. }
    destruct (republished_chain w object.Message auth
                (plumbing.Reference_Name headRef) olds (cloned r m))
      as (chain & Hst & Hl & Hrw & Hlk & Hroot & Htip & Hback).
    { intros E. by rewrite E in Holds. }
    unfold olds in Hrw. rewrite reverse_involutive in Hrw.
    destruct (Forall2_rewrites_fmap _ _ _ _ Hrw) as (Ht & _ & Hm & _).
    exists chain. split_and!; [done| |done..| ].
    + unfold len. lia.
    + intros Hcf fuel Hfuel. apply Hback; [done|lia].
Qed.

(* ================================================================== *)
(** ** DeleteCommit *)

(** C2 — For a chain of length [L > 1] and a target hash that occurs in
    it, in a world where nothing fails, [DeleteCommit] succeeds and stores a
    new chain of [L - 1] records: tip to root it has the messages and the
    tree hashes of the original chain without the deleted record, in the
    same order; it is linked, so that the record that followed the deleted
    one has the record that preceded it as its parent; its root has no
    parent, the branch is moved to its tip, and with a collision-free hash
    the storage read back from the tip gives that chain. *)
Theorem DeleteCommit_drops_target w url key commitHash auth r headRef it m :
  opens w url key auth r headRef it →
  1 < len (iter_commits it) ≤ MaxInt →
  plumbing_NewHash w commitHash ∈ (object.Hash <$> iter_commits it) →
  Forall (λ c, object.TreeHash c ∈ Trees r) (iter_commits it) →
  reliable w →
  ∃ m' (t : nat) d chain,
    DeleteCommit w url key commitHash m = (Ret tt, m') ∧
    iter_commits it !! t = Some d ∧
    object.Hash d = plumbing_NewHash w commitHash ∧
    stored (trace m') = stored (trace m) ++ reverse chain ∧
    len chain = len (iter_commits it) - 1 ∧
    object.Message <$> chain =
      object.Message <$> delete t (iter_commits it) ∧
    object.TreeHash <$> chain =
      object.TreeHash <$> delete t (iter_commits it) ∧
    linkedDown chain ∧
    (∀ t' f p, t = S t' →
       iter_commits it !! t' = Some f → iter_commits it !! S t = Some p →
       ∃ f' p', chain !! t' = Some f' ∧ chain !! t = Some p' ∧
         object.Message f' = object.Message f ∧
         object.TreeHash f' = object.TreeHash f ∧
         object.Message p' = object.Message p ∧
         object.TreeHash p' = object.TreeHash p ∧
         object.ParentHashes f' = [object.Hash p']) ∧
    (∃ root, last chain = Some root ∧ object.ParentHashes root = []) ∧
    (∃ tip, head chain = Some tip ∧
       Refs (repo m') =
       <[plumbing.Reference_Name headRef := object.Hash tip]> (Refs r)) ∧
    ((∀ a b, Hash_of w a = Hash_of w b → a = b) →
     ∀ fuel, (length (iter_commits it) - 1 ≤ fuel)%nat →
       ∃ tip, head chain = Some tip ∧
         ancestry fuel (Objects (repo m')) (object.Hash tip) = chain).
Proof.
  intros Ho [Hlen1 Hlen] Hin Htrees Hw.
  destruct (DeleteCommit_block w url key auth r headRef it Ho Hlen commitHash m)
    as [[Hall _]|(t & d & Ht & Hd & _ & Hrun)].
  { exfalso. apply list_elem_of_fmap in Hin as (c & Hc & Hcin).
    rewrite Forall_forall in Hall. by apply (Hall c). }
  assert (Hne1 : (len (iter_commits it) =? 1) = false)
    by (apply Z.eqb_neq; lia).
  rewrite Hne1 in Hrun. clear Hne1.
  set (olds := reverse (delete t (iter_commits it))) in *.
  assert (Hdel : length (delete t (iter_commits it)) =
                 (length (iter_commits it) - 1)%nat).
  { apply length_delete. by exists d. }
  assert (Holds : length olds = (length (iter_commits it) - 1)%nat).
  { unfold olds. by rewrite length_reverse. }
  exists (republished w object.Message auth
            (plumbing.Reference_Name headRef) olds (cloned r m)), t, d.
  destruct (republished_chain w object.Message auth
              (plumbing.Reference_Name headRef) olds (cloned r m))
    as (chain & Hst & Hl & Hrw & Hlk & Hroot & Htip & Hback).
  { intros E. rewrite E in Holds. unfold len in Hlen1. simpl in Holds. lia. }
  unfold olds in Hrw. rewrite reverse_involutive in Hrw.
  destruct (Forall2_rewrites_fmap _ _ _ _ Hrw) as (Hts & _ & Hms & _).
  exists chain. split_and!.
  - rewrite Hrun.
    apply (published_reliable w object.Message olds); [|done|].
    + intros m1. apply rebuild_rechain.
    + unfold olds. by apply Forall_reverse, Forall_delete.
  - done.
  - done.
  - done.
  - unfold len in *. lia.
  - done.
  - done.
  - done.
  - intros t' f p -> Hf Hp.
    assert (Hf' : delete (S t') (iter_commits it) !! t' = Some f).
    { by rewrite list_lookup_delete_lt by lia. }
    assert (Hp' : delete (S t') (iter_commits it) !! S t' = Some p).
    { by rewrite list_lookup_delete_ge by lia. }
    destruct (Forall2_lookup_l _ _ _ _ _ Hrw Hf') as (f' & Hcf & Rf).
    destruct (Forall2_lookup_l _ _ _ _ _ Hrw Hp') as (p' & Hcp & Rp).
    exists f', p'.
    destruct Rf as (Rft & _ & Rfm & _), Rp as (Rpt & _ & Rpm & _).
    split_and!; [done..|].
    by apply (linkedDown_lookup chain t').
  - done.
  - done.
  - intros Hcf fuel Hfuel. apply Hback; [done|lia].
Qed.

(* ================================================================== *)
(** ** ModifyCommit *)

(** C3 (as amended) — For a chain and a target hash that occurs in it, in
    a world where nothing fails, [ModifyCommit] succeeds and stores a new
    chain of the same length with, record by record, the tree hash of the
    original and its author as the encoder writes it (name and e-mail, and
    the time in whole seconds, 0 when it lies before 1970); the message is
    the new one on the records whose hash is the target and the original
    one elsewhere.  Every record, below the target as well as above, is
    encoded anew with the committer of the package and the second of the
    rewrite, and has the id of that encoding.  With a collision-free hash
    and originals stored under the id of their encoding: a new hash differs
    from the original one wherever the new committer is not the original
    one as written (which says nothing of an original the package committed
    within the same second); and when the new message differs from the
    target's and the originals are linked, all hashes from the target to the
    tip differ from the originals. *)
Theorem ModifyCommit_amends w url key commitHash newMsg auth r headRef it m :
  opens w url key auth r headRef it →
  len (iter_commits it) ≤ MaxInt →
  plumbing_NewHash w commitHash ∈ (object.Hash <$> iter_commits it) →
  Forall (λ c, object.TreeHash c ∈ Trees r) (iter_commits it) →
  reliable w →
  ∃ m' chain,
    ModifyCommit w url key commitHash newMsg m = (Ret tt, m') ∧
    stored (trace m') = stored (trace m) ++ reverse chain ∧
    length chain = length (iter_commits it) ∧
    object.TreeHash <$> chain = object.TreeHash <$> iter_commits it ∧
    object.Author <$> chain =
      (λ c, written (object.Author c)) <$> iter_commits it ∧
    object.Message <$> chain =
      amend (plumbing_NewHash w commitHash) newMsg <$> iter_commits it ∧
    Forall (λ c', (∃ k, object.Committer c' =
                        written (committerAt (time_Now w k))) ∧
                  object.Hash c' = Hash_of w (encoding c')) chain ∧
    linkedDown chain ∧
    (∃ tip, head chain = Some tip ∧
       Refs (repo m') =
       <[plumbing.Reference_Name headRef := object.Hash tip]> (Refs r)) ∧
    ((∀ a b, Hash_of w a = Hash_of w b → a = b) →
     Forall (addressed w) (iter_commits it) →
     (∀ j c c', iter_commits it !! j = Some c → chain !! j = Some c' →
        object.Committer c' ≠ written (object.Committer c) →
        object.Hash c' ≠ object.Hash c) ∧
     ((∀ j c p, iter_commits it !! j = Some c →
                iter_commits it !! S j = Some p →
                object.ParentHashes c = [object.Hash p]) →
      ∀ jt ct, iter_commits it !! jt = Some ct →
        object.Hash ct = plumbing_NewHash w commitHash →
        object.Message ct ≠ newMsg →
        ∀ j c c', (j ≤ jt)%nat →
          iter_commits it !! j = Some c → chain !! j = Some c' →
          object.Hash c' ≠ object.Hash c)).
Proof.
  intros Ho Hlen Hin Htrees Hw.
  set (target := plumbing_NewHash w commitHash) in *.
  pose proof (ModifyCommit_block w url key auth r headRef it Ho Hlen
                commitHash newMsg m) as Hrun.
  cbv zeta in Hrun. fold target in Hrun.
  rewrite bool_decide_eq_true_2 in Hrun.
  2:{ apply list_elem_of_fmap in Hin as (c & Hc & Hcin).
      apply Exists_exists. by exists c. }
  set (olds := reverse (iter_commits it)) in *.
  assert (Hne : olds ≠ []).
  { intros E. apply (f_equal length) in E. unfold olds in E.
    rewrite length_reverse in E.
    apply list_elem_of_fmap in Hin as (c & _ & Hcin).
    destruct (iter_commits it); [by apply elem_of_nil in Hcin|done]. }
  exists (republished w (amend target newMsg) auth
            (plumbing.Reference_Name headRef) olds (cloned r m)).
  destruct (republished_chain w (amend target newMsg) auth
              (plumbing.Reference_Name headRef) olds (cloned r m) Hne)
    as (chain & Hst & Hl & Hrw & Hlk & Hroot & Htip & Hback).
  unfold olds in Hrw, Hl. rewrite reverse_involutive in Hrw.
  rewrite length_reverse in Hl.
  destruct (Forall2_rewrites_fmap _ _ _ _ Hrw) as (Hts & Has & Hms & Had).
  assert (Hnew : ∀ j c c', iter_commits it !! j = Some c →
                   chain !! j = Some c' →
                   rewrites w (amend target newMsg) c c').
  { intros j c c' Hc Hc'.
    destruct (Forall2_lookup_l _ _ _ _ _ Hrw Hc) as (c'' & Hc'' & R).
    congruence. }
  exists chain. split_and!; [|done..| |done|done|].
  - rewrite Hrun.
    apply (published_reliable w (amend target newMsg) olds); [|done|].
    + intros m1. apply rebuild_rechain.
    + unfold olds. by apply Forall_reverse.
  - apply Forall_forall. intros c' Hc'.
    apply list_elem_of_lookup in Hc' as (j & Hj).
    destruct (Forall2_lookup_r _ _ _ _ _ Hrw Hj) as (c & Hc & R).
    by destruct R as (_ & _ & _ & Hk & Hh).
  - intros Hcf Hadd.
    assert (Henc : ∀ j c c', iter_commits it !! j = Some c →
                     chain !! j = Some c' →
                     object.Hash c' = object.Hash c →
                     encoding c' = encoding c).
    { intros j c c' Hc Hc' Heq. apply Hcf.
      destruct (Hnew _ _ _ Hc Hc') as (_ & _ & _ & _ & <-).
      rewrite Forall_forall in Hadd. rewrite Heq. apply Hadd.
      apply list_elem_of_lookup. by exists j. }
    split.
    + intros j c c' Hc Hc' Hcom Heq. apply Hcom.
      destruct (Hnew _ _ _ Hc Hc') as (_ & _ & _ & (k & Hk) & _).
      pose proof (f_equal enc_Committer (Henc _ _ _ Hc Hc' Heq)) as Hw'.
      cbn [encoding enc_Committer] in Hw'.
      rewrite Hk in Hw' |- *. by rewrite written_written in Hw'.
    + intros Hlinked jt ct Hct Htarget Hmsg j c c' Hj.
      remember (jt - j)%nat as dist eqn:Hd. revert j c c' Hj Hd.
      induction dist as [|dist IH]; intros j c c' Hj Hd Hc Hc' Heq.
      * assert (j = jt) by lia. subst j.
        rewrite Hct in Hc. inversion Hc; subst c.
        destruct (Hnew _ _ _ Hct Hc') as (_ & _ & Hm & _).
        unfold amend in Hm. rewrite bool_decide_eq_true_2 in Hm by done.
        apply Hmsg. rewrite <- Hm. symmetry.
        exact (f_equal enc_Message (Henc _ _ _ Hct Hc' Heq)).
      * destruct (lookup_lt_is_Some_2 (iter_commits it) (S j)) as [p Hp].
        { pose proof (lookup_lt_Some _ _ _ Hct). lia. }
        destruct (Forall2_lookup_l _ _ _ _ _ Hrw Hp) as (p' & Hp' & _).
        apply (IH (S j) p p'); [lia|lia|done..|].
        pose proof (f_equal enc_ParentHashes (Henc _ _ _ Hc Hc' Heq)) as Hps.
        cbn [encoding enc_ParentHashes] in Hps.
        rewrite (Hlinked _ _ _ Hc Hp) in Hps.
        rewrite (linkedDown_lookup chain j c' p' Hlk Hc' Hp') in Hps.
        by inversion Hps.
Qed.

(* ================================================================== *)
(** ** The invariants of a rewrite *)


Lemma rewrites_fresh w msgOf commits olds news :
  Forall2 (rewrites w msgOf) olds news → fresh w commits news.
Proof.
  intros Hrw Hcf Hadd Hcom new orig Hnew Horig Heq.
  apply list_elem_of_lookup in Hnew as (j & Hj).
  destruct (Forall2_lookup_r _ _ _ _ _ Hrw Hj)
    as (old & _ & _ & _ & _ & (k & Hk) & Hh).
  apply (Hcom orig k Horig).
  rewrite Forall_forall in Hadd. specialize (Hadd _ Horig).
  unfold addressed in Hadd. rewrite Hh, Hadd in Heq.
  pose proof (f_equal enc_Committer (Hcf _ _ Heq)) as Hw'.
  cbn [encoding enc_Committer] in Hw'.
  rewrite Hk, written_written in Hw'. by symmetry.
Qed.


(** The prelude either goes through, or the operation returns its error
    and records nothing. *)
Ltac prelude w url key :=
  unfold NewSSHAuth, CloneToMemory, Head, Log, bind, orWrap, getRepo,
    setRepo, fail, ret;
  destruct (ssh_NewPublicKeys w "git" key "") as [e|pk] eqn:Hpk;
    [right; by eexists _, _|];
  destruct (git_Clone w url _) as [e|r] eqn:Hc;
    [right; by eexists _, _|];
  cbn [repo];
  destruct (resolveHead r) as [e|headRef] eqn:Hh;
    [right; by eexists _, _|];
  destruct (plumbing.IsBranch (plumbing.Reference_Name headRef)) eqn:Hb;
    [|right; by eexists _, _];
  cbn [negb repo];
  destruct (Repository_Log w r (plumbing.Reference_Hash headRef))
    as [e|it] eqn:Hl;
    [right; by eexists _, _|];
  left; eexists _, r, headRef, it; split_and!; [by eexists|done..].

Lemma TrimOldCommits_prelude w url key keep m :
  (∃ auth r headRef it, opens w url key auth r headRef it) ∨
  (∃ e m', TrimOldCommits w url key keep m = (Err e, m') ∧
           trace m' = trace m).
Proof. unfold TrimOldCommits. prelude w url key. Qed.

Lemma DeleteCommit_prelude w url key commitHash m :
  (∃ auth r headRef it, opens w url key auth r headRef it) ∨
  (∃ e m', DeleteCommit w url key commitHash m = (Err e, m') ∧
           trace m' = trace m).
Proof. unfold DeleteCommit. prelude w url key. Qed.

Lemma ModifyCommit_prelude w url key commitHash msg m :
  (∃ auth r headRef it, opens w url key auth r headRef it) ∨
  (∃ e m', ModifyCommit w url key commitHash msg m = (Err e, m') ∧
           trace m' = trace m).
Proof. unfold ModifyCommit. prelude w url key. Qed.

(** Past the prelude, a failed encode or persist step ends the run in an
    error, with the references of the clone and nothing published. *)
Lemma rewrite_failure_opened w url key keep commitHash newMsg
    auth r headRef it (op : M unit) m res m' evs :
  opens w url key auth r headRef it →
  op ∈ [TrimOldCommits w url key keep;
        DeleteCommit w url key commitHash;
        ModifyCommit w url key commitHash newMsg] →
  op m = (res, m') →
  trace m' = trace m ++ evs →
  Exists (λ e, isStoreFailure e = true) evs →
  failed res = true ∧
  Refs (repo m') = Refs r ∧
  HEAD (repo m') = HEAD r ∧
  Forall (λ e, isPublication e = false) evs.
Proof.
  intros Ho Hop Hrun Htr Hex.
  assert (Hnone : ∀ res0, (res0, cloned r m) = (res, m') → False).
  { intros res0 E. inversion E; subst. cbn [cloned trace] in Htr.
    rewrite <- (app_nil_r (trace m)) in Htr at 1.
    apply app_inv_head in Htr. subst evs. by apply Exists_nil in Hex. }
  repeat (apply elem_of_cons in Hop as [->|Hop]);
    [| | |by apply elem_of_nil in Hop].
  - rewrite (TrimOldCommits_opened _ _ _ _ _ _ _ _ _ Ho) in Hrun.
    destruct (len (iter_commits it) <=? keep);
      [by destruct (Hnone _ Hrun)|].
    apply (published_failure w
             (TrimOldCommits_rewrite w (iter_commits it) keep) auth
             (plumbing.Reference_Name headRef) (cloned r m) res m' evs);
      [apply quiet_TrimOldCommits_rewrite|done..].
  - rewrite (DeleteCommit_opened _ _ _ _ _ _ _ _ _ Ho) in Hrun.
    cbv zeta in Hrun.
    destruct (_ =? -1); [by destruct (Hnone _ Hrun)|].
    destruct (_ =? 1); [by destruct (Hnone _ Hrun)|].
    eapply (published_failure w _ auth
              (plumbing.Reference_Name headRef) (cloned r m) res m' evs);
      [apply quiet_DeleteCommit_rewrite|exact Hrun|done..].
  - rewrite (ModifyCommit_opened _ _ _ _ _ _ _ _ _ _ Ho) in Hrun.
    cbv zeta in Hrun.
    destruct (negb _); [by destruct (Hnone _ Hrun)|].
    eapply (published_failure w _ auth
              (plumbing.Reference_Name headRef) (cloned r m) res m' evs);
      [apply quiet_ModifyCommit_rewrite|exact Hrun|done..].
Qed.

(** C5 — In every run of a rewrite, when an encode or a persist step
    fails, the operation returns an error and the branch is not touched:
    the references and [HEAD] of the repository are those of the clone, and
    the run records no reference set and no push. *)
Theorem rewrite_failure_keeps_reference w url key keep commitHash newMsg
    (op : M unit) m res m' evs :
  op ∈ [TrimOldCommits w url key keep;
        DeleteCommit w url key commitHash;
        ModifyCommit w url key commitHash newMsg] →
  op m = (res, m') →
  trace m' = trace m ++ evs →
  Exists (λ e, isStoreFailure e = true) evs →
  failed res = true ∧
  (∃ auth r, git_Clone w url auth = inr r ∧
             Refs (repo m') = Refs r ∧ HEAD (repo m') = HEAD r) ∧
  Forall (λ e, isPublication e = false) evs.
Proof.
  intros Hop Hrun Htr Hex.
  assert (Hopens : ∃ auth r headRef it, opens w url key auth r headRef it).
  { assert (Hquiet : ∀ e m0, op m = (Err e, m0) → trace m0 = trace m →
                       False).
    { intros e m0 Hrun0 Htr0. rewrite Hrun0 in Hrun. inversion Hrun; subst.
      rewrite Htr0 in Htr. symmetry in Htr.
      rewrite <- (app_nil_r (trace m)) in Htr at 2.
      apply app_inv_head in Htr. subst evs. by apply Exists_nil in Hex. }
    repeat (apply elem_of_cons in Hop as [->|Hop]);
      [| | |by apply elem_of_nil in Hop].
    - destruct (TrimOldCommits_prelude w url key keep m)
        as [H|(e & m0 & H1 & H2)]; [done|by destruct (Hquiet e m0)].
    - destruct (DeleteCommit_prelude w url key commitHash m)
        as [H|(e & m0 & H1 & H2)]; [done|by destruct (Hquiet e m0)].
    - destruct (ModifyCommit_prelude w url key commitHash newMsg m)
        as [H|(e & m0 & H1 & H2)]; [done|by destruct (Hquiet e m0)]. }
  destruct Hopens as (auth & r & headRef & it & Ho).
  destruct (rewrite_failure_opened w url key keep commitHash newMsg auth r
              headRef it op m res m' evs Ho Hop Hrun Htr Hex)
    as (Hf & HR & HH & Hp).
  split_and!; [done| |done].
  exists auth, r. by destruct Ho as (_ & Hc & _).
Qed.

(* ================================================================== *)
(** ** The sample worlds *)

Lemma idealHash_inj a b : Sample.idealHash a = Sample.idealHash b → a = b.
Proof.
  unfold Sample.idealHash. intros H. injection H as H.
  apply (inj encode) in H. unfold Sample.flat, Sample.fields in H.
  destruct a as [[an ae aw] [cn ce cw] am at_ ap].
  destruct b as [[bn be bw] [dn de dw] bm bt bp].
  cbn [enc_Author enc_Committer enc_Message enc_TreeHash enc_ParentHashes
       object.Name object.Email object.When app] in H.
  injection H as H1 H2 H3 H4 H5 H6 H7 H8 H9.
  apply (inj encode) in H1, H2, H3, H4, H5, H6, H7, H8, H9.
  by subst.
Qed.

Lemma Exists_existsb {A} (f : A → bool) l :
  existsb f l = true → Exists (λ x, f x = true) l.
Proof.
  intros H. apply existsb_exists in H as (x & Hin & Hx).
  apply Exists_exists. exists x. split; [by apply list_elem_of_In|done].
Qed.

Lemma Forall_forallb {A} (f : A → bool) l :
  forallb f l = true → Forall (λ x, f x = true) l.
Proof.
  intros H. apply Forall_forall. intros x Hin.
  rewrite forallb_forall in H. by apply H, list_elem_of_In.
Qed.

Lemma sample_opens storeErr push :
  opens (Sample.worldOf Sample.origin Sample.target storeErr push) "u" "k"
    Sample.auth Sample.origin Sample.headRef Sample.log.
Proof.
  split_and!.
  - by eexists.
  - done.
  - by vm_compute.
  - done.
  - by vm_compute.
Qed.

Lemma sample_world_opens :
  opens Sample.world "u" "k" Sample.auth Sample.origin Sample.headRef
    Sample.log.
Proof. apply sample_opens. Qed.

Lemma sample_sole_opens :
  opens Sample.soleWorld "u" "k" Sample.auth Sample.single
    Sample.soleHeadRef Sample.soleLog.
Proof.
  split_and!.
  - by eexists.
  - done.
  - by vm_compute.
  - done.
  - by vm_compute.
Qed.

Lemma sample_reliable : reliable Sample.world.
Proof. by split_and!. Qed.

Lemma sample_trees :
  Forall (λ c, object.TreeHash c ∈ Trees Sample.origin)
    (iter_commits Sample.log).
Proof.
  repeat constructor; apply bool_decide_unpack; by vm_compute.
Qed.

Lemma sample_len : len (iter_commits Sample.log) = 3.
Proof. done. Qed.

Lemma sample_addressed :
  Forall (addressed Sample.world) (iter_commits Sample.log).
Proof. repeat constructor. Qed.

Lemma sample_linked j c p :
  iter_commits Sample.log !! j = Some c →
  iter_commits Sample.log !! S j = Some p →
  object.ParentHashes c = [object.Hash p].
Proof.
  destruct j as [|[|[|j]]]; simpl; intros Hc Hp;
    inversion Hc; inversion Hp; by subst.
Qed.

Lemma amended_run :
  ModifyCommit Sample.world "u" "k" "C1" "fixed" Sample.boot =
  (Ret tt, Sample.amended).
Proof.
  unfold Sample.amended.
  assert (H : (ModifyCommit Sample.world "u" "k" "C1" "fixed"
                 Sample.boot).1 = Ret tt) by (by vm_compute).
  destruct (ModifyCommit _ _ _ _ _ _) as [res m']. simpl in *. by subst.
Qed.

(* ================================================================== *)
(** ** A push that finds the remote up to date *)

(** Whatever the error of the push, the publication of a rewrite returns
    it wrapped. *)
Lemma publish_push_error w auth refName h m e :
  SetReference_err w (plumbing.NewHashReference refName h) = None →
  Repository_Push w (repo (withRef (plumbing.NewHashReference refName h) m))
    (forcePush auth refName) = Some e →
  (publish w auth refName h m).1 = Err (Wrap "push" e).
Proof. intros Hr Hp. rewrite publish_run. cbv zeta. by rewrite Hr, Hp. Qed.

(** C7 — [PushCommit] returns success when its push finds the remote up
    to date.  The three rewrites do not: amending [C1'] to the message it
    already has, with the clock reading what it read when the remote was
    written, rebuilds the very commits of the remote; the push answers
    "already up-to-date", and [ModifyCommit] returns that answer as an
    error.  So do [TrimOldCommits] and [DeleteCommit] wherever a push
    answers so. *)
Theorem push_up_to_date_divergence :
  (PushCommit Sample.again "u" "k" "note" Sample.boot).1 = Ret tt ∧
  last (trace (PushCommit Sample.again "u" "k" "note" Sample.boot).2) =
    Some (EvPush {| Auth := Sample.auth; Force := false;
                    RefSpecs := [refSpec Sample.main] |}
            (Some NoErrAlreadyUpToDate)) ∧
  (ModifyCommit Sample.again "u" "k" "C1'" "fixed" Sample.boot).1 =
    Err (Wrap "push" NoErrAlreadyUpToDate) ∧
  Refs (repo (ModifyCommit Sample.again "u" "k" "C1'" "fixed"
                Sample.boot).2) = Refs (repo Sample.amended) ∧
  (TrimOldCommits Sample.settled "u" "k" 2 Sample.boot).1 =
    Err (Wrap "push" NoErrAlreadyUpToDate) ∧
  (DeleteCommit Sample.settled "u" "k" "C1" Sample.boot).1 =
    Err (Wrap "push" NoErrAlreadyUpToDate) ∧
  (ModifyCommit Sample.settled "u" "k" "C1" "fixed" Sample.boot).1 =
    Err (Wrap "push" NoErrAlreadyUpToDate).
Proof.
  split_and!; vm_compute; reflexivity.
Qed.

(* ================================================================== *)
(** ** Where the claims fail as stated *)

(** C1, as stated, fails at [keep = 0]: on the chain of three commits the
    operation panics instead of leaving a chain of no record. *)
Lemma TrimOldCommits_keep_zero_panics :
  0 ≤ len (iter_commits Sample.log) ∧
  TrimOldCommits Sample.world "u" "k" 0 Sample.boot =
  (Panicked (IndexOutOfRange (-1) 3), cloned Sample.origin Sample.boot).
Proof.
  split; [done|].
  by rewrite (TrimOldCommits_opened _ _ _ _ _ _ _ _ _ sample_world_opens).
Qed.

(** C3, as stated, fails below the target: amending [C1], the root [C0]
    is stored anew, with the same message and tree, under another hash. *)
Lemma ModifyCommit_rehashes_below_target :
  ∃ root',
    stored (trace Sample.amended) !! 0%nat = Some root' ∧
    object.Message root' = object.Message Sample.C0 ∧
    object.TreeHash root' = object.TreeHash Sample.C0 ∧
    object.Hash root' ≠ object.Hash Sample.C0.
Proof.
  exists (rewritten Sample.world (amend Sample.h1 "fixed") 0 [] Sample.C0).
  split_and!; [by vm_compute|done..|].
  intros H. apply idealHash_inj in H. discriminate H.
Qed.


(** C6, as stated, fails when the target is not the hash of the only
    record: the error is [CommitNotFound]. *)
Lemma DeleteCommit_sole_commit_not_found :
  iter_commits Sample.soleLog = [Sample.C0] ∧
  plumbing_NewHash Sample.soleWorld "zz" ≠ object.Hash Sample.C0 ∧
  DeleteCommit Sample.soleWorld "u" "k" "zz" Sample.boot =
    (Err CommitNotFound, cloned Sample.single Sample.boot) ∧
  CommitNotFound ≠ CannotDeleteSoleCommit.
Proof.
  split_and!; [done| | |done].
  - by vm_compute.
  - by rewrite (DeleteCommit_opened _ _ _ _ _ _ _ _ _ sample_sole_opens).
Qed.

(** C10, as stated, fails at the least [int]: the index [keep - 1] wraps
    to the greatest [int], which is out of bounds but not negative. *)
Lemma TrimOldCommits_MinInt_index :
  MinInt ≤ 0 ∧
  TrimOldCommits Sample.world "u" "k" MinInt Sample.boot =
    (Panicked (IndexOutOfRange MaxInt 3), cloned Sample.origin Sample.boot) ∧
  ¬ MaxInt < 0.
Proof.
  split_and!; [done| |done].
  by rewrite (TrimOldCommits_opened _ _ _ _ _ _ _ _ _ sample_world_opens).
Qed.

(* ================================================================== *)
(** ** The theorems at the sample *)

Lemma sample_target_occurs :
  plumbing_NewHash Sample.world "C1" ∈
    (object.Hash <$> iter_commits Sample.log).
Proof. apply list_elem_of_lookup. exists 1%nat. vm_compute. reflexivity. Qed.

Lemma sample_len_bounds : 1 < len (iter_commits Sample.log) ≤ MaxInt.
Proof. rewrite sample_len. unfold MaxInt. lia. Qed.

Lemma DeleteCommit_drops_target_witness :
  opens Sample.world "u" "k" Sample.auth Sample.origin Sample.headRef
    Sample.log ∧
  1 < len (iter_commits Sample.log) ≤ MaxInt ∧
  plumbing_NewHash Sample.world "C1" ∈
    (object.Hash <$> iter_commits Sample.log) ∧
  ∃ m' chain,
    DeleteCommit Sample.world "u" "k" "C1" Sample.boot = (Ret tt, m') ∧
    stored (trace m') = reverse chain ∧
    len chain = 2 ∧
    linkedDown chain.
Proof.
  split; [exact sample_world_opens|].
  split; [exact sample_len_bounds|].
  split; [exact sample_target_occurs|].
  destruct (DeleteCommit_drops_target Sample.world "u" "k" "C1" Sample.auth
              Sample.origin Sample.headRef Sample.log Sample.boot
              sample_world_opens sample_len_bounds sample_target_occurs
              sample_trees sample_reliable)
    as (m' & t & d & chain & Hrun & _ & _ & Hst & Hl & _ & _ & Hlk & _).
  exists m', chain.
  split; [exact Hrun|]. split; [exact Hst|]. split; [|exact Hlk].
  rewrite Hl, sample_len. reflexivity.
Defined.

Lemma ModifyCommit_amends_witness :
  opens Sample.world "u" "k" Sample.auth Sample.origin Sample.headRef
    Sample.log ∧
  plumbing_NewHash Sample.world "C1" ∈
    (object.Hash <$> iter_commits Sample.log) ∧
  ∃ m' chain,
    ModifyCommit Sample.world "u" "k" "C1" "fixed" Sample.boot
      = (Ret tt, m') ∧
    length chain = 3%nat ∧
    object.Message <$> chain = ["c"; "fixed"; "a"] ∧
    (∀ j c c', (j ≤ 1)%nat →
       iter_commits Sample.log !! j = Some c → chain !! j = Some c' →
       object.Hash c' ≠ object.Hash c).
Proof.
  split; [exact sample_world_opens|].
  split; [exact sample_target_occurs|].
  destruct (ModifyCommit_amends Sample.world "u" "k" "C1" "fixed" Sample.auth
              Sample.origin Sample.headRef Sample.log Sample.boot
              sample_world_opens (proj2 sample_len_bounds)
              sample_target_occurs sample_trees sample_reliable)
    as (m' & chain & Hrun & _ & Hl & _ & _ & Hm & _ & _ & _ & Hhash).
  destruct (Hhash idealHash_inj sample_addressed) as [_ Hup].
  exists m', chain.
  split; [exact Hrun|]. split; [exact Hl|]. split.
  - rewrite Hm. vm_compute. reflexivity.
  - apply (Hup sample_linked 1%nat Sample.C1).
    + reflexivity.
    + vm_compute. reflexivity.
    + intros H. discriminate H.
Defined.

Lemma TrimOldCommits_keeps_newest_witness :
  opens Sample.world "u" "k" Sample.auth Sample.origin Sample.headRef
    Sample.log ∧
  1 ≤ 2 ≤ len (iter_commits Sample.log) ∧
  reliable Sample.world ∧
  ∃ m' chain,
    TrimOldCommits Sample.world "u" "k" 2 Sample.boot = (Ret tt, m') ∧
    stored (trace m') = reverse chain ∧
    len chain = 2 ∧
    object.Message <$> chain = ["c"; "b"] ∧
    object.TreeHash <$> chain = [13%N; 12%N] ∧
    linkedDown chain ∧
    (∃ tip, head chain = Some tip ∧
       ancestry 2 (Objects (repo m')) (object.Hash tip) = chain).
Proof.
  split; [exact sample_world_opens|].
  split; [rewrite sample_len; lia|].
  split; [exact sample_reliable|].
  destruct (TrimOldCommits_keeps_newest Sample.world "u" "k" 2 Sample.auth
              Sample.origin Sample.headRef Sample.log Sample.boot
              sample_world_opens)
    as (m' & Hrun & _ & Hnew).
  - rewrite sample_len. lia.
  - exact (proj2 sample_len_bounds).
  - apply Forall_take, sample_trees.
  - exact sample_reliable.
  - destruct Hnew as (chain & Hst & Hl & Hm & Ht & Hlk & _ & _ & Hback).
    { rewrite sample_len. lia. }
    exists m', chain.
    split; [exact Hrun|]. split; [exact Hst|]. split; [exact Hl|].
    split; [exact Hm|]. split; [exact Ht|]. split; [exact Hlk|].
    apply (Hback idealHash_inj 2%nat). lia.
Defined.

Lemma sample_committers c k :
  c ∈ iter_commits Sample.log →
  written (object.Committer c) ≠ written (committerAt (time_Now Sample.world k)).
Proof.
  intros Hc Heq. apply (f_equal object.Name) in Heq.
  repeat (apply elem_of_cons in Hc as [->|Hc]);
    [discriminate..|by apply elem_of_nil in Hc].
Qed.

Lemma sample_keep_range : MinInt ≤ 2 ≤ MaxInt.
Proof. done. Qed.


Lemma sample_fullDisk_run :
  let run := DeleteCommit Sample.fullDisk "u" "k" "C2" Sample.boot in
  run = (run.1, run.2) ∧
  trace run.2 = trace Sample.boot ++ trace run.2 ∧
  Exists (λ e, isStoreFailure e = true) (trace run.2).
Proof.
  cbv zeta. split_and!.
  - by destruct (DeleteCommit _ _ _ _ _).
  - reflexivity.
  - apply Exists_existsb. vm_compute. reflexivity.
Qed.

Lemma rewrite_failure_keeps_reference_witness :
  let run := DeleteCommit Sample.fullDisk "u" "k" "C2" Sample.boot in
  Exists (λ e, isStoreFailure e = true) (trace run.2) ∧
  failed run.1 = true ∧
  (∃ auth r, git_Clone Sample.fullDisk "u" auth = inr r ∧
             Refs (repo run.2) = Refs r ∧ HEAD (repo run.2) = HEAD r) ∧
  Forall (λ e, isPublication e = false) (trace run.2).
Proof.
  cbv zeta.
  destruct sample_fullDisk_run as (Hrun & Htr & Hex).
  split; [exact Hex|].
  apply (rewrite_failure_keeps_reference Sample.fullDisk "u" "k" 2 "C2" "x"
           (DeleteCommit Sample.fullDisk "u" "k" "C2") Sample.boot _ _ _).
  - apply list_elem_of_further, list_elem_of_here.
  - exact Hrun.
  - exact Htr.
  - exact Hex.
Defined.

Lemma DeleteCommit_sole_commit_witness :
  opens Sample.soleWorld "u" "k" Sample.auth Sample.single
    Sample.soleHeadRef Sample.soleLog ∧
  iter_commits Sample.soleLog = [Sample.C0] ∧
  DeleteCommit Sample.soleWorld "u" "k" "C0" Sample.boot =
    (Err CannotDeleteSoleCommit, cloned Sample.single Sample.boot).
Proof.
  split; [exact sample_sole_opens|]. split; [reflexivity|].
  exact (DeleteCommit_sole_commit Sample.soleWorld "u" "k" "C0" Sample.auth
           Sample.single Sample.soleHeadRef Sample.soleLog Sample.C0
           Sample.boot sample_sole_opens eq_refl).
Defined.

Lemma FetchCommits_bounds_witness :
  reads Sample.world "u" "k" Sample.auth Sample.origin Sample.headRef
    Sample.log ∧
  MinInt ≤ -1 ≤ MaxInt ∧
  FetchCommits Sample.world "u" "k" (-1) Sample.boot =
    (Panicked MakesliceCapOutOfRange, cloned Sample.origin Sample.boot).
Proof.
  split; [exact (opens_reads _ _ _ _ _ _ _ sample_world_opens)|].
  split; [done|].
  refine (proj1 (FetchCommits_bounds Sample.world "u" "k" (-1) Sample.auth
                   Sample.origin Sample.headRef Sample.log Sample.boot
                   (opens_reads _ _ _ _ _ _ _ sample_world_opens) _) _);
    done.
Defined.

Lemma TrimOldCommits_noop_witness :
  opens Sample.world "u" "k" Sample.auth Sample.origin Sample.headRef
    Sample.log ∧
  len (iter_commits Sample.log) ≤ 3 ∧
  ∃ m', TrimOldCommits Sample.world "u" "k" 3 Sample.boot = (Ret tt, m') ∧
        repo m' = Sample.origin ∧ trace m' = trace Sample.boot ∧
        clock m' = clock Sample.boot ∧
        TrimOldCommits Sample.world "u" "k" 3 m' = (Ret tt, m').
Proof.
  split; [exact sample_world_opens|]. split; [done|].
  apply (TrimOldCommits_noop Sample.world "u" "k" 3 Sample.auth Sample.origin
           Sample.headRef Sample.log Sample.boot sample_world_opens).
  done.
Defined.

Lemma TrimOldCommits_nonpositive_keep_witness :
  opens Sample.world "u" "k" Sample.auth Sample.origin Sample.headRef
    Sample.log ∧
  1 ≤ len (iter_commits Sample.log) ≤ MaxInt ∧
  MinInt ≤ 0 ≤ MaxInt ∧
  TrimOldCommits Sample.world "u" "k" 0 Sample.boot =
    (Panicked (IndexOutOfRange (int_sub 0 1) (len (iter_commits Sample.log))),
     cloned Sample.origin Sample.boot).
Proof.
  split; [exact sample_world_opens|]. split; [done|]. split; [done|].
  apply (TrimOldCommits_nonpositive_keep Sample.world "u" "k" 0 Sample.auth
           Sample.origin Sample.headRef Sample.log Sample.boot
           sample_world_opens); done.
Defined.

(* ================================================================== *)
(** * Further properties of the package *)

(* ================================================================== *)
(** ** The log iterator, the listing, the branch of [HEAD] *)

Lemma ForEach_loop_tail {S} cs tail (cb : object.Commit → S → S * option error) s :
  (∀ c s, (cb c s).2 = None) →
  ForEach_loop cs tail cb s = ((ForEach_loop cs None cb s).1, tail).
Proof.
  intros Hcb. revert s. induction cs as [|c cs IH]; intros s; [done|].
  cbn [ForEach_loop]. specialize (Hcb c s).
  destruct (cb c s) as [s' [e|]]; [done|]. apply IH.
Qed.

Lemma ForEach_endsWell {S} it (cb : object.Commit → S → S * option error) s :
  (∀ c s, (cb c s).2 = None) →
  (ForEach (endsWell it) cb s).1 = (ForEach it cb s).1.
Proof.
  intros Hcb. unfold ForEach, endsWell. cbn [iter_commits iter_err].
  by rewrite (ForEach_loop_tail _ (iter_err it)).
Qed.

Lemma collect_cb_None c s : (collect_cb c s).2 = None.
Proof. done. Qed.

Lemma DeleteCommit_cb_None target c s : (DeleteCommit_cb target c s).2 = None.
Proof. by destruct s. Qed.

Lemma ModifyCommit_cb_None target c s : (ModifyCommit_cb target c s).2 = None.
Proof. by destruct s. Qed.

Ltac upToLog w url key :=
  unfold NewSSHAuth, CloneToMemory, Head, Log, bind, orWrap, getRepo,
    setRepo, fail, ret;
  unfold silenced;
  cbn [withLog ssh_NewPublicKeys git_Clone Repository_Log repo
       plumbing_NewHash];
  destruct (ssh_NewPublicKeys w "git" key "") as [e|pk]; [done|];
  destruct (git_Clone w url _) as [e|r]; [done|]; cbn [repo];
  destruct (resolveHead r) as [e|headRef]; [done|];
  destruct (negb _); [done|]; cbn [repo];
  destruct (Repository_Log w r (plumbing.Reference_Hash headRef)) as [e|it];
    [done|].

(** X1 — A rewrite does not look at the error its log iterator ends with:
    it runs as in the world where every iterator ends well, on the commits
    yielded before the error. *)
Theorem rewrites_drop_iterator_error w url key keep commitHash newMsg m :
  TrimOldCommits (silenced w) url key keep m =
    TrimOldCommits w url key keep m ∧
  DeleteCommit (silenced w) url key commitHash m =
    DeleteCommit w url key commitHash m ∧
  ModifyCommit (silenced w) url key commitHash newMsg m =
    ModifyCommit w url key commitHash newMsg m.
Proof.
  split_and!.
  - unfold TrimOldCommits. upToLog w url key.
    by rewrite (ForEach_endsWell it collect_cb [] collect_cb_None).
  - unfold DeleteCommit. upToLog w url key.
    by rewrite (ForEach_endsWell it _ _ (DeleteCommit_cb_None _)).
  - unfold ModifyCommit. upToLog w url key.
    by rewrite (ForEach_endsWell it _ _ (ModifyCommit_cb_None _)).
Qed.

(** ** [FetchCommits] *)

(** X2 — [FetchCommits] only reads: whatever the outcome, it records no
    event and does not read the clock, and the repository of the machine is
    the clone as the library delivered it (or, when no clone was made, the
    one before the call). *)
Theorem FetchCommits_reads_only w url key max m :
  trace (FetchCommits w url key max m).2 = trace m ∧
  clock (FetchCommits w url key max m).2 = clock m ∧
  (repo (FetchCommits w url key max m).2 = repo m ∨
   ∃ auth, git_Clone w url auth = inr (repo (FetchCommits w url key max m).2)).
Proof.
  unfold FetchCommits, make0, makeslice, NewSSHAuth, CloneToMemory, Head,
    Log, bind, orWrap, getRepo, setRepo, fail, ret, throw.
  destruct (ssh_NewPublicKeys w "git" key "") as [e|pk];
    [by (split_and!; [| |left])|].
  destruct (git_Clone w url _) as [e|r] eqn:Hc;
    [by (split_and!; [| |left])|].
  cbn [repo].
  assert (Hr : ∃ auth, git_Clone w url auth = inr r) by by eexists.
  destruct (resolveHead r) as [e|ref];
    [by (split_and!; [| |right])|].
  cbn [repo].
  destruct (Repository_Log w r (plumbing.Reference_Hash ref)) as [e|it];
    [by (split_and!; [| |right])|].
  destruct ((max <? 0) || (maxAlloc <? SimpleCommit_size * max) ||
            (0 <? 0) || (max <? 0)).
  { destruct ((0 <? 0) || (maxAlloc <? SimpleCommit_size * 0));
      by (split_and!; [| |right]). }
  cbv beta iota.
  destruct (ForEach it (FetchCommits_cb w max) ([], 0)) as [[results n] err].
  destruct err as [e|]; [|by (split_and!; [| |right])].
  destruct (bool_decide (e ≠ io_EOF)); by (split_and!; [| |right]).
Qed.

(** X3 — When the walk of [FetchCommits] reaches the end of the iterator
    ([max] is 0, or no less than the number of commits, and not more than
    [make] accepts as a capacity) and the iterator ends with an error, the
    listing is dropped and the error is returned, wrapped as [iterate log];
    but an iterator ending with [io.EOF] itself gives the full listing. *)
Theorem FetchCommits_iterator_error w url key max auth r ref it e m :
  reads w url key auth r ref it →
  iter_err it = Some e →
  0 ≤ max ≤ MaxInt →
  SimpleCommit_size * max ≤ maxAlloc →
  max = 0 ∨ len (iter_commits it) ≤ max →
  FetchCommits w url key max m =
  (if bool_decide (e = io_EOF) then Ret (map (simple w) (iter_commits it))
   else Err (Wrap "iterate log" e),
   cloned r m).
Proof.
  intros Hr He Hmax Hmem Hend.
  rewrite (FetchCommits_read _ _ _ _ _ _ _ _ _ Hr).
  rewrite (bind_Ret _ _ _ [] (cloned r m)) by (apply make0_ok; [lia|done]).
  unfold ForEach.
  assert (Hloop : ∃ count,
    ForEach_loop (iter_commits it) (iter_err it) (FetchCommits_cb w max)
      ([], 0) = (([] ++ map (simple w) (iter_commits it), count), Some e)).
  { destruct (decide (max = 0)) as [->|Hne].
    - destruct (ForEach_FetchCommits_all w 0 (iter_commits it) (iter_err it)
                  [] 0) as [count Hrun]; [done|].
      exists count. by rewrite Hrun, He.
    - destruct (ForEach_FetchCommits_bounded w max (iter_commits it)
                  (iter_err it) [] 0) as [count Hrun]; [lia|lia|].
      exists count. rewrite Hrun, He, Z.sub_0_r.
      assert (Hall : (length (iter_commits it) ≤ Z.to_nat max)%nat)
        by (unfold len in Hend; lia).
      rewrite bool_decide_eq_false_2 by lia.
      by rewrite firstn_all2. }
  destruct Hloop as [count ->]. cbn [app].
  destruct (decide (e = io_EOF)) as [->|Hne].
  - by rewrite bool_decide_eq_false_2, bool_decide_eq_true_2 by auto.
  - by rewrite bool_decide_eq_true_2, bool_decide_eq_false_2 by auto.
Qed.

(** ** The head is not on a branch *)

Lemma RandomHexString_32 w m :
  RandomHexString w 32 m = (Ret (hex_EncodeToString (rand_Read w 16)), m).
Proof. reflexivity. Qed.

(** X4 — When [HEAD] of the clone does not resolve to a branch (a detached
    [HEAD], say), the four operations that write return the error
    [HEAD is not on a branch: <name>] with the clone untouched and nothing
    recorded, while [FetchCommits] lists the history from [HEAD]. *)
Theorem writes_need_a_branch w url key keep commitHash newMsg commitMsg
    auth r ref it m :
  reads w url key auth r ref it →
  plumbing.IsBranch (plumbing.Reference_Name ref) = false →
  TrimOldCommits w url key keep m =
    (Err (NotOnBranch (plumbing.Reference_Name ref)), cloned r m) ∧
  DeleteCommit w url key commitHash m =
    (Err (NotOnBranch (plumbing.Reference_Name ref)), cloned r m) ∧
  ModifyCommit w url key commitHash newMsg m =
    (Err (NotOnBranch (plumbing.Reference_Name ref)), cloned r m) ∧
  (Repository_Worktree_err w r = None →
   PushCommit w url key commitMsg m =
     (Err (NotOnBranch (plumbing.Reference_Name ref)), cloned r m)) ∧
  (iter_err it = None →
   FetchCommits w url key 0 m =
     (Ret (map (simple w) (iter_commits it)), cloned r m)).
Proof.
  intros Hr Hb. pose proof Hr as ((pk & Hpk & ->) & Hc & Hh & Hl).
  split_and!.
  - unfold TrimOldCommits, NewSSHAuth, CloneToMemory, Head, bind, orWrap,
      getRepo, setRepo, fail, ret.
    rewrite Hpk, Hc. cbn [repo]. by rewrite Hh, Hb.
  - unfold DeleteCommit, NewSSHAuth, CloneToMemory, Head, bind, orWrap,
      getRepo, setRepo, fail, ret.
    rewrite Hpk, Hc. cbn [repo]. by rewrite Hh, Hb.
  - unfold ModifyCommit, NewSSHAuth, CloneToMemory, Head, bind, orWrap,
      getRepo, setRepo, fail, ret.
    rewrite Hpk, Hc. cbn [repo]. by rewrite Hh, Hb.
  - intros Hw.
    unfold PushCommit, NewSSHAuth, CloneToMemory, Worktree, Head, bind,
      orWrap, getRepo, setRepo, fail, ret.
    rewrite Hpk, RandomHexString_32, Hc. cbn [repo].
    rewrite Hw. cbn [repo]. by rewrite Hh, Hb.
  - intros He.
    rewrite (FetchCommits_read _ _ _ _ _ _ _ _ _ Hr).
    erewrite bind_Ret; [|reflexivity]. unfold ForEach.
    destruct (ForEach_FetchCommits_all w 0 (iter_commits it) (iter_err it)
                [] 0) as [count Hrun]; [done|].
    by rewrite Hrun, He.
Qed.

(** ** What a successful rewrite leaves, operation by operation *)

Section Outcomes.
Variable w : World.
Variables (url key : string) (auth : PublicKeys) (r : Repository).
Variables (headRef : plumbing.Reference) (it : CommitIter).
Hypothesis Ho : opens w url key auth r headRef it.
Hypothesis Hlen : len (iter_commits it) ≤ MaxInt.

Let commits := iter_commits it.
Let refName := plumbing.Reference_Name headRef.

Lemma TrimOldCommits_cases keep m :
  MinInt ≤ keep ≤ MaxInt →
  (len commits ≤ keep ∧
   TrimOldCommits w url key keep m = (Ret tt, cloned r m)) ∨
  (keep ≤ 0 ∧ keep < len commits ∧
   TrimOldCommits w url key keep m =
   (Panicked (IndexOutOfRange (int_sub keep 1) (len commits)), cloned r m)) ∨
  (∃ n : nat, keep = Z.of_nat (S n) ∧ (S n < length commits)%nat ∧
   TrimOldCommits w url key keep m =
   (let! h := TrimOldCommits_rewrite w commits keep in
    publish w auth refName h) (cloned r m)).
Proof.
  intros Hkeep.
  destruct (decide (len commits ≤ keep)) as [Hle|Hgt].
  { left. split; [done|].
    rewrite (TrimOldCommits_opened _ _ _ _ _ _ _ _ _ Ho). fold commits.
    assert (Hg : (len commits <=? keep) = true) by lia. by rewrite Hg. }
  right. destruct (decide (keep ≤ 0)) as [Hneg|Hpos].
  { left. split_and!; [done|lia|].
    rewrite (TrimOldCommits_opened _ _ _ _ _ _ _ _ _ Ho). fold commits.
    assert (Hg : (len commits <=? keep) = false) by lia. rewrite Hg.
    unfold TrimOldCommits_rewrite. rewrite !bind_assoc.
    erewrite bind_Panicked; [done|].
    apply index_out, index_nonpositive_keep; [lia|done]. }
  right. exists (Z.to_nat keep - 1)%nat.
  assert (Hk : keep = Z.of_nat (S (Z.to_nat keep - 1))) by lia.
  assert (Hn : (S (Z.to_nat keep - 1) < length commits)%nat).
  { clear Hk Hkeep Hlen. unfold len in *. lia. }
  split_and!; [done..|].
  rewrite Hk at 1. rewrite (TrimOldCommits_block _ _ _ _ _ _ _ Ho) by done.
  by rewrite <- Hk.
Qed.
End Outcomes.

(** ** Every run of a block followed by the publication *)

Lemma tipOf_rechain_last w msgOf k olds :
  olds ≠ [] →
  ∃ tip, last (rechain w msgOf k [] olds) = Some tip ∧
         tipOf plumbing.ZeroHash (rechain w msgOf k [] olds) = object.Hash tip.
Proof.
  intros Hne.
  destruct (last (rechain w msgOf k [] olds)) as [tip|] eqn:Hlast.
  - exists tip. split; [done|]. by apply tipOf_last.
  - apply last_None in Hlast. apply (f_equal length) in Hlast.
    rewrite rechain_length in Hlast. by destruct olds.
Qed.

Section PublishedRun.
Variable w : World.
Variable msgOf : object.Commit → string.
Variable olds : list object.Commit.
Variable block : M plumbing.Hash.

Hypothesis block_rechain : ∀ m,
  rechains w msgOf (Trees (repo m)) (clock m) [] olds →
  block m =
  (Ret (tipOf plumbing.ZeroHash (rechain w msgOf (clock m) [] olds)),
   storeAll (rechain w msgOf (clock m) [] olds) m).
Hypothesis block_Ret_inv : ∀ m h m',
  block m = (Ret h, m') →
  rechains w msgOf (Trees (repo m)) (clock m) [] olds.
Hypothesis block_quiet : quiet block.
Hypothesis olds_nonempty : olds ≠ [].

(** When the run records a push: the block stored the whole chain, the
    branch was set to its tip, and the push is the last event. *)
Lemma published_push auth refName m res m' evs opts out :
  (let! h := block in publish w auth refName h) m = (res, m') →
  trace m' = trace m ++ evs →
  EvPush opts out ∈ evs →
  ∃ tip,
    last (rechain w msgOf (clock m) [] olds) = Some tip ∧
    evs = map (λ c, EvObjectStored (object.Hash c) (encoding c))
            (rechain w msgOf (clock m) [] olds) ++
          [EvReferenceSet (plumbing.NewHashReference refName
                             (object.Hash tip));
           EvPush opts out] ∧
    opts = forcePush auth refName ∧
    out = Repository_Push w (repo m') opts ∧
    Refs (repo m') = <[refName := object.Hash tip]> (Refs (repo m)) ∧
    res = match out with None => Ret tt | Some e => Err (Wrap "push" e) end.
Proof.
  intros Hrun Htr Hin. unfold bind in Hrun.
  destruct (block m) as [res0 m1] eqn:Hb.
  destruct (block_quiet m res0 m1 Hb) as (_ & _ & evs0 & Htr0 & Hpub & _).
  assert (Hnot : ∀ res1, (res1, m1) = (res, m') → False).
  { intros res1 E. inversion E; subst. rewrite Htr0 in Htr.
    apply app_inv_head in Htr. subst evs0.
    by apply (proj1 (Forall_forall _ _) Hpub) in Hin. }
  destruct res0 as [h|e|p]; [|by destruct (Hnot _ Hrun)..].
  clear Hnot Htr0 Hpub evs0.
  pose proof (block_Ret_inv _ _ _ Hb) as Hre.
  rewrite (block_rechain _ Hre) in Hb. inversion Hb; subst h m1. clear Hb.
  destruct (tipOf_rechain_last w msgOf (clock m) olds olds_nonempty)
    as (tip & Hlast & Htip).
  rewrite Htip in Hrun. rewrite publish_run in Hrun. cbv zeta in Hrun.
  set (news := rechain w msgOf (clock m) [] olds) in *.
  destruct (SetReference_err w _) as [e|].
  { exfalso. inversion Hrun; subst. rewrite storeAll_trace in Htr.
    apply app_inv_head in Htr. subst evs.
    apply list_elem_of_fmap in Hin as (c & Hc & _). discriminate. }
  exists tip. split; [done|].
  assert (Hshape : ∀ o,
    trace (pushed (forcePush auth refName) o
             (withRef (plumbing.NewHashReference refName (object.Hash tip))
                (storeAll news m))) =
    trace m ++ (map (λ c, EvObjectStored (object.Hash c) (encoding c)) news ++
                [EvReferenceSet (plumbing.NewHashReference refName
                                   (object.Hash tip));
                 EvPush (forcePush auth refName) o])).
  { intros o. cbn [pushed withRef trace]. rewrite storeAll_trace.
    by rewrite <- !app_assoc. }
  assert (Hrefs : ∀ o,
    Refs (repo (pushed (forcePush auth refName) o
             (withRef (plumbing.NewHashReference refName (object.Hash tip))
                (storeAll news m)))) =
    <[refName := object.Hash tip]> (Refs (repo m))).
  { intros o. cbn [pushed withRef repo Refs plumbing.Reference_Name
                   plumbing.Reference_Hash].
    by rewrite (proj1 (storeAll_repo news m)). }
  assert (Hlastev : ∀ o,
    EvPush opts out ∈
      map (λ c, EvObjectStored (object.Hash c) (encoding c)) news ++
      [EvReferenceSet (plumbing.NewHashReference refName (object.Hash tip));
       EvPush (forcePush auth refName) o] →
    opts = forcePush auth refName ∧ out = o).
  { intros o Ho. apply elem_of_app in Ho as [Ho|Ho].
    - apply list_elem_of_fmap in Ho as (c & Hc & _). discriminate.
    - apply elem_of_cons in Ho as [Ho|Ho]; [discriminate|].
      apply list_elem_of_singleton in Ho. by inversion Ho. }
  destruct (Repository_Push w _ (forcePush auth refName)) as [e|] eqn:Hp;
    inversion Hrun; subst res m'; clear Hrun;
    rewrite Hshape in Htr; apply app_inv_head in Htr; subst evs;
    destruct (Hlastev _ Hin) as [-> ->];
    (split_and!; [done|done| |apply Hrefs|done]);
    cbn [pushed repo]; by rewrite Hp.
Qed.
End PublishedRun.

Lemma rewrite_opens_or_silent w url key keep commitHash newMsg (op : M unit) m :
  op ∈ [TrimOldCommits w url key keep;
        DeleteCommit w url key commitHash;
        ModifyCommit w url key commitHash newMsg] →
  (∃ auth r headRef it, opens w url key auth r headRef it) ∨
  (∃ e m', op m = (Err e, m') ∧ trace m' = trace m).
Proof.
  intros Hop.
  repeat (apply elem_of_cons in Hop as [->|Hop]);
    [| | |by apply elem_of_nil in Hop].
  - apply TrimOldCommits_prelude.
  - apply DeleteCommit_prelude.
  - apply ModifyCommit_prelude.
Qed.

Lemma no_event_of_cloned {A} (res0 res : Res A) r m m' evs (P : Event → Prop) :
  (res0, cloned r m) = (res, m') →
  trace m' = trace m ++ evs →
  ¬ Exists P evs.
Proof.
  intros E Htr Hex. inversion E; subst. cbn [cloned trace] in Htr.
  rewrite <- (app_nil_r (trace m)) in Htr at 1.
  apply app_inv_head in Htr. subst evs. by apply Exists_nil in Hex.
Qed.

Lemma delete_nonempty {A} (l : list A) (t : nat) x :
  l !! t = Some x → len l ≠ 1 → reverse (delete t l) ≠ [].
Proof.
  intros Ht Hne Hnil. apply (f_equal length) in Hnil.
  rewrite length_reverse, length_delete in Hnil by eauto.
  apply lookup_lt_Some in Ht. unfold len in Hne. simpl in Hnil. lia.
Qed.

(** X5 — Whenever a rewrite pushes, the push is the last thing it does and
    the only one: before it the whole new chain was stored, root first and
    linked, and the branch of [HEAD] was set to its tip; the push carries
    that one branch, with force.  The operation returns nil exactly when the
    push returns nil: every error of the push, "already up-to-date"
    included, is returned wrapped as [push]. *)
Theorem rewrite_push_is_final w url key keep commitHash newMsg (op : M unit)
    m res m' evs opts out :
  (∀ auth r headRef it,
     opens w url key auth r headRef it → len (iter_commits it) ≤ MaxInt) →
  MinInt ≤ keep ≤ MaxInt →
  op ∈ [TrimOldCommits w url key keep;
        DeleteCommit w url key commitHash;
        ModifyCommit w url key commitHash newMsg] →
  op m = (res, m') →
  trace m' = trace m ++ evs →
  EvPush opts out ∈ evs →
  ∃ auth r headRef it news tip,
    opens w url key auth r headRef it ∧
    evs = map (λ c, EvObjectStored (object.Hash c) (encoding c)) news ++
          [EvReferenceSet
             (plumbing.NewHashReference (plumbing.Reference_Name headRef)
                (object.Hash tip));
           EvPush opts out] ∧
    linked news ∧
    last news = Some tip ∧
    opts = forcePush auth (plumbing.Reference_Name headRef) ∧
    out = Repository_Push w (repo m') opts ∧
    Refs (repo m') =
      <[plumbing.Reference_Name headRef := object.Hash tip]> (Refs r) ∧
    res = match out with None => Ret tt | Some e => Err (Wrap "push" e) end.
Proof.
  intros Hbound Hkeep Hop Hrun Htr Hin.
  assert (Hex : Exists (λ e, e = EvPush opts out) evs).
  { apply Exists_exists. by eexists. }
  destruct (rewrite_opens_or_silent w url key keep commitHash newMsg op m Hop)
    as [(auth & r & headRef & it & Ho)|(e & m0 & Hrun0 & Htr0)].
  2:{ exfalso. rewrite Hrun0 in Hrun. inversion Hrun; subst.
      rewrite Htr0 in Htr. symmetry in Htr.
      rewrite <- (app_nil_r (trace m)) in Htr at 2.
      apply app_inv_head in Htr. subst evs. by apply Exists_nil in Hex. }
  pose proof (Hbound _ _ _ _ Ho) as Hlen.
  exists auth, r, headRef, it.
  assert (Hgo : ∀ msgOf olds block,
    (∀ m, rechains w msgOf (Trees (repo m)) (clock m) [] olds →
       block m =
       (Ret (tipOf plumbing.ZeroHash (rechain w msgOf (clock m) [] olds)),
        storeAll (rechain w msgOf (clock m) [] olds) m)) →
    (∀ m h m', block m = (Ret h, m') →
       rechains w msgOf (Trees (repo m)) (clock m) [] olds) →
    quiet block → olds ≠ [] →
    (let! h := block in
     publish w auth (plumbing.Reference_Name headRef) h) (cloned r m)
      = (res, m') →
    ∃ news tip,
      opens w url key auth r headRef it ∧
      evs = map (λ c, EvObjectStored (object.Hash c) (encoding c)) news ++
            [EvReferenceSet
               (plumbing.NewHashReference (plumbing.Reference_Name headRef)
                  (object.Hash tip));
             EvPush opts out] ∧
      linked news ∧
      last news = Some tip ∧
      opts = forcePush auth (plumbing.Reference_Name headRef) ∧
      out = Repository_Push w (repo m') opts ∧
      Refs (repo m') =
        <[plumbing.Reference_Name headRef := object.Hash tip]> (Refs r) ∧
      res = match out with None => Ret tt | Some e => Err (Wrap "push" e) end).
  { intros msgOf olds block H1 H2 H3 H4 Hrun'.
    destruct (published_push w msgOf olds block H1 H2 H3 H4 auth
                (plumbing.Reference_Name headRef) (cloned r m) res m' evs
                opts out Hrun' Htr Hin)
      as (tip & Hlast & Hevs & Hopts & Hout & Hrefs & Hres).
    exists (rechain w msgOf (clock m) [] olds), tip.
    split_and!; [done|done|apply rechain_linkedFrom|done..]. }
  repeat (apply elem_of_cons in Hop as [->|Hop]);
    [| | |by apply elem_of_nil in Hop].
  - destruct (TrimOldCommits_cases w url key auth r headRef it Ho Hlen keep m
                Hkeep)
      as [[_ Hrun']|[(_ & _ & Hrun')|(n & -> & Hn & Hrun')]].
    + rewrite Hrun' in Hrun.
      by destruct (no_event_of_cloned _ _ _ _ _ _ _ Hrun Htr Hex).
    + rewrite Hrun' in Hrun.
      by destruct (no_event_of_cloned _ _ _ _ _ _ _ Hrun Htr Hex).
    + rewrite Hrun' in Hrun.
      apply (Hgo object.Message (reverse (take (S n) (iter_commits it)))
               (TrimOldCommits_rewrite w (iter_commits it) (Z.of_nat (S n)))).
      * intros m1. apply TrimOldCommits_rewrite_rechain; [lia|done].
      * intros m1 h m2. apply TrimOldCommits_rewrite_Ret_inv; [lia|done].
      * apply quiet_TrimOldCommits_rewrite.
      * intros Hnil. apply (f_equal length) in Hnil.
        rewrite length_reverse, length_take in Hnil.
        change (length []) with 0%nat in Hnil. clear -Hnil Hn. lia.
      * done.
  - destruct (DeleteCommit_block w url key auth r headRef it Ho Hlen
                commitHash m)
      as [[_ Hrun']|(t & d & Ht & Hd & _ & Hrun')].
    { rewrite Hrun' in Hrun.
      by destruct (no_event_of_cloned _ _ _ _ _ _ _ Hrun Htr Hex). }
    rewrite Hrun' in Hrun. clear Hrun'.
    destruct (len (iter_commits it) =? 1) eqn:H1.
    { by destruct (no_event_of_cloned _ _ _ _ _ _ _ Hrun Htr Hex). }
    apply (Hgo object.Message (reverse (delete t (iter_commits it)))
             (rebuild w object.Message (treeTextOf w) [] plumbing.ZeroHash
                (reverse (delete t (iter_commits it))))).
    + intros m1. apply rebuild_rechain.
    + intros m1 h m2. apply rebuild_Ret_inv.
    + apply quiet_rebuild.
    + apply (delete_nonempty _ _ d Ht). lia.
    + done.
  - rewrite (ModifyCommit_block w url key auth r headRef it Ho Hlen) in Hrun.
    cbv zeta in Hrun.
    destruct (bool_decide (Exists _ (iter_commits it))) eqn:Hfound.
    2:{ by destruct (no_event_of_cloned _ _ _ _ _ _ _ Hrun Htr Hex). }
    apply (Hgo (amend (plumbing_NewHash w commitHash) newMsg)
             (reverse (iter_commits it))
             (rebuild w (amend (plumbing_NewHash w commitHash) newMsg)
                (treeTextOf w) [] plumbing.ZeroHash
                (reverse (iter_commits it)))).
    + intros m1. apply rebuild_rechain.
    + intros m1 h m2. apply rebuild_Ret_inv.
    + apply quiet_rebuild.
    + apply bool_decide_eq_true_1 in Hfound.
      intros Hnil. apply (f_equal reverse) in Hnil.
      rewrite reverse_involutive in Hnil. rewrite Hnil in Hfound.
      by apply Exists_nil in Hfound.
    + done.
Qed.

(** ** [PushCommit], outcome by outcome *)

Lemma PushCommit_run w url key msg m :
  PushCommit w url key msg m =
  match ssh_NewPublicKeys w "git" key "" with
  | inl e => (Err (Wrap "create public keys" e), m)
  | inr pk =>
  match git_Clone w url (insecure pk) with
  | inl e => (Err (Wrap "clone repo" (Wrap "clone" e)), m)
  | inr r =>
  match Repository_Worktree_err w r with
  | Some e => (Err (Wrap "worktree" e), cloned r m)
  | None =>
  match resolveHead r with
  | inl e => (Err (Wrap "head" e), cloned r m)
  | inr ref =>
  let refName := plumbing.Reference_Name ref in
  if negb (plumbing.IsBranch refName)
  then (Err (NotOnBranch refName), cloned r m)
  else
  match Filesystem_Create_err w r "README.MD" with
  | Some e => (Err (Wrap "create file README.MD" e), cloned r m)
  | None =>
  match Worktree_Add w r "README.MD"
          (hex_EncodeToString (rand_Read w 16)) with
  | inl e => (Err (Wrap "add README.MD" e), cloned r m)
  | inr r1 =>
  match Worktree_Commit w r1 msg (committerAt (time_Now w (clock m))) with
  | inl e =>
      (Err (Wrap "commit" e),
       {| repo := r1; clock := S (clock m); trace := trace m |})
  | inr r2 =>
      let out := Repository_Push w r2 (plainPush (insecure pk) refName) in
      (PushCommit_result out,
       {| repo := r2; clock := S (clock m);
          trace := trace m ++
                   [EvPush (plainPush (insecure pk) refName) out] |})
  end end end end end end end.
Proof.
  unfold PushCommit. cbn [forRange fst snd].
  unfold NewSSHAuth, CloneToMemory, Worktree, Head, Filesystem_Create, Add,
    Now, Commit, Push, insecure, plainPush, PushCommit_result, NotOnBranch,
    cloned, bind, orWrap, getRepo, setRepo, emit, fail, ret.
  destruct (ssh_NewPublicKeys w "git" key "") as [e|pk]; [done|].
  rewrite RandomHexString_32.
  destruct (git_Clone w url _) as [e|r]; [done|]. cbn [repo].
  destruct (Repository_Worktree_err w r) as [e|]; [done|]. cbn [repo].
  destruct (resolveHead r) as [e|ref]; [done|]. cbv zeta.
  destruct (negb _); [done|]. cbn [repo].
  destruct (Filesystem_Create_err w r "README.MD") as [e|]; [done|].
  cbn [repo].
  destruct (Worktree_Add w r "README.MD" _) as [e|r1]; [done|].
  cbn [repo clock trace].
  destruct (Worktree_Commit w r1 msg _) as [e|r2]; [done|].
  cbn [repo clock trace].
  destruct (Repository_Push w r2 _) as [e|]; [|done].
  by destruct (errors_Is e NoErrAlreadyUpToDate).
Qed.

(** X6 — [PushCommit] pushes at most once, and then as its last step: the
    branch [HEAD] of the clone is on, alone and without force, after the
    commit was made.  It returns nil when the push returns nil or an error
    that is (or wraps) "already up-to-date", and the error wrapped as [push]
    otherwise.  A run without a push ends in an error and records nothing. *)
Theorem PushCommit_pushes_once w url key msg m res m' :
  PushCommit w url key msg m = (res, m') →
  (failed res = true ∧ trace m' = trace m) ∨
  (∃ pk r ref out,
     ssh_NewPublicKeys w "git" key "" = inr pk ∧
     git_Clone w url (insecure pk) = inr r ∧
     resolveHead r = inr ref ∧
     plumbing.IsBranch (plumbing.Reference_Name ref) = true ∧
     trace m' =
       trace m ++
       [EvPush (plainPush (insecure pk) (plumbing.Reference_Name ref)) out] ∧
     out = Repository_Push w (repo m')
             (plainPush (insecure pk) (plumbing.Reference_Name ref)) ∧
     res = PushCommit_result out).
Proof.
  rewrite PushCommit_run. intros Hrun.
  destruct (ssh_NewPublicKeys w "git" key "") as [e|pk] eqn:Hpk;
    [left; by inversion Hrun|].
  destruct (git_Clone w url (insecure pk)) as [e|r] eqn:Hc;
    [left; by inversion Hrun|].
  destruct (Repository_Worktree_err w r) as [e|];
    [left; by inversion Hrun|].
  destruct (resolveHead r) as [e|ref] eqn:Hh;
    [left; by inversion Hrun|].
  cbv zeta in Hrun.
  destruct (plumbing.IsBranch (plumbing.Reference_Name ref)) eqn:Hb;
    [|left; by inversion Hrun].
  cbn [negb] in Hrun.
  destruct (Filesystem_Create_err w r "README.MD") as [e|];
    [left; by inversion Hrun|].
  destruct (Worktree_Add w r "README.MD" _) as [e|r1];
    [left; by inversion Hrun|].
  destruct (Worktree_Commit w r1 msg _) as [e|r2];
    [left; by inversion Hrun|].
  right. inversion Hrun; subst res m'.
  exists pk, r, ref,
    (Repository_Push w r2
       (plainPush (insecure pk) (plumbing.Reference_Name ref))).
  by split_and!.
Qed.

(** X7 — When nothing fails, [PushCommit] stages the one file [README.MD],
    whose content is the hexadecimal of 16 random bytes (32 digits), commits
    it with the given message and the author MixGram <admin@mixgram.org> at
    the time read, and pushes the branch of [HEAD]; the repository is the
    one the commit left. *)
Theorem PushCommit_commits w url key msg pk r ref r1 r2 m :
  ssh_NewPublicKeys w "git" key "" = inr pk →
  git_Clone w url (insecure pk) = inr r →
  Repository_Worktree_err w r = None →
  resolveHead r = inr ref →
  plumbing.IsBranch (plumbing.Reference_Name ref) = true →
  Filesystem_Create_err w r "README.MD" = None →
  Worktree_Add w r "README.MD" (hex_EncodeToString (rand_Read w 16))
    = inr r1 →
  Worktree_Commit w r1 msg
    {| object.Name := "MixGram"; object.Email := "admin@mixgram.org";
       object.When := time_Now w (clock m) |} = inr r2 →
  Repository_Push w r2
    {| Auth := insecure pk; Force := false;
       RefSpecs := [plumbing.Reference_Name ref +:+ ":" +:+
                    plumbing.Reference_Name ref] |} = None →
  PushCommit w url key msg m =
    (Ret tt,
     {| repo := r2; clock := S (clock m);
        trace := trace m ++
          [EvPush {| Auth := insecure pk; Force := false;
                     RefSpecs := [plumbing.Reference_Name ref +:+ ":" +:+
                                  plumbing.Reference_Name ref] |} None] |}) ∧
  (length (rand_Read w 16) = 16%nat →
   String.length (hex_EncodeToString (rand_Read w 16)) = 32%nat).
Proof.
  intros Hpk Hc Hw Hh Hb Hcr Hadd Hcommit Hpush. split.
  - rewrite PushCommit_run, Hpk, Hc, Hw, Hh. cbv zeta.
    rewrite Hb. cbn [negb]. rewrite Hcr, Hadd.
    change (committerAt (time_Now w (clock m))) with
      {| object.Name := "MixGram"; object.Email := "admin@mixgram.org";
         object.When := time_Now w (clock m) |}.
    rewrite Hcommit.
    change (plainPush (insecure pk) (plumbing.Reference_Name ref)) with
      {| Auth := insecure pk; Force := false;
         RefSpecs := [plumbing.Reference_Name ref +:+ ":" +:+
                      plumbing.Reference_Name ref] |}.
    by rewrite Hpush.
  - intros Hfill.
    assert (Hl : ∀ bs, String.length (hex_EncodeToString bs)
                       = (2 * length bs)%nat).
    { induction bs as [|b bs IH]; cbn; [done|]. rewrite IH. lia. }
    by rewrite Hl, Hfill.
Qed.

(** ** Errors of the prelude *)

(** X8 — A key the SSH library refuses makes each of the five operations
    return [create public keys: <cause>] before anything is cloned.  A clone
    that fails is reported as [clone: <cause>] by [FetchCommits] and
    [TrimOldCommits], but as [clone repo: clone: <cause>] by [PushCommit],
    [DeleteCommit] and [ModifyCommit]; in both cases the machine is as
    before the call.  A [HEAD] that does not resolve is reported as
    [head: <cause>], and a log that cannot be opened as [log: <cause>], the
    machine holding the clone.  The cause is always found by [errors.Is]. *)
Theorem prelude_errors w url key max keep commitHash newMsg commitMsg m :
  (∀ e, ssh_NewPublicKeys w "git" key "" = inl e →
     FetchCommits w url key max m = (Err (Wrap "create public keys" e), m) ∧
     TrimOldCommits w url key keep m = (Err (Wrap "create public keys" e), m) ∧
     DeleteCommit w url key commitHash m
       = (Err (Wrap "create public keys" e), m) ∧
     ModifyCommit w url key commitHash newMsg m
       = (Err (Wrap "create public keys" e), m) ∧
     PushCommit w url key commitMsg m
       = (Err (Wrap "create public keys" e), m) ∧
     errors_Is (Wrap "create public keys" e) e = true) ∧
  (∀ pk e, ssh_NewPublicKeys w "git" key "" = inr pk →
     git_Clone w url (insecure pk) = inl e →
     FetchCommits w url key max m = (Err (Wrap "clone" e), m) ∧
     TrimOldCommits w url key keep m = (Err (Wrap "clone" e), m) ∧
     DeleteCommit w url key commitHash m
       = (Err (Wrap "clone repo" (Wrap "clone" e)), m) ∧
     ModifyCommit w url key commitHash newMsg m
       = (Err (Wrap "clone repo" (Wrap "clone" e)), m) ∧
     PushCommit w url key commitMsg m
       = (Err (Wrap "clone repo" (Wrap "clone" e)), m) ∧
     errors_Is (Wrap "clone" e) e = true ∧
     errors_Is (Wrap "clone repo" (Wrap "clone" e)) e = true) ∧
  (∀ pk r e, ssh_NewPublicKeys w "git" key "" = inr pk →
     git_Clone w url (insecure pk) = inr r →
     resolveHead r = inl e →
     FetchCommits w url key max m = (Err (Wrap "head" e), cloned r m) ∧
     TrimOldCommits w url key keep m = (Err (Wrap "head" e), cloned r m) ∧
     DeleteCommit w url key commitHash m
       = (Err (Wrap "head" e), cloned r m) ∧
     ModifyCommit w url key commitHash newMsg m
       = (Err (Wrap "head" e), cloned r m) ∧
     (Repository_Worktree_err w r = None →
      PushCommit w url key commitMsg m = (Err (Wrap "head" e), cloned r m)) ∧
     errors_Is (Wrap "head" e) e = true) ∧
  (∀ pk r ref e, ssh_NewPublicKeys w "git" key "" = inr pk →
     git_Clone w url (insecure pk) = inr r →
     resolveHead r = inr ref →
     Repository_Log w r (plumbing.Reference_Hash ref) = inl e →
     FetchCommits w url key max m = (Err (Wrap "log" e), cloned r m) ∧
     (plumbing.IsBranch (plumbing.Reference_Name ref) = true →
      TrimOldCommits w url key keep m = (Err (Wrap "log" e), cloned r m) ∧
      DeleteCommit w url key commitHash m
        = (Err (Wrap "log" e), cloned r m) ∧
      ModifyCommit w url key commitHash newMsg m
        = (Err (Wrap "log" e), cloned r m)) ∧
     errors_Is (Wrap "log" e) e = true).
Proof.
  assert (Hself : ∀ e, errors_Is e e = true).
  { intros e. destruct e; cbn [errors_Is];
      by rewrite bool_decide_eq_true_2. }
  assert (Hwrap : ∀ text e, errors_Is (Wrap text e) e = true).
  { intros text e. cbn [errors_Is]. rewrite Hself. apply orb_true_r. }
  split_and!.
  - intros e He.
    unfold FetchCommits, TrimOldCommits, DeleteCommit, ModifyCommit.
    rewrite PushCommit_run.
    unfold NewSSHAuth, bind, fail. rewrite He.
    by split_and!.
  - intros pk e Hpk Hc.
    unfold FetchCommits, TrimOldCommits, DeleteCommit, ModifyCommit.
    rewrite PushCommit_run.
    unfold NewSSHAuth, CloneToMemory, bind, orWrap, fail, ret.
    unfold insecure in Hc. rewrite Hpk. unfold insecure. rewrite Hc.
    split_and!; [done..|].
    cbn [errors_Is]. rewrite Hself. by rewrite !orb_true_r.
  - intros pk r e Hpk Hc Hh.
    unfold FetchCommits, TrimOldCommits, DeleteCommit, ModifyCommit.
    rewrite PushCommit_run.
    unfold NewSSHAuth, CloneToMemory, Head, bind, orWrap, getRepo, setRepo,
      fail, ret.
    unfold insecure in Hc. rewrite Hpk. unfold insecure. rewrite Hc.
    cbn [repo]. rewrite Hh.
    split_and!; [done..| |done].
    by intros ->.
  - intros pk r ref e Hpk Hc Hh Hl.
    unfold FetchCommits, TrimOldCommits, DeleteCommit, ModifyCommit.
    unfold NewSSHAuth, CloneToMemory, Head, Log, bind, orWrap, getRepo,
      setRepo, fail, ret.
    unfold insecure in Hc. rewrite Hpk, Hc.
    cbn [repo]. rewrite Hh. cbn [repo]. rewrite Hl.
    split_and!; [done| |done].
    intros Hb. rewrite Hb. cbn [negb repo]. rewrite Hl. by split_and!.
Qed.

(** ** Successful rewrites *)

Section Success.
Variable w : World.
Variables (url key : string) (auth : PublicKeys) (r : Repository).
Variables (headRef : plumbing.Reference) (it : CommitIter).
Hypothesis Ho : opens w url key auth r headRef it.
Hypothesis Hlen : len (iter_commits it) ≤ MaxInt.

Let commits := iter_commits it.
Let refName := plumbing.Reference_Name headRef.

Lemma TrimOldCommits_Ret_republished keep m m' :
  MinInt ≤ keep ≤ MaxInt →
  TrimOldCommits w url key keep m = (Ret tt, m') →
  (len commits ≤ keep ∧ m' = cloned r m) ∨
  (1 ≤ keep < len commits ∧
   m' = republished w object.Message auth refName
          (reverse (take (Z.to_nat keep) commits)) (cloned r m)).
Proof.
  intros Hkeep Hrun.
  destruct (TrimOldCommits_cases w url key auth r headRef it Ho Hlen keep m
              Hkeep)
    as [[Hle Hrun']|[(_ & _ & Hrun')|(n & -> & Hn & Hrun')]];
    rewrite Hrun' in Hrun.
  - left. split; [done|]. by inversion Hrun.
  - discriminate.
  - unfold commits in *.
    right. split; [unfold len; clear -Hn; lia|].
    rewrite Nat2Z.id.
    apply (published_Ret_inv w object.Message
             (reverse (take (S n) (iter_commits it)))) in Hrun; [done| |].
    + intros m1. apply TrimOldCommits_rewrite_rechain; [lia|done].
    + intros m1 h m2. apply TrimOldCommits_rewrite_Ret_inv; [lia|done].
Qed.

Lemma DeleteCommit_Ret_republished commitHash m m' :
  DeleteCommit w url key commitHash m = (Ret tt, m') →
  ∃ (t : nat) d,
    commits !! t = Some d ∧
    object.Hash d = plumbing_NewHash w commitHash ∧
    Forall (λ c, object.Hash c ≠ plumbing_NewHash w commitHash)
      (drop (S t) commits) ∧
    len commits ≠ 1 ∧
    m' = republished w object.Message auth refName
           (reverse (delete t commits)) (cloned r m).
Proof.
  intros Hrun.
  destruct (DeleteCommit_block w url key auth r headRef it Ho Hlen
              commitHash m)
    as [[_ Hfail]|(t & d & Ht & Hd & Hrest & Hrun')].
  { rewrite Hfail in Hrun. discriminate. }
  rewrite Hrun' in Hrun. clear Hrun'.
  destruct (len (iter_commits it) =? 1) eqn:H1; [discriminate|].
  exists t, d. split_and!; [done..|unfold commits; lia|].
  apply (published_Ret_inv w object.Message
           (reverse (delete t (iter_commits it)))) in Hrun; [done| |].
  + intros m1. apply rebuild_rechain.
  + intros m1 h m2. apply rebuild_Ret_inv.
Qed.

Lemma ModifyCommit_Ret_republished commitHash newMsg m m' :
  ModifyCommit w url key commitHash newMsg m = (Ret tt, m') →
  Exists (λ c, object.Hash c = plumbing_NewHash w commitHash) commits ∧
  m' = republished w (amend (plumbing_NewHash w commitHash) newMsg) auth
         refName (reverse commits) (cloned r m).
Proof.
  intros Hrun.
  rewrite (ModifyCommit_block w url key auth r headRef it Ho Hlen) in Hrun.
  cbv zeta in Hrun.
  destruct (bool_decide (Exists _ (iter_commits it))) eqn:Hfound;
    [|discriminate].
  split; [by apply bool_decide_eq_true_1 in Hfound|].
  apply (published_Ret_inv w
           (amend (plumbing_NewHash w commitHash) newMsg)
           (reverse (iter_commits it))) in Hrun; [done| |].
  + intros m1. apply rebuild_rechain.
  + intros m1 h m2. apply rebuild_Ret_inv.
Qed.
End Success.

(** A successful run changed nothing, or is a republication. *)
Lemma rewrite_Ret_republished w url key keep commitHash newMsg auth r headRef
    it (op : M unit) m m' :
  opens w url key auth r headRef it →
  len (iter_commits it) ≤ MaxInt →
  MinInt ≤ keep ≤ MaxInt →
  op ∈ [TrimOldCommits w url key keep;
        DeleteCommit w url key commitHash;
        ModifyCommit w url key commitHash newMsg] →
  op m = (Ret tt, m') →
  m' = cloned r m ∨
  ∃ msgOf olds,
    m' = republished w msgOf auth (plumbing.Reference_Name headRef) olds
           (cloned r m).
Proof.
  intros Ho Hlen Hkeep Hop Hrun.
  repeat (apply elem_of_cons in Hop as [->|Hop]);
    [| | |by apply elem_of_nil in Hop].
  - destruct (TrimOldCommits_Ret_republished w url key auth r headRef it Ho
                Hlen keep m m' Hkeep Hrun) as [[_ ->]|[_ ->]];
      [by left|right; by eexists _, _].
  - destruct (DeleteCommit_Ret_republished w url key auth r headRef it Ho
                Hlen commitHash m m' Hrun) as (t & d & _ & _ & _ & _ & ->).
    right. by eexists _, _.
  - destruct (ModifyCommit_Ret_republished w url key auth r headRef it Ho
                Hlen commitHash newMsg m m' Hrun) as [_ ->].
    right. by eexists _, _.
Qed.

Lemma rewritten_committer w msgOf k ps old :
  object.Committer (rewritten w msgOf k ps old) =
  written (committerAt (time_Now w k)).
Proof.
  unfold rewritten, decoding.
  cbn [object.Committer encoding enc_Committer draft newCommitOf].
  apply readBack_written.
Qed.

(** X9 — The commits a successful rewrite stores carry, as committer,
    MixGram <admin@mixgram.org> at the seconds of successive readings of
    the clock: the [j]-th stored commit (the root is the first) has the
    whole seconds of the [j]-th reading after the clone, 0 should that
    reading lie before 1970.  [time.Now] is read once for each stored
    commit. *)
Theorem rewrite_committer_times w url key keep commitHash newMsg auth r
    headRef it (op : M unit) m m' :
  opens w url key auth r headRef it →
  len (iter_commits it) ≤ MaxInt →
  MinInt ≤ keep ≤ MaxInt →
  op ∈ [TrimOldCommits w url key keep;
        DeleteCommit w url key commitHash;
        ModifyCommit w url key commitHash newMsg] →
  op m = (Ret tt, m') →
  ∃ news,
    stored (trace m') = stored (trace m) ++ news ∧
    clock m' = (clock m + length news)%nat ∧
    ∀ (j : nat) c, news !! j = Some c →
      object.Committer c =
      {| object.Name := "MixGram"; object.Email := "admin@mixgram.org";
         object.When :=
           time_Unix (Z.max 0 (Unix (time_Now w (clock m + j)))) |}.
Proof.
  intros Ho Hlen Hkeep Hop Hrun.
  destruct (rewrite_Ret_republished w url key keep commitHash newMsg auth r
              headRef it op m m' Ho Hlen Hkeep Hop Hrun)
    as [->|(msgOf & olds & ->)].
  - exists []. split_and!.
    + by rewrite app_nil_r.
    + cbn. lia.
    + intros j c Hj. by rewrite lookup_nil in Hj.
  - exists (rechain w msgOf (clock m) [] olds). split_and!.
    + apply (stored_republished w msgOf auth _ olds (cloned r m)).
    + unfold republished. cbn [pushed withRef clock].
      by rewrite (proj2 (proj2 (proj2 (storeAll_repo _ (cloned r m))))).
    + intros j c Hj.
      apply rechain_lookup in Hj as (old & ps & _ & ->).
      apply rewritten_committer.
Qed.

(** A block and the publication return nil only when the push, the last
    event, was accepted. *)
Lemma published_accepted w (block : M plumbing.Hash) auth refName m m' :
  quiet block →
  (let! h := block in publish w auth refName h) m = (Ret tt, m') →
  ∃ evs,
    trace m' = trace m ++ evs ++ [EvPush (forcePush auth refName) None] ∧
    Repository_Push w (repo m') (forcePush auth refName) = None.
Proof.
  intros Hq Hrun.
  apply bind_Ret_inv in Hrun as (h & m1 & Hb & Hpub).
  destruct (Hq m (Ret h) m1 Hb) as (_ & _ & evs0 & Htr0 & _).
  rewrite publish_run in Hpub. cbv zeta in Hpub.
  destruct (SetReference_err w _) as [e|]; [discriminate|].
  destruct (Repository_Push w _ (forcePush auth refName)) as [e|] eqn:Hp;
    [discriminate|].
  inversion Hpub; subst m'. clear Hpub.
  exists (evs0 ++ [EvReferenceSet (plumbing.NewHashReference refName h)]).
  split.
  - cbn [pushed withRef trace]. rewrite Htr0. by rewrite <- !app_assoc.
  - exact Hp.
Qed.

(** X10 — A rewrite that returns nil has pushed: the last event of the run
    is the forced push of the branch of [HEAD], and the library accepted it.
    The one exception is [TrimOldCommits] with nothing to trim, which
    returns nil without storing or pushing anything. *)
Theorem rewrite_success_is_pushed w url key keep commitHash newMsg auth r
    headRef it m m' :
  opens w url key auth r headRef it →
  len (iter_commits it) ≤ MaxInt →
  MinInt ≤ keep ≤ MaxInt →
  let accepted :=
    ∃ evs,
      trace m' =
        trace m ++ evs ++
        [EvPush (forcePush auth (plumbing.Reference_Name headRef)) None] ∧
      Repository_Push w (repo m')
        (forcePush auth (plumbing.Reference_Name headRef)) = None in
  (TrimOldCommits w url key keep m = (Ret tt, m') →
   len (iter_commits it) ≤ keep ∧ m' = cloned r m ∨
   keep < len (iter_commits it) ∧ accepted) ∧
  (DeleteCommit w url key commitHash m = (Ret tt, m') → accepted) ∧
  (ModifyCommit w url key commitHash newMsg m = (Ret tt, m') → accepted).
Proof.
  intros Ho Hlen Hkeep accepted. subst accepted. split_and!.
  - intros Hrun.
    destruct (TrimOldCommits_cases w url key auth r headRef it Ho Hlen keep m
                Hkeep)
      as [[Hle Hrun']|[(_ & _ & Hrun')|(n & Hk & Hn & Hrun')]];
      rewrite Hrun' in Hrun.
    + left. split; [done|]. by inversion Hrun.
    + discriminate.
    + right. split; [unfold len; clear -Hk Hn; lia|].
      eapply (published_accepted w _ auth _ (cloned r m) m');
        [|exact Hrun].
      apply quiet_TrimOldCommits_rewrite.
  - intros Hrun.
    destruct (DeleteCommit_block w url key auth r headRef it Ho Hlen
                commitHash m)
      as [[_ Hfail]|(t & d & _ & _ & _ & Hrun')].
    { rewrite Hfail in Hrun. discriminate. }
    rewrite Hrun' in Hrun. clear Hrun'.
    destruct (len (iter_commits it) =? 1); [discriminate|].
    eapply (published_accepted w _ auth _ (cloned r m) m'); [|exact Hrun].
    apply quiet_rebuild.
  - intros Hrun.
    rewrite (ModifyCommit_block w url key auth r headRef it Ho Hlen) in Hrun.
    cbv zeta in Hrun.
    destruct (bool_decide (Exists _ (iter_commits it))); [|discriminate].
    eapply (published_accepted w _ auth _ (cloned r m) m'); [|exact Hrun].
    apply quiet_rebuild.
Qed.

(** No commit of the log has the target hash. *)
Lemma absent_target w url key commitHash newMsg auth r headRef it m :
  opens w url key auth r headRef it →
  Forall (λ c, object.Hash c ≠ plumbing_NewHash w commitHash)
    (iter_commits it) →
  DeleteCommit w url key commitHash m = (Err CommitNotFound, cloned r m) ∧
  ModifyCommit w url key commitHash newMsg m
    = (Err CommitNotFound, cloned r m).
Proof.
  intros Ho Hall. split.
  - rewrite (DeleteCommit_opened _ _ _ _ _ _ _ _ _ Ho). cbv zeta.
    destruct (DeleteCommit_scan (plumbing_NewHash w commitHash) it)
      as (ti & -> & [[-> _]|(t & d & -> & Ht & Hd & _)]); [done|].
    exfalso. apply list_elem_of_lookup_2 in Ht.
    by apply (proj1 (Forall_forall _ _) Hall) in Ht.
  - rewrite (ModifyCommit_opened _ _ _ _ _ _ _ _ _ _ Ho). cbv zeta.
    rewrite ModifyCommit_scan. cbn [fst snd].
    rewrite bool_decide_eq_false_2; [done|].
    intros Hex. apply Exists_exists in Hex as (c & Hc & Hh).
    by apply (proj1 (Forall_forall _ _) Hall) in Hc.
Qed.

(** X11 — A hash that no commit of the history has makes [DeleteCommit] and
    [ModifyCommit] return [commit not found in history]; nothing is stored
    and nothing is published: the machine holds the clone. *)
Theorem unknown_commit_is_refused w url key commitHash newMsg auth r headRef
    it m :
  opens w url key auth r headRef it →
  Forall (λ c, object.Hash c ≠ plumbing_NewHash w commitHash)
    (iter_commits it) →
  DeleteCommit w url key commitHash m = (Err CommitNotFound, cloned r m) ∧
  ModifyCommit w url key commitHash newMsg m
    = (Err CommitNotFound, cloned r m) ∧
  trace (cloned r m) = trace m ∧
  Objects (repo (cloned r m)) = Objects r ∧
  Refs (repo (cloned r m)) = Refs r.
Proof.
  intros Ho Hall.
  destruct (absent_target w url key commitHash newMsg auth r headRef it m Ho
              Hall) as [Hd Hm].
  by split_and!.
Qed.

(** X12 — [PushCommit], [DeleteCommit] and [ModifyCommit] never panic,
    whatever their arguments and whatever the libraries answer. *)
Theorem writes_never_panic w url key commitHash newMsg commitMsg m :
  (∀ auth r headRef it,
     opens w url key auth r headRef it → len (iter_commits it) ≤ MaxInt) →
  panicked (PushCommit w url key commitMsg m).1 = false ∧
  panicked (DeleteCommit w url key commitHash m).1 = false ∧
  panicked (ModifyCommit w url key commitHash newMsg m).1 = false.
Proof.
  intros Hbound. split_and!.
  - rewrite PushCommit_run.
    destruct (ssh_NewPublicKeys w "git" key "") as [e|pk]; [done|].
    destruct (git_Clone w url (insecure pk)) as [e|r]; [done|].
    destruct (Repository_Worktree_err w r) as [e|]; [done|].
    destruct (resolveHead r) as [e|ref]; [done|]. cbv zeta.
    destruct (negb _); [done|].
    destruct (Filesystem_Create_err w r "README.MD") as [e|]; [done|].
    destruct (Worktree_Add w r "README.MD" _) as [e|r1]; [done|].
    destruct (Worktree_Commit w r1 commitMsg _) as [e|r2]; [done|].
    cbn [fst]. unfold PushCommit_result.
    destruct (Repository_Push w r2 _) as [e|]; [|done].
    by destruct (errors_Is e NoErrAlreadyUpToDate).
  - destruct (DeleteCommit_prelude w url key commitHash m)
      as [(auth & r & headRef & it & Ho)|(e & m0 & -> & _)]; [|done].
    destruct (DeleteCommit_block w url key auth r headRef it Ho
                (Hbound _ _ _ _ Ho) commitHash m)
      as [[_ ->]|(t & d & _ & _ & _ & ->)]; [done|].
    destruct (len (iter_commits it) =? 1); [done|].
    apply calm_bind; [apply calm_rebuild|]. intros h. apply calm_publish.
  - destruct (ModifyCommit_prelude w url key commitHash newMsg m)
      as [(auth & r & headRef & it & Ho)|(e & m0 & -> & _)]; [|done].
    rewrite (ModifyCommit_block w url key auth r headRef it Ho
               (Hbound _ _ _ _ Ho)).
    cbv zeta.
    destruct (bool_decide (Exists _ (iter_commits it))); [|done].
    apply calm_bind; [apply calm_rebuild|]. intros h. apply calm_publish.
Qed.

(* ================================================================== *)
(** ** Listing what a rewrite pushed *)

Lemma content_simple w c :
  plain (object.Author c) →
  content (simple w c) = contentWith object.Message c.
Proof.
  intros Hc. unfold content, simple, contentWith.
  cbn [sc_Author sc_Email sc_Message sc_Date]. by rewrite Hc.
Qed.


Lemma opens_Symbolic w url key auth r headRef it :
  opens w url key auth r headRef it →
  HEAD r = Symbolic (plumbing.Reference_Name headRef).
Proof.
  intros (_ & _ & Hh & Hb & _). unfold resolveHead in Hh.
  destruct (HEAD r) as [target|h].
  - destruct (Refs r !! target); [|done]. by inversion Hh.
  - inversion Hh; subst. discriminate.
Qed.

Lemma HEAD_republished w msgOf auth refName olds m :
  HEAD (repo (republished w msgOf auth refName olds m)) = HEAD (repo m).
Proof.
  unfold republished. cbn [pushed withRef repo HEAD].
  apply (proj1 (proj2 (storeAll_repo _ m))).
Qed.

Lemma rewrites_content w w' msgOf old new :
  rewrites w msgOf old new →
  content (simple w' new) = contentWith msgOf old.
Proof.
  intros (_ & Ha & Hm & _). unfold content, simple, contentWith.
  cbn [sc_Author sc_Email sc_Message sc_Date]. by rewrite Ha, Hm.
Qed.

Lemma content_plain w (cs : list object.Commit) :
  Forall (λ c, plain (object.Author c)) cs →
  contentWith object.Message <$> cs = content <$> map (simple w) cs.
Proof.
  intros Hcs. rewrite <- list_fmap_compose.
  apply Forall_fmap_ext. eapply Forall_impl; [exact Hcs|].
  intros c Hc. cbn. by rewrite content_simple.
Qed.

(** What the remote serves once a republication was pushed to it: the
    branch at the new tip, and as the log the new chain, tip first. *)
Lemma served_republished w w' msgOf auth refName olds m url' key' fuel :
  (∀ a b, Hash_of w a = Hash_of w b → a = b) →
  olds ≠ [] →
  HEAD (repo m) = Symbolic refName →
  (length olds ≤ fuel)%nat →
  serves w' url' key' (repo (republished w msgOf auth refName olds m)) fuel →
  ∃ auth' chain tip,
    reads w' url' key' auth' (repo (republished w msgOf auth refName olds m))
      (plumbing.NewHashReference refName (object.Hash tip))
      {| iter_commits := chain; iter_err := None |} ∧
    head chain = Some tip ∧
    length chain = length olds ∧
    Forall2 (rewrites w msgOf) (reverse olds) chain.
Proof.
  intros Hinj Hne Hhead Hfuel (auth' & ref & Hr).
  destruct (republished_chain w msgOf auth refName olds m Hne)
    as (chain & _ & Hl & Hrw & _ & _ & (tip & Htip & Hrefs) & Hwalk).
  destruct (Hwalk Hinj fuel Hfuel) as (tip' & Htip' & Hanc).
  rewrite Htip in Htip'. inversion Htip'; subst tip'. clear Htip'.
  pose proof Hr as (_ & _ & Hh & _).
  unfold resolveHead in Hh.
  rewrite HEAD_republished, Hhead, Hrefs, lookup_insert_eq in Hh.
  inversion Hh; subst ref. clear Hh.
  cbn [plumbing.Reference_Hash] in Hr. rewrite Hanc in Hr.
  by exists auth', chain, tip.
Qed.

(** The listing of a republished history. *)
Lemma listing_republished w w' msgOf auth refName olds m url' key' fuel mx :
  (∀ a b, Hash_of w a = Hash_of w b → a = b) →
  olds ≠ [] →
  HEAD (repo m) = Symbolic refName →
  (length olds ≤ fuel)%nat →
  serves w' url' key' (repo (republished w msgOf auth refName olds m)) fuel →
  ∃ listing,
    FetchCommits w' url' key' 0 mx =
      (Ret listing,
       cloned (repo (republished w msgOf auth refName olds m)) mx) ∧
    content <$> listing = contentWith msgOf <$> reverse olds.
Proof.
  intros Hinj Hne Hhead Hfuel Hserves.
  destruct (served_republished w w' msgOf auth refName olds m url' key' fuel
              Hinj Hne Hhead Hfuel Hserves)
    as (auth' & chain & tip & Hr & _ & _ & Hrw).
  exists (map (simple w') chain). split.
  - rewrite (FetchCommits_read _ _ _ _ _ _ _ _ _ Hr).
    erewrite bind_Ret; [|reflexivity]. unfold ForEach.
    cbn [iter_commits iter_err].
    destruct (ForEach_FetchCommits_all w' 0 chain None [] 0) as [count Hrun];
      [done|].
    by rewrite Hrun.
  - clear -Hrw. induction Hrw as [|old new olds' news' H1 _ IH]; [done|].
    cbn [map fmap list_fmap]. f_equal; [|exact IH].
    by apply (rewrites_content w w' msgOf).
Qed.

(** X13 — After [TrimOldCommits] returned nil with [1 ≤ keep < len], listing
    the pushed repository with [FetchCommits] gives [keep] entries, one for
    each of the [keep] newest commits, with its author, e-mail and message,
    and as date the one the encoder wrote: the whole seconds of the author's
    time, 0 when it lies before 1970.  When the authors' times are such
    whole seconds already, as they are in a history the package wrote, the
    entries say what the first [keep] entries of the old listing said; only
    the hashes differ. *)
Theorem trim_then_fetch w w' url key keep auth r headRef it m m'
    url' key' fuel mx :
  opens w url key auth r headRef it →
  len (iter_commits it) ≤ MaxInt →
  1 ≤ keep < len (iter_commits it) →
  (∀ a b, Hash_of w a = Hash_of w b → a = b) →
  TrimOldCommits w url key keep m = (Ret tt, m') →
  (Z.to_nat keep ≤ fuel)%nat →
  serves w' url' key' (repo m') fuel →
  ∃ listing,
    FetchCommits w' url' key' 0 mx = (Ret listing, cloned (repo m') mx) ∧
    len listing = keep ∧
    content <$> listing =
      contentWith object.Message <$>
        take (Z.to_nat keep) (iter_commits it) ∧
    (Forall (λ c, plain (object.Author c)) (iter_commits it) →
     content <$> listing =
       content <$> take (Z.to_nat keep) (map (simple w) (iter_commits it))).
Proof.
  intros Ho Hlen Hkeep Hinj Hrun Hfuel Hserves.
  assert (Hk : MinInt ≤ keep ≤ MaxInt).
  { unfold MinInt in *. lia. }
  destruct (TrimOldCommits_Ret_republished w url key auth r headRef it Ho
              Hlen keep m m' Hk Hrun) as [[Hle _]|[_ ->]]; [lia|].
  assert (Hl : length (take (Z.to_nat keep) (iter_commits it))
               = Z.to_nat keep).
  { rewrite length_take. unfold len in Hkeep. lia. }
  destruct (listing_republished w w' object.Message auth
              (plumbing.Reference_Name headRef)
              (reverse (take (Z.to_nat keep) (iter_commits it)))
              (cloned r m) url' key' fuel mx Hinj)
    as (listing & Hfetch & Hcontent).
  - intros Hnil. apply (f_equal length) in Hnil.
    rewrite length_reverse, Hl in Hnil. cbn in Hnil. lia.
  - apply (opens_Symbolic _ _ _ _ _ _ _ Ho).
  - by rewrite length_reverse, Hl.
  - done.
  - exists listing. rewrite reverse_involutive in Hcontent.
    split_and!; [done| |done|].
    + apply (f_equal length) in Hcontent.
      rewrite !length_fmap, Hl in Hcontent. unfold len. lia.
    + intros Hplain. rewrite Hcontent, <- fmap_take.
      apply content_plain. by apply Forall_take.
Qed.

(** X14 — After [DeleteCommit] returned nil, listing the pushed repository
    with [FetchCommits] gives one entry for each commit but the deleted
    one, in the same order, with its author, e-mail and message, and as date
    the one the encoder wrote: the whole seconds of the author's time, 0
    when it lies before 1970.  When the authors' times are such whole
    seconds already, this is the old listing without the entry of the
    deleted commit, hashes apart. *)
Theorem delete_then_fetch w w' url key commitHash auth r headRef it m m'
    url' key' fuel mx :
  opens w url key auth r headRef it →
  len (iter_commits it) ≤ MaxInt →
  (∀ a b, Hash_of w a = Hash_of w b → a = b) →
  DeleteCommit w url key commitHash m = (Ret tt, m') →
  (length (iter_commits it) - 1 ≤ fuel)%nat →
  serves w' url' key' (repo m') fuel →
  ∃ (t : nat) d listing,
    iter_commits it !! t = Some d ∧
    object.Hash d = plumbing_NewHash w commitHash ∧
    FetchCommits w' url' key' 0 mx = (Ret listing, cloned (repo m') mx) ∧
    len listing = len (iter_commits it) - 1 ∧
    content <$> listing =
      contentWith object.Message <$> delete t (iter_commits it) ∧
    (Forall (λ c, plain (object.Author c)) (iter_commits it) →
     content <$> listing =
       content <$> delete t (map (simple w) (iter_commits it))).
Proof.
  intros Ho Hlen Hinj Hrun Hfuel Hserves.
  destruct (DeleteCommit_Ret_republished w url key auth r headRef it Ho Hlen
              commitHash m m' Hrun) as (t & d & Ht & Hd & _ & H1 & ->).
  assert (Hl : length (delete t (iter_commits it))
               = (length (iter_commits it) - 1)%nat).
  { apply length_delete. by eexists. }
  destruct (listing_republished w w' object.Message auth
              (plumbing.Reference_Name headRef)
              (reverse (delete t (iter_commits it)))
              (cloned r m) url' key' fuel mx Hinj)
    as (listing & Hfetch & Hcontent).
  - by apply (delete_nonempty _ _ d).
  - apply (opens_Symbolic _ _ _ _ _ _ _ Ho).
  - by rewrite length_reverse, Hl.
  - done.
  - exists t, d, listing. rewrite reverse_involutive in Hcontent.
    split_and!; [done..| |done|].
    + apply (f_equal length) in Hcontent.
      rewrite !length_fmap, Hl in Hcontent.
      apply lookup_lt_Some in Ht. unfold len. lia.
    + intros Hplain. rewrite Hcontent, <- (list_fmap_delete (simple w)).
      apply content_plain. by apply Forall_delete.
Qed.


(** ** A second operation on what the first one pushed *)

Lemma reads_opens w url key auth r ref it :
  reads w url key auth r ref it →
  plumbing.IsBranch (plumbing.Reference_Name ref) = true →
  opens w url key auth r ref it.
Proof. intros (H1 & H2 & H3 & H4) Hb. by split_and!. Qed.

Lemma opens_IsBranch w url key auth r headRef it :
  opens w url key auth r headRef it →
  plumbing.IsBranch (plumbing.Reference_Name headRef) = true.
Proof. by intros (_ & _ & _ & Hb & _). Qed.

(** X16 — Trimming is idempotent: once [TrimOldCommits] has kept [keep]
    commits and pushed them, a second call on the pushed repository with
    the same [keep], or a greater one, finds nothing to trim and returns nil
    without storing or pushing anything. *)
Theorem trim_twice w w' url key keep keep' auth r headRef it m m'
    url' key' fuel mx :
  opens w url key auth r headRef it →
  len (iter_commits it) ≤ MaxInt →
  1 ≤ keep < len (iter_commits it) →
  (∀ a b, Hash_of w a = Hash_of w b → a = b) →
  TrimOldCommits w url key keep m = (Ret tt, m') →
  (Z.to_nat keep ≤ fuel)%nat →
  serves w' url' key' (repo m') fuel →
  keep ≤ keep' →
  TrimOldCommits w' url' key' keep' mx = (Ret tt, cloned (repo m') mx).
Proof.
  intros Ho Hlen Hkeep Hinj Hrun Hfuel Hserves Hle.
  assert (Hk : MinInt ≤ keep ≤ MaxInt).
  { unfold MinInt in *. lia. }
  destruct (TrimOldCommits_Ret_republished w url key auth r headRef it Ho
              Hlen keep m m' Hk Hrun) as [[Hle' _]|[_ ->]]; [lia|].
  assert (Hl : length (take (Z.to_nat keep) (iter_commits it))
               = Z.to_nat keep).
  { rewrite length_take. unfold len in Hkeep. lia. }
  destruct (served_republished w w' object.Message auth
              (plumbing.Reference_Name headRef)
              (reverse (take (Z.to_nat keep) (iter_commits it)))
              (cloned r m) url' key' fuel Hinj)
    as (auth' & chain & tip & Hr & _ & Hlc & _).
  - intros Hnil. apply (f_equal length) in Hnil.
    rewrite length_reverse, Hl in Hnil. cbn in Hnil. lia.
  - apply (opens_Symbolic _ _ _ _ _ _ _ Ho).
  - by rewrite length_reverse, Hl.
  - done.
  - apply reads_opens in Hr; [|apply (opens_IsBranch _ _ _ _ _ _ _ Ho)].
    rewrite (TrimOldCommits_opened _ _ _ _ _ _ _ _ _ Hr).
    cbn [iter_commits].
    rewrite length_reverse, Hl in Hlc.
    assert (Hg : (len chain <=? keep') = true).
    { apply Z.leb_le. unfold len. lia. }
    by rewrite Hg.
Qed.

(** After a republication, no commit the remote serves has a hash of the
    history before. *)
Lemma stale_republished w w' msgOf auth refName olds commits m url' key'
    fuel commitHash newMsg mx :
  (∀ a b, Hash_of w a = Hash_of w b → a = b) →
  olds ≠ [] →
  HEAD (repo m) = Symbolic refName →
  plumbing.IsBranch refName = true →
  (length olds ≤ fuel)%nat →
  serves w' url' key' (repo (republished w msgOf auth refName olds m)) fuel →
  Forall (addressed w) commits →
  (∀ c k, c ∈ commits →
     written (object.Committer c) ≠ written (committerAt (time_Now w k))) →
  plumbing_NewHash w' commitHash ∈ (object.Hash <$> commits) →
  DeleteCommit w' url' key' commitHash mx =
    (Err CommitNotFound,
     cloned (repo (republished w msgOf auth refName olds m)) mx) ∧
  ModifyCommit w' url' key' commitHash newMsg mx =
    (Err CommitNotFound,
     cloned (repo (republished w msgOf auth refName olds m)) mx).
Proof.
  intros Hinj Hne Hhead Hb Hfuel Hserves Haddr Hcommitters Hold.
  destruct (served_republished w w' msgOf auth refName olds m url' key' fuel
              Hinj Hne Hhead Hfuel Hserves)
    as (auth' & chain & tip & Hr & _ & _ & Hrw).
  apply reads_opens in Hr; [|done].
  apply (absent_target w' url' key' commitHash newMsg _ _ _ _ mx Hr).
  cbn [iter_commits]. apply Forall_forall. intros new Hnew Heq.
  apply list_elem_of_fmap in Hold as (orig & Horig & Hin).
  apply (rewrites_fresh w msgOf commits _ _ Hrw Hinj Haddr Hcommitters
           new orig Hnew Hin).
  by rewrite Heq, Horig.
Qed.

(** X17 — A rewrite makes the hashes of the history stale, unless it runs
    within a second in which the package committed already.  After a
    rewrite returned nil and the remote serves what it pushed, a hash of any
    commit of the history before names none: [DeleteCommit] and
    [ModifyCommit] called with it return [commit not found in history].
    (Hashes are the ids of the encodings and do not collide, and no commit
    of the history was committed by the package in a second the clock
    reads: the encoder keeps whole seconds, so that a commit rewritten
    within the second it was committed in can get the hash it had.) *)
Theorem rewrite_makes_hashes_stale w w' url key keep commitHash newMsg auth r
    headRef it m m' url' key' fuel staleHash anyMsg mx :
  opens w url key auth r headRef it →
  len (iter_commits it) ≤ MaxInt →
  MinInt ≤ keep ≤ MaxInt →
  (∀ a b, Hash_of w a = Hash_of w b → a = b) →
  Forall (addressed w) (iter_commits it) →
  (∀ c k, c ∈ iter_commits it →
     written (object.Committer c) ≠ written (committerAt (time_Now w k))) →
  (length (iter_commits it) ≤ fuel)%nat →
  serves w' url' key' (repo m') fuel →
  plumbing_NewHash w' staleHash ∈ (object.Hash <$> iter_commits it) →
  (TrimOldCommits w url key keep m = (Ret tt, m') ∧
     keep < len (iter_commits it)) ∨
  DeleteCommit w url key commitHash m = (Ret tt, m') ∨
  ModifyCommit w url key commitHash newMsg m = (Ret tt, m') →
  DeleteCommit w' url' key' staleHash mx =
    (Err CommitNotFound, cloned (repo m') mx) ∧
  ModifyCommit w' url' key' staleHash anyMsg mx =
    (Err CommitNotFound, cloned (repo m') mx).
Proof.
  intros Ho Hlen Hkeep Hinj Haddr Hcommitters Hfuel Hserves Hold Hrun.
  pose proof (opens_Symbolic _ _ _ _ _ _ _ Ho) as Hhead.
  pose proof (opens_IsBranch _ _ _ _ _ _ _ Ho) as Hb.
  destruct Hrun as [[Hrun Hlt]|[Hrun|Hrun]].
  - destruct (TrimOldCommits_Ret_republished w url key auth r headRef it Ho
                Hlen keep m m' Hkeep Hrun) as [[Hle _]|[Hin ->]]; [lia|].
    assert (Hl : length (take (Z.to_nat keep) (iter_commits it))
                 = Z.to_nat keep).
    { rewrite length_take. unfold len in Hin. lia. }
    apply (stale_republished w w' object.Message auth _
             (reverse (take (Z.to_nat keep) (iter_commits it)))
             (iter_commits it) (cloned r m) url' key' fuel);
      [done| |done|done| |done..].
    + intros Hnil. apply (f_equal length) in Hnil.
      rewrite length_reverse, Hl in Hnil. cbn in Hnil. lia.
    + rewrite length_reverse, Hl. unfold len in Hin. lia.
  - destruct (DeleteCommit_Ret_republished w url key auth r headRef it Ho
                Hlen commitHash m m' Hrun)
      as (t & d & Ht & _ & _ & H1 & ->).
    apply (stale_republished w w' object.Message auth _
             (reverse (delete t (iter_commits it)))
             (iter_commits it) (cloned r m) url' key' fuel);
      [done| |done|done| |done..].
    + by apply (delete_nonempty _ _ d).
    + rewrite length_reverse, length_delete by eauto. lia.
  - destruct (ModifyCommit_Ret_republished w url key auth r headRef it Ho
                Hlen commitHash newMsg m m' Hrun) as [Hfound ->].
    apply (stale_republished w w'
             (amend (plumbing_NewHash w commitHash) newMsg) auth _
             (reverse (iter_commits it))
             (iter_commits it) (cloned r m) url' key' fuel);
      [done| |done|done| |done..].
    + intros Hnil. apply (f_equal reverse) in Hnil.
      rewrite reverse_involutive in Hnil. rewrite Hnil in Hfound.
      by apply Exists_nil in Hfound.
    + by rewrite length_reverse.
Qed.

(* ================================================================== *)
(** ** Random strings *)

Lemma assign_in {A} (s : list A) (i : nat) a m :
  (i < length s)%nat →
  assign s (Z.of_nat i) a m = (Ret (<[i := a]> s), m).
Proof.
  intros Hi. unfold assign, len.
  rewrite bool_decide_eq_true_2 by lia. by rewrite Nat2Z.id.
Qed.

Section RandomFacts.
Variable rand_Int : nat → Z → error + Z.
Variable charset : string.

Let cs := String.list_ascii_of_string charset.

Ltac round Hdraw i n Hn Hrange c Hc :=
  destruct (Hdraw i) as (n & Hn & Hrange); [lia|];
  fold cs in Hn, Hrange; rewrite Hn;
  rewrite (wrap_id n) by (unfold MinInt, MaxInt in *; lia);
  destruct (lookup_lt_is_Some_2 cs (Z.to_nat n)) as [c Hc];
    [unfold len in Hrange; lia|];
  rewrite !bind_assoc;
  erewrite bind_Ret; [|rewrite <- (Z2Nat.id n) by lia; by apply index_in];
  rewrite bind_assoc;
  erewrite bind_Ret; [|apply assign_in; lia];
  erewrite bind_Ret; [|reflexivity];
  replace (Z.of_nat i + 1) with (Z.of_nat (S i)) by lia.

(** The rounds of the loop when the draws keep the contract: the bytes
    written are those the draws select. *)
Lemma RandomString_rounds (k i : nat) result m :
  len cs ≤ MaxInt →
  length result = (i + k)%nat →
  inContract rand_Int charset i k →
  ∃ result',
    forUpTo k (Z.of_nat i) (RandomString_body rand_Int charset) result m =
      (Ret (inl result'), m) ∧
    length result' = length result ∧
    take i result' = take i result ∧
    ∀ j n, (i ≤ j < i + k)%nat → rand_Int j (len cs) = inr n →
      result' !! j = cs !! Z.to_nat n.
Proof.
  intros Hcs. revert i result.
  induction k as [|k IH]; intros i result Hlen Hdraw.
  { exists result. split_and!; [done..|]. intros j n Hj. lia. }
  cbn [forUpTo]. unfold RandomString_body at 1. fold cs.
  rewrite Nat2Z.id.
  round Hdraw i n Hn Hrange c Hc.
  destruct (IH (S i) (<[i := c]> result))
    as (result' & Hrun & Hl & Htake & Hget).
  { rewrite length_insert. lia. }
  { intros j Hj. apply Hdraw. lia. }
  exists result'. split_and!.
  - exact Hrun.
  - by rewrite Hl, length_insert.
  - apply (f_equal (take i)) in Htake.
    rewrite !take_take in Htake.
    rewrite !Nat.min_l in Htake by lia.
    rewrite Htake. apply take_insert_ge. lia.
  - intros j n' Hj Hn'.
    destruct (decide (j = i)) as [->|Hne].
    + rewrite Hn in Hn'. inversion Hn'; subst n'.
      apply (f_equal (λ l, l !! i)) in Htake.
      rewrite !lookup_take_lt in Htake by lia.
      rewrite Htake, list_lookup_insert_eq by lia. done.
    + apply Hget; [lia|done].
Qed.

(** The rounds of the loop up to a draw that fails. *)
Lemma RandomString_stops (k i j : nat) e result m :
  len cs ≤ MaxInt →
  length result = (i + k)%nat →
  (i ≤ j < i + k)%nat →
  inContract rand_Int charset i (j - i) →
  rand_Int j (len cs) = inl e →
  forUpTo k (Z.of_nat i) (RandomString_body rand_Int charset) result m =
    (Ret (inr ""), m).
Proof.
  intros Hcs. revert i result.
  induction k as [|k IH]; intros i result Hlen Hj Hdraw He; [lia|].
  cbn [forUpTo]. unfold RandomString_body at 1. fold cs.
  rewrite Nat2Z.id.
  destruct (decide (j = i)) as [->|Hne].
  { by rewrite He. }
  round Hdraw i n Hn Hrange c Hc.
  apply IH; [rewrite length_insert; lia|lia| |done].
  intros j' Hj'. apply Hdraw. lia.
Qed.

Lemma len_charset_pos : charset ≠ "" → (len cs =? 0) = false.
Proof.
  intros Hne. apply Z.eqb_neq. unfold len, cs.
  destruct charset; [done|]. cbn. lia.
Qed.
End RandomFacts.

Lemma string_length_of_list l :
  String.length (String.string_of_list_ascii l) = length l.
Proof. induction l as [|a l IH]; cbn; [done|by rewrite IH]. Qed.

(** X18 — [RandomString] with an empty charset returns the empty string
    whatever the length, also a negative one; with any other charset a
    negative length panics in [make]. *)
Theorem RandomString_edges rand_Int length charset m :
  RandomString rand_Int length "" m = (Ret "", m) ∧
  (charset ≠ "" → length < 0 →
   RandomString rand_Int length charset m =
   (Panicked MakesliceLenOutOfRange, m)).
Proof.
  split; [done|]. intros Hne Hneg. unfold RandomString.
  rewrite len_charset_pos by done.
  by rewrite (bind_Panicked _ _ _ MakesliceLenOutOfRange m)
    by (apply makeBytes_out; by left).
Qed.

(** X19 — When every draw answers within the charset, [RandomString] returns
    a string of [length] bytes whose [j]-th byte is the byte of the charset
    at the [j]-th draw; so every byte of the result is one of the charset.
    ([length] is one [make] accepts: not negative, and [maxAlloc] at
    most.) *)
Theorem RandomString_draws rand_Int length charset m :
  0 ≤ length ≤ maxAlloc →
  charset ≠ "" →
  len (String.list_ascii_of_string charset) ≤ MaxInt →
  inContract rand_Int charset 0 (Z.to_nat length) →
  ∃ s,
    RandomString rand_Int length charset m = (Ret s, m) ∧
    Z.of_nat (String.length s) = length ∧
    (∀ (j : nat) n, Z.of_nat j < length →
       rand_Int j (len (String.list_ascii_of_string charset)) = inr n →
       String.list_ascii_of_string s !! j =
       String.list_ascii_of_string charset !! Z.to_nat n) ∧
    Forall (λ c, c ∈ String.list_ascii_of_string charset)
      (String.list_ascii_of_string s).
Proof.
  intros Hlen Hne Hcs Hdraw. unfold RandomString.
  rewrite len_charset_pos by done.
  erewrite bind_Ret; [|by apply makeBytes_ok].
  destruct (RandomString_rounds rand_Int charset (Z.to_nat length) 0
              (replicate (Z.to_nat length) Ascii.zero) m Hcs)
    as (result' & Hrun & Hl & _ & Hget);
    [by rewrite length_replicate|done|].
  change (Z.of_nat 0) with 0 in Hrun.
  erewrite bind_Ret; [|exact Hrun].
  exists (String.string_of_list_ascii result'). split_and!.
  - done.
  - rewrite string_length_of_list, Hl, length_replicate. lia.
  - intros j n Hj Hn.
    rewrite String.list_ascii_of_string_of_list_ascii.
    apply Hget; [lia|done].
  - rewrite String.list_ascii_of_string_of_list_ascii.
    apply Forall_lookup_2. intros j c Hc.
    assert (Hjlt : (j < Z.to_nat length)%nat).
    { apply lookup_lt_Some in Hc. rewrite Hl, length_replicate in Hc. lia. }
    destruct (Hdraw j) as (n & Hn & Hrange); [lia|].
    rewrite (Hget j n) in Hc by (done || lia).
    by apply list_elem_of_lookup_2 in Hc.
Qed.

(** X20 — When a draw fails, the draws before it having answered within the
    charset, [RandomString] returns the empty string: the bytes chosen so
    far are dropped.  ([length] is one [make] accepts.) *)
Theorem RandomString_draw_fails rand_Int length charset (j : nat) e m :
  charset ≠ "" →
  len (String.list_ascii_of_string charset) ≤ MaxInt →
  Z.of_nat j < length ≤ maxAlloc →
  inContract rand_Int charset 0 j →
  rand_Int j (len (String.list_ascii_of_string charset)) = inl e →
  RandomString rand_Int length charset m = (Ret "", m).
Proof.
  intros Hne Hcs Hj Hdraw He. unfold RandomString.
  rewrite len_charset_pos by done.
  erewrite bind_Ret; [|apply makeBytes_ok; lia].
  assert (Hrun := RandomString_stops rand_Int charset (Z.to_nat length) 0 j e
                    (replicate (Z.to_nat length) Ascii.zero) m Hcs).
  change (Z.of_nat 0) with 0 in Hrun.
  rewrite (bind_Ret _ _ _ (inr "") m); [reflexivity|].
  apply Hrun; [by rewrite length_replicate|lia| |done].
  by rewrite Nat.sub_0_r.
Qed.

Lemma RandomString_made rand_Int length charset m :
  0 ≤ length ≤ maxAlloc →
  charset ≠ "" →
  len (String.list_ascii_of_string charset) ≤ MaxInt →
  inContract rand_Int charset 0 (Z.to_nat length) →
  ∃ s,
    RandomString rand_Int length charset m = (Ret s, m) ∧
    Z.of_nat (String.length s) = length ∧
    Forall (λ c, c ∈ String.list_ascii_of_string charset)
      (String.list_ascii_of_string s).
Proof.
  intros Hlen Hne Hcs Hdraw. unfold RandomString.
  rewrite len_charset_pos by done.
  erewrite bind_Ret; [|by apply makeBytes_ok].
  destruct (RandomString_rounds rand_Int charset (Z.to_nat length) 0
              (replicate (Z.to_nat length) Ascii.zero) m Hcs)
    as (result' & Hrun & Hl & _ & Hget);
    [by rewrite length_replicate|done|].
  change (Z.of_nat 0) with 0 in Hrun.
  erewrite bind_Ret; [|exact Hrun].
  exists (String.string_of_list_ascii result'). split_and!.
  - done.
  - rewrite string_length_of_list, Hl, length_replicate. lia.
  - rewrite String.list_ascii_of_string_of_list_ascii.
    apply Forall_lookup_2. intros j c Hc.
    assert (Hjlt : (j < Z.to_nat length)%nat).
    { apply lookup_lt_Some in Hc. rewrite Hl, length_replicate in Hc. lia. }
    destruct (Hdraw j) as (n & Hn & Hrange); [lia|].
    rewrite (Hget j n) in Hc by (done || lia).
    by apply list_elem_of_lookup_2 in Hc.
Qed.

(** X21 — [RandomStringDefault] returns [length] bytes, each a digit or a
    letter of ASCII, when the draws answer below 62 and [length] is one
    [make] accepts; with a negative [length], or one above [maxAlloc], it
    panics in [make]. *)
Theorem RandomStringDefault_alphanumeric rand_Int length m :
  (0 ≤ length ≤ maxAlloc →
   (∀ j : nat, Z.of_nat j < length →
      ∃ n, rand_Int j 62 = inr n ∧ 0 ≤ n < 62) →
   ∃ s,
     RandomStringDefault rand_Int length m = (Ret s, m) ∧
     Z.of_nat (String.length s) = length ∧
     Forall (λ c, alphanumeric c = true) (String.list_ascii_of_string s)) ∧
  (length < 0 ∨ maxAlloc < length →
   RandomStringDefault rand_Int length m =
   (Panicked MakesliceLenOutOfRange, m)).
Proof.
  split.
  - intros Hlen Hdraw.
    destruct (RandomString_made rand_Int length defaultCharset m)
      as (s & Hrun & Hl & Hall); [done|done|by vm_compute| |].
    { intros j Hj. apply Hdraw. lia. }
    exists s. split_and!; [done..|].
    eapply Forall_impl; [exact Hall|]. intros c Hc. cbv beta in Hc.
    assert (Hcs : Forall (λ c, alphanumeric c = true)
                    (String.list_ascii_of_string defaultCharset)).
    { apply Forall_forallb. by vm_compute. }
    by apply (proj1 (Forall_forall _ _) Hcs).
  - intros Hout. unfold RandomStringDefault, RandomString.
    rewrite len_charset_pos by done.
    by rewrite (bind_Panicked _ _ _ MakesliceLenOutOfRange m)
      by (by apply makeBytes_out).
Qed.

Lemma cycling_inContract charset i k :
  charset ≠ "" → inContract Scene.cycling charset i k.
Proof.
  intros Hne j _. eexists. split; [reflexivity|].
  apply Z.mod_pos_bound.
  destruct charset; [done|]. unfold len. cbn. lia.
Qed.

Lemma RandomString_edges_witness :
  RandomString Scene.cycling (-1) "ab" Sample.boot =
  (Panicked MakesliceLenOutOfRange, Sample.boot).
Proof.
  apply (RandomString_edges Scene.cycling (-1) "ab" Sample.boot); [done|lia].
Defined.

Lemma RandomString_draws_witness :
  ∃ s, RandomString Scene.cycling 5 "ab" Sample.boot = (Ret s, Sample.boot) ∧
       Z.of_nat (String.length s) = 5 ∧
       Forall (λ c, c ∈ String.list_ascii_of_string "ab")
         (String.list_ascii_of_string s).
Proof.
  destruct (RandomString_draws Scene.cycling 5 "ab" Sample.boot)
    as (s & Hrun & Hl & _ & Hall);
    [by vm_compute|done|by vm_compute|by apply cycling_inContract|].
  by exists s.
Defined.

Lemma RandomString_draw_fails_witness :
  RandomString Scene.failingAt2 5 "ab" Sample.boot = (Ret "", Sample.boot).
Proof.
  apply (RandomString_draw_fails Scene.failingAt2 5 "ab" 2 (New "entropy")
           Sample.boot); [done|by vm_compute|by vm_compute| |done].
  intros j Hj. unfold Scene.failingAt2.
  rewrite bool_decide_eq_false_2 by lia.
  by apply (cycling_inContract "ab" 0 2).
Defined.

Lemma RandomStringDefault_alphanumeric_witness :
  ∃ s, RandomStringDefault Scene.cycling 8 Sample.boot = (Ret s, Sample.boot) ∧
       Z.of_nat (String.length s) = 8 ∧
       Forall (λ c, alphanumeric c = true) (String.list_ascii_of_string s).
Proof.
  apply (proj1 (RandomStringDefault_alphanumeric Scene.cycling 8 Sample.boot));
    [by vm_compute|].
  intros j _. eexists. split; [reflexivity|]. by apply Z.mod_pos_bound.
Defined.

(** ** [RandomHexString] *)

Lemma hexDigit_hexadecimal (b : Byte.byte) :
  hexadecimal (hexDigit (Byte.to_N b / 16)) = true ∧
  hexadecimal (hexDigit (Byte.to_N b mod 16)) = true.
Proof. destruct b; by vm_compute. Qed.

Lemma hex_EncodeToString_length bs :
  String.length (hex_EncodeToString bs) = (2 * length bs)%nat.
Proof. induction bs as [|b bs IH]; cbn; [done|]. rewrite IH. lia. Qed.

Lemma hex_EncodeToString_hexadecimal bs :
  Forall (λ c, hexadecimal c = true)
    (String.list_ascii_of_string (hex_EncodeToString bs)).
Proof.
  induction bs as [|b bs IH]; [constructor|].
  cbn [hex_EncodeToString String.list_ascii_of_string].
  destruct (hexDigit_hexadecimal b) as [Hh Hl].
  by repeat constructor.
Qed.

(** X22 — [RandomHexString(length)] returns [2 * (length / 2)] digits of
    lower-case hexadecimal, the division truncating: [length] digits when
    [length] is even and not negative, one less when it is odd and
    positive, none for [-1]; this as long as the digits are not more than
    [maxAlloc].  From [-2] down it panics in [make], and so it does when
    the digits are more than [maxAlloc]: in its own [make] when the bytes
    are, and in the one of [hex.EncodeToString] otherwise. *)
Theorem RandomHexString_digits w length m :
  (∀ n, Datatypes.length (rand_Read w n) = n) →
  (-2 < length → 2 * (length ÷ 2) ≤ maxAlloc →
   ∃ s, RandomHexString w length m = (Ret s, m) ∧
        Z.of_nat (String.length s) = 2 * (length ÷ 2) ∧
        (0 ≤ length → Z.of_nat (String.length s) = length - length mod 2) ∧
        Forall (λ c, hexadecimal c = true) (String.list_ascii_of_string s)) ∧
  (length ≤ -2 ∨ maxAlloc < 2 * (length ÷ 2) →
   RandomHexString w length m = (Panicked MakesliceLenOutOfRange, m)).
Proof.
  intros Hfill. unfold RandomHexString. cbv zeta. split.
  - intros Hlen Hmem.
    assert (Hq : 0 ≤ length ÷ 2).
    { destruct (decide (0 ≤ length)) as [H0|H0].
      - by apply Z.quot_pos.
      - replace length with (-1) by lia. by vm_compute. }
    rewrite (bind_Ret _ _ _ tt m) by (apply makeslice_ok; lia).
    rewrite (bind_Ret _ _ _ tt m) by (apply makeslice_ok; lia).
    eexists. split_and!; [reflexivity| | |].
    + rewrite hex_EncodeToString_length, Hfill. lia.
    + intros H0. rewrite hex_EncodeToString_length, Hfill.
      rewrite Z.quot_div_nonneg by lia. clear Hq Hmem.
      assert (Hd : 0 ≤ length `div` 2) by (apply Z.div_pos; lia).
      assert (Hm : length = 2 * (length `div` 2) + length `mod` 2)
        by (apply Z.div_mod; lia).
      rewrite Nat2Z.inj_mul, Z2Nat.id by done.
      change (Z.of_nat 2) with 2. rewrite Hm at 2. ring.
    + apply hex_EncodeToString_hexadecimal.
  - intros Hout.
    assert (Hcases : length ÷ 2 < 0 ∨ maxAlloc < length ÷ 2 ∨
                     0 ≤ length ÷ 2 ≤ maxAlloc ∧ maxAlloc < 2 * (length ÷ 2)).
    { destruct Hout as [Hlen|Hbig]; [left|lia].
      assert (Hm : length ÷ 2 ≤ (-2) ÷ 2) by (apply Z.quot_le_mono; lia).
      assert (Hq : (-2) ÷ 2 = -1) by reflexivity.
      rewrite Hq in Hm. lia. }
    destruct Hcases as [Hneg|[Hbig|[Hfits Hbig]]].
    + by rewrite (bind_Panicked _ _ _ MakesliceLenOutOfRange m)
        by (apply makeslice_len; by left).
    + by rewrite (bind_Panicked _ _ _ MakesliceLenOutOfRange m)
        by (apply makeslice_len; by right).
    + rewrite (bind_Ret _ _ _ tt m) by (apply makeslice_ok; lia).
      by rewrite (bind_Panicked _ _ _ MakesliceLenOutOfRange m)
        by (apply makeslice_len; by right).
Qed.

Lemma RandomHexString_digits_witness :
  ∃ s, RandomHexString Sample.world 5 Sample.boot = (Ret s, Sample.boot) ∧
       Z.of_nat (String.length s) = 4.
Proof.
  destruct (RandomHexString_digits Sample.world 5 Sample.boot) as [Hok _].
  { intros n. apply length_replicate. }
  destruct Hok as (s & Hrun & Hl & _); [lia|by vm_compute|].
  exists s. split; [exact Hrun|]. rewrite Hl. by vm_compute.
Defined.

(* ================================================================== *)
(** ** [CloneOrUpdate] *)

Lemma unhex_hexDigits (b : Byte.byte) :
  Byte.of_N (16 * unhexDigit (hexDigit (Byte.to_N b / 16))
             + unhexDigit (hexDigit (Byte.to_N b mod 16))) = Some b.
Proof. destruct b; vm_compute; reflexivity. Qed.

Lemma unhex_hex bs : unhex (hex_EncodeToString bs) = bs.
Proof.
  induction bs as [|b bs IH]; [done|].
  cbn [hex_EncodeToString unhex]. by rewrite unhex_hexDigits, IH.
Qed.

Lemma hex_EncodeToString_inj bs1 bs2 :
  hex_EncodeToString bs1 = hex_EncodeToString bs2 → bs1 = bs2.
Proof.
  intros H. apply (f_equal unhex) in H. by rewrite !unhex_hex in H.
Qed.

Lemma IsRemote_nonempty r : IsRemote r = true → r ≠ "".
Proof. by intros H ->. Qed.

Lemma References_ForEach_cb refs tail :
  (References_ForEach refs tail Resetting.CloneOrUpdate_cb None).1 =
  firstRemote refs.
Proof.
  unfold firstRemote.
  induction refs as [|r refs IH]; [done|].
  cbn [References_ForEach]. unfold Resetting.CloneOrUpdate_cb at 1.
  cbn [list_find].
  destruct (IsRemote (plumbing.Reference_Name r)) eqn:Hr.
  - rewrite bool_decide_eq_false_2 by by apply IsRemote_nonempty.
    cbn [andb negb]. by rewrite decide_True.
  - cbn [andb]. rewrite decide_False by done.
    rewrite IH. by destruct (list_find _ refs) as [[i x]|].
Qed.

(** X23 — [CloneOrUpdate], in both copies, keeps a repository in the
    directory named by the SHA-256 of its address, in hexadecimal, under the
    base directory: that is the root of the file system it hands out.  The
    name has twice as many digits as the digest has bytes (64 for the 32 of
    SHA-256), all of lower-case hexadecimal, and two addresses have the same
    name only when their digests are the same. *)
Theorem CloneOrUpdate_directory w d baseDir repoURL auth repo root :
  Pulling.CloneOrUpdate w d baseDir repoURL auth = inr (repo, root) ∨
  Resetting.CloneOrUpdate w d baseDir repoURL auth = inr (repo, root) →
  let folderName := hex_EncodeToString (sha256_Sum256 d repoURL) in
  root = filepath_Join d baseDir folderName ∧
  String.length folderName = (2 * length (sha256_Sum256 d repoURL))%nat ∧
  Forall (λ c, hexadecimal c = true) (String.list_ascii_of_string folderName) ∧
  ∀ other,
    hex_EncodeToString (sha256_Sum256 d other) = folderName →
    sha256_Sum256 d other = sha256_Sum256 d repoURL.
Proof.
  intros Hrun folderName. split_and!.
  - destruct Hrun as [Hrun|Hrun].
    + unfold Pulling.CloneOrUpdate in Hrun. cbv zeta in Hrun.
      fold folderName in Hrun.
      change (repoDirOf d baseDir repoURL)
        with (filepath_Join d baseDir folderName) in Hrun.
      destruct (Stat_IsNotExist d _).
      * destruct (git_PlainClone d _ repoURL auth); by inversion Hrun.
      * destruct (git_PlainOpen d _) as [e|r0]; [done|].
        destruct (Repository_Worktree_err w r0); [done|].
        destruct (Worktree_Pull d r0 "origin" auth) as [[e|] r1].
        -- destruct (negb _); by inversion Hrun.
        -- by inversion Hrun.
    + unfold Resetting.CloneOrUpdate in Hrun. cbv zeta in Hrun.
      change (repoDirOf d baseDir repoURL)
        with (filepath_Join d baseDir folderName) in Hrun.
      assert (Hreset : ∀ r1,
        Resetting.CloneOrUpdate_reset w d r1
          (filepath_Join d baseDir folderName) = inr (repo, root) →
        root = filepath_Join d baseDir folderName).
      { intros r1 H. unfold Resetting.CloneOrUpdate_reset in H.
        destruct (Repository_References d r1) as [e|[refs tail]]; [done|].
        cbv zeta in H.
        destruct (References_ForEach refs tail _ None).1; [|done].
        destruct (Repository_Worktree_err w r1); [done|].
        destruct (Worktree_Reset d r1 _); by inversion H. }
      destruct (Stat_IsNotExist d _).
      * destruct (git_PlainClone d _ repoURL auth); by inversion Hrun.
      * destruct (git_PlainOpen d _) as [e|r0]; [done|].
        destruct (Repository_Fetch d r0 "origin" auth true) as [[e|] r1].
        -- destruct (negb _); [done|]. by apply (Hreset r1).
        -- by apply (Hreset r1).
  - apply hex_EncodeToString_length.
  - apply hex_EncodeToString_hexadecimal.
  - intros other. apply hex_EncodeToString_inj.
Qed.

(** X24 — For a directory that exists and opens, [CloneOrUpdate] of
    [git.go] pulls [origin] and returns the repository as the pull left it
    when the pull returns nil or an error that is (or wraps) "already
    up-to-date"; any other error of the pull is returned wrapped as
    [pull]. *)
Theorem CloneOrUpdate_pulls w d baseDir repoURL auth r out r' :
  Stat_IsNotExist d (repoDirOf d baseDir repoURL) = false →
  git_PlainOpen d (repoDirOf d baseDir repoURL) = inr r →
  Repository_Worktree_err w r = None →
  Worktree_Pull d r "origin" auth = (out, r') →
  Pulling.CloneOrUpdate w d baseDir repoURL auth =
  match out with
  | Some e =>
      if errors_Is e NoErrAlreadyUpToDate
      then inr (r', repoDirOf d baseDir repoURL)
      else inl (Wrap "pull" e)
  | None => inr (r', repoDirOf d baseDir repoURL)
  end.
Proof.
  intros Hstat Hopen Hw Hpull. unfold Pulling.CloneOrUpdate. cbv zeta.
  rewrite Hstat, Hopen, Hw, Hpull.
  destruct out as [e|]; [|done].
  by destruct (errors_Is e NoErrAlreadyUpToDate).
Qed.

(** X25 — For a directory that exists and opens, the other copy of
    [CloneOrUpdate] fetches [origin] with force and resets the work tree,
    hard, to the first reference whose name starts with [refs/remotes/] in
    the order the reference iterator yields them, whatever branch that is;
    the error the iterator ends with is not looked at.  With no such
    reference it returns [no remote branch found]. *)
Theorem CloneOrUpdate_resets_to_first_remote w d baseDir repoURL auth r out r'
    refs tail :
  Stat_IsNotExist d (repoDirOf d baseDir repoURL) = false →
  git_PlainOpen d (repoDirOf d baseDir repoURL) = inr r →
  Repository_Fetch d r "origin" auth true = (out, r') →
  upToDateOrNil out = true →
  Repository_References d r' = inr (refs, tail) →
  Resetting.CloneOrUpdate w d baseDir repoURL auth =
  match firstRemote refs with
  | None => inl (New "no remote branch found")
  | Some remoteRef =>
      match Repository_Worktree_err w r' with
      | Some err => inl (Wrap "get worktree" err)
      | None =>
          match Worktree_Reset d r' (plumbing.Reference_Hash remoteRef) with
          | inl err => inl (Wrap "reset" err)
          | inr repo => inr (repo, repoDirOf d baseDir repoURL)
          end
      end
  end.
Proof.
  intros Hstat Hopen Hfetch Hok Hrefs. unfold Resetting.CloneOrUpdate.
  cbv zeta. rewrite Hstat, Hopen, Hfetch.
  assert (Hreset :
    Resetting.CloneOrUpdate_reset w d r' (repoDirOf d baseDir repoURL) =
    match firstRemote refs with
    | None => inl (New "no remote branch found")
    | Some remoteRef =>
        match Repository_Worktree_err w r' with
        | Some err => inl (Wrap "get worktree" err)
        | None =>
            match Worktree_Reset d r' (plumbing.Reference_Hash remoteRef) with
            | inl err => inl (Wrap "reset" err)
            | inr repo => inr (repo, repoDirOf d baseDir repoURL)
            end
        end
    end).
  { unfold Resetting.CloneOrUpdate_reset. rewrite Hrefs. cbv zeta.
    by rewrite References_ForEach_cb. }
  destruct out as [e|]; [|done].
  cbn [upToDateOrNil] in Hok. by rewrite Hok.
Qed.

(** ** [CloneOrUpdate] at the sample disk *)

Lemma disk_pulls :
  Pulling.CloneOrUpdate Sample.world Scene.disk "base" "u" Sample.auth =
  inr (Scene.onDisk, repoDirOf Scene.disk "base" "u").
Proof. reflexivity. Qed.

Lemma CloneOrUpdate_directory_witness :
  String.length (hex_EncodeToString (sha256_Sum256 Scene.disk "u")) = 64%nat ∧
  Forall (λ c, hexadecimal c = true)
    (String.list_ascii_of_string
       (hex_EncodeToString (sha256_Sum256 Scene.disk "u"))).
Proof.
  destruct (CloneOrUpdate_directory Sample.world Scene.disk "base" "u"
              Sample.auth Scene.onDisk (repoDirOf Scene.disk "base" "u")
              (or_introl disk_pulls)) as (_ & Hl & Hhex & _).
  split; [exact Hl|exact Hhex].
Defined.

Lemma CloneOrUpdate_pulls_witness :
  Pulling.CloneOrUpdate Sample.world Scene.disk "base" "u" Sample.auth =
  inr (Scene.onDisk, repoDirOf Scene.disk "base" "u").
Proof.
  apply (CloneOrUpdate_pulls Sample.world Scene.disk "base" "u" Sample.auth
           Scene.onDisk (Some NoErrAlreadyUpToDate) Scene.onDisk);
    reflexivity.
Defined.

Lemma disk_firstRemote :
  firstRemote Scene.references =
  Some (plumbing.NewHashReference "refs/remotes/origin/dev" 7%N).
Proof. vm_compute. reflexivity. Qed.

Lemma CloneOrUpdate_resets_to_first_remote_witness :
  Resetting.CloneOrUpdate Sample.world Scene.disk "base" "u" Sample.auth =
  inr ({| Objects := ∅; Trees := ∅; HEAD := Symbolic Sample.main;
          Refs := <[Sample.main := 7%N]> (<[Sample.main := 8%N]> ∅) |},
       repoDirOf Scene.disk "base" "u").
Proof.
  rewrite (CloneOrUpdate_resets_to_first_remote Sample.world Scene.disk
             "base" "u" Sample.auth Scene.onDisk None Scene.onDisk
             Scene.references None);
    [|reflexivity..].
  by rewrite disk_firstRemote.
Defined.

(* ================================================================== *)
(** ** The properties of the operations at the scenes *)

Lemma opens_functional w url key auth r headRef it auth' r' headRef' it' :
  opens w url key auth r headRef it →
  opens w url key auth' r' headRef' it' →
  auth' = auth ∧ r' = r ∧ headRef' = headRef ∧ it' = it.
Proof.
  intros ((pk & Hpk & ->) & Hc & Hh & _ & Hl)
         ((pk' & Hpk' & ->) & Hc' & Hh' & _ & Hl').
  rewrite Hpk in Hpk'. inversion Hpk'; subst pk'.
  rewrite Hc in Hc'. inversion Hc'; subst r'.
  rewrite Hh in Hh'. inversion Hh'; subst headRef'.
  rewrite Hl in Hl'. by inversion Hl'.
Qed.

Lemma sample_bound storeErr push auth r headRef it :
  opens (Sample.worldOf Sample.origin Sample.target storeErr push) "u" "k"
    auth r headRef it →
  len (iter_commits it) ≤ MaxInt.
Proof.
  intros Ho.
  destruct (opens_functional _ _ _ _ _ _ _ _ _ _ _
              (sample_opens storeErr push) Ho) as (_ & _ & _ & ->).
  done.
Qed.

Lemma run_pairing {A} (c : M A) m : c m = ((c m).1, (c m).2).
Proof. by destruct (c m). Qed.

Lemma last_elem_of {A} (l : list A) x : last l = Some x → x ∈ l.
Proof.
  intros H. apply last_Some in H as [l' ->].
  apply elem_of_app. right. apply list_elem_of_here.
Qed.

(** ** The theorems at the scenes *)

Lemma brokenLog_reads :
  reads Scene.brokenLog "u" "k" Sample.auth Sample.origin Sample.headRef
    Scene.cut.
Proof.
  split_and!.
  - by eexists.
  - done.
  - by vm_compute.
  - done.
Qed.

Lemma FetchCommits_iterator_error_witness :
  FetchCommits Scene.brokenLog "u" "k" 0 Sample.boot =
  (Err (Wrap "iterate log" (Sentinel "unexpected EOF")),
   cloned Sample.origin Sample.boot).
Proof.
  rewrite (FetchCommits_iterator_error Scene.brokenLog "u" "k" 0 Sample.auth
             Sample.origin Sample.headRef Scene.cut
             (Sentinel "unexpected EOF") Sample.boot brokenLog_reads).
  - reflexivity.
  - reflexivity.
  - split; [lia|by vm_compute].
  - by vm_compute.
  - by left.
Defined.

Lemma detached_reads :
  reads Scene.detachedWorld "u" "k" Sample.auth Scene.detached
    Scene.detachedRef Sample.log.
Proof.
  split_and!.
  - by eexists.
  - done.
  - done.
  - by vm_compute.
Qed.

Lemma writes_need_a_branch_witness :
  TrimOldCommits Scene.detachedWorld "u" "k" 2 Sample.boot =
    (Err (NotOnBranch "HEAD"), cloned Scene.detached Sample.boot) ∧
  DeleteCommit Scene.detachedWorld "u" "k" "C1" Sample.boot =
    (Err (NotOnBranch "HEAD"), cloned Scene.detached Sample.boot) ∧
  ModifyCommit Scene.detachedWorld "u" "k" "C1" "fixed" Sample.boot =
    (Err (NotOnBranch "HEAD"), cloned Scene.detached Sample.boot) ∧
  PushCommit Scene.detachedWorld "u" "k" "note" Sample.boot =
    (Err (NotOnBranch "HEAD"), cloned Scene.detached Sample.boot) ∧
  FetchCommits Scene.detachedWorld "u" "k" 0 Sample.boot =
    (Ret (map (simple Scene.detachedWorld) [Sample.C2; Sample.C1; Sample.C0]),
     cloned Scene.detached Sample.boot).
Proof.
  destruct (writes_need_a_branch Scene.detachedWorld "u" "k" 2 "C1" "fixed"
              "note" Sample.auth Scene.detached Scene.detachedRef Sample.log
              Sample.boot detached_reads eq_refl)
    as (H1 & H2 & H3 & H4 & H5).
  split_and!; [exact H1|exact H2|exact H3|exact (H4 eq_refl)|
               exact (H5 eq_refl)].
Defined.

Lemma settled_delete_pushes :
  last (trace (DeleteCommit Sample.settled "u" "k" "C1" Sample.boot).2) =
  Some (EvPush (forcePush Sample.auth Sample.main)
          (Some NoErrAlreadyUpToDate)).
Proof. vm_compute. reflexivity. Qed.

Lemma rewrite_push_is_final_witness :
  (DeleteCommit Sample.settled "u" "k" "C1" Sample.boot).1 =
  Err (Wrap "push" NoErrAlreadyUpToDate).
Proof.
  destruct (rewrite_push_is_final Sample.settled "u" "k" 2 "C1" "fixed"
              (DeleteCommit Sample.settled "u" "k" "C1") Sample.boot
              (DeleteCommit Sample.settled "u" "k" "C1" Sample.boot).1
              (DeleteCommit Sample.settled "u" "k" "C1" Sample.boot).2
              (trace (DeleteCommit Sample.settled "u" "k" "C1"
                        Sample.boot).2)
              (forcePush Sample.auth Sample.main)
              (Some NoErrAlreadyUpToDate))
    as (auth & r & headRef & it & news & tip & _ & _ & _ & _ & _ & _ & _ & Hres).
  - apply sample_bound.
  - exact sample_keep_range.
  - apply list_elem_of_further, list_elem_of_here.
  - apply run_pairing.
  - reflexivity.
  - apply last_elem_of, settled_delete_pushes.
  - exact Hres.
Defined.

Lemma PushCommit_pushes_once_witness :
  let run := PushCommit Sample.settled "u" "k" "note" Sample.boot in
  (failed run.1 = true ∧ trace run.2 = trace Sample.boot) ∨
  (∃ pk r ref out,
     ssh_NewPublicKeys Sample.settled "git" "k" "" = inr pk ∧
     git_Clone Sample.settled "u" (insecure pk) = inr r ∧
     resolveHead r = inr ref ∧
     plumbing.IsBranch (plumbing.Reference_Name ref) = true ∧
     trace run.2 =
       trace Sample.boot ++
       [EvPush (plainPush (insecure pk) (plumbing.Reference_Name ref)) out] ∧
     out = Repository_Push Sample.settled (repo run.2)
             (plainPush (insecure pk) (plumbing.Reference_Name ref)) ∧
     run.1 = PushCommit_result out).
Proof.
  cbv zeta.
  apply (PushCommit_pushes_once Sample.settled "u" "k" "note" Sample.boot).
  apply run_pairing.
Defined.

Lemma sample_resolveHead : resolveHead Sample.origin = inr Sample.headRef.
Proof. vm_compute. reflexivity. Qed.

Lemma PushCommit_commits_witness :
  PushCommit Sample.world "u" "k" "note" Sample.boot =
  (Ret tt,
   {| repo := Sample.origin; clock := 1;
      trace := [EvPush {| Auth := Sample.auth; Force := false;
                          RefSpecs := ["refs/heads/main:refs/heads/main"] |}
                  None] |}).
Proof.
  destruct (PushCommit_commits Sample.world "u" "k" "note" Scene.key
              Sample.origin Sample.headRef Sample.origin Sample.origin
              Sample.boot) as [Hrun _];
    [reflexivity|reflexivity|reflexivity|exact sample_resolveHead|
     reflexivity..|].
  exact Hrun.
Defined.

Lemma prelude_errors_witness :
  TrimOldCommits (refusing Sample.world (New "bad key")) "u" "k" 2 Sample.boot
    = (Err (Wrap "create public keys" (New "bad key")), Sample.boot) ∧
  PushCommit (refusing Sample.world (New "bad key")) "u" "k" "note" Sample.boot
    = (Err (Wrap "create public keys" (New "bad key")), Sample.boot).
Proof.
  destruct (prelude_errors (refusing Sample.world (New "bad key")) "u" "k" 0
              2 "C1" "fixed" "note" Sample.boot) as (Hkey & _).
  destruct (Hkey (New "bad key") eq_refl) as (_ & Ht & _ & _ & Hp & _).
  split; [exact Ht|exact Hp].
Defined.

Lemma sample_amend_listed :
  ModifyCommit Sample.world "u" "k" "C1" "fixed"
    ∈ [TrimOldCommits Sample.world "u" "k" 2;
       DeleteCommit Sample.world "u" "k" "C1";
       ModifyCommit Sample.world "u" "k" "C1" "fixed"].
Proof. apply list_elem_of_further, list_elem_of_further, list_elem_of_here. Qed.

Lemma rewrite_committer_times_witness :
  ∃ news,
    stored (trace Sample.amended) = stored (trace Sample.boot) ++ news ∧
    clock Sample.amended = (clock Sample.boot + length news)%nat ∧
    ∀ (j : nat) c, news !! j = Some c →
      object.Committer c =
      {| object.Name := "MixGram"; object.Email := "admin@mixgram.org";
         object.When :=
           time_Unix
             (Z.max 0 (Unix (time_Now Sample.world (clock Sample.boot + j))))
      |}.
Proof.
  apply (rewrite_committer_times Sample.world "u" "k" 2 "C1" "fixed"
           Sample.auth Sample.origin Sample.headRef Sample.log
           (ModifyCommit Sample.world "u" "k" "C1" "fixed") Sample.boot
           Sample.amended sample_world_opens).
  - exact (proj2 sample_len_bounds).
  - exact sample_keep_range.
  - exact sample_amend_listed.
  - exact amended_run.
Defined.

Lemma rewrite_success_is_pushed_witness :
  ∃ evs,
    trace Sample.amended =
      trace Sample.boot ++ evs ++
      [EvPush (forcePush Sample.auth Sample.main) None] ∧
    Repository_Push Sample.world (repo Sample.amended)
      (forcePush Sample.auth Sample.main) = None.
Proof.
  destruct (rewrite_success_is_pushed Sample.world "u" "k" 2 "C1" "fixed"
              Sample.auth Sample.origin Sample.headRef Sample.log
              Sample.boot Sample.amended sample_world_opens
              (proj2 sample_len_bounds) sample_keep_range)
    as (_ & _ & Hmodify).
  exact (Hmodify amended_run).
Defined.

Lemma sample_unknown :
  Forall (λ c, object.Hash c ≠ plumbing_NewHash Sample.world "zz")
    (iter_commits Sample.log).
Proof. repeat constructor; by vm_compute. Qed.

Lemma unknown_commit_is_refused_witness :
  DeleteCommit Sample.world "u" "k" "zz" Sample.boot
    = (Err CommitNotFound, cloned Sample.origin Sample.boot) ∧
  ModifyCommit Sample.world "u" "k" "zz" "fixed" Sample.boot
    = (Err CommitNotFound, cloned Sample.origin Sample.boot).
Proof.
  destruct (unknown_commit_is_refused Sample.world "u" "k" "zz" "fixed"
              Sample.auth Sample.origin Sample.headRef Sample.log Sample.boot
              sample_world_opens sample_unknown) as (Hd & Hm & _).
  split; [exact Hd|exact Hm].
Defined.

Lemma writes_never_panic_witness :
  panicked (PushCommit Sample.world "u" "k" "note" Sample.boot).1 = false ∧
  panicked (DeleteCommit Sample.world "u" "k" "C1" Sample.boot).1 = false ∧
  panicked (ModifyCommit Sample.world "u" "k" "C1" "fixed" Sample.boot).1
    = false.
Proof.
  apply (writes_never_panic Sample.world "u" "k" "C1" "fixed" "note"
           Sample.boot).
  intros auth r headRef it. apply sample_bound.
Defined.




Lemma trimmed_run :
  TrimOldCommits Sample.world "u" "k" 2 Sample.boot = (Ret tt, Scene.trimmed).
Proof.
  unfold Scene.trimmed.
  assert (H : (TrimOldCommits Sample.world "u" "k" 2 Sample.boot).1 = Ret tt)
    by (by vm_compute).
  destruct (TrimOldCommits _ _ _ _ _) as [res m']. simpl in *. by subst.
Qed.

Lemma afterTrim_serves :
  serves Scene.afterTrim "u" "k" (repo Scene.trimmed)
    (S (size (Objects (repo Scene.trimmed)))).
Proof.
  exists Sample.auth,
    (plumbing.NewHashReference Sample.main
       (default plumbing.ZeroHash (Refs (repo Scene.trimmed) !! Sample.main))).
  split_and!.
  - by eexists.
  - reflexivity.
  - vm_compute. reflexivity.
  - vm_compute. reflexivity.
Qed.

Lemma sample_fuel_trimmed :
  (Z.to_nat 2 ≤ S (size (Objects (repo Scene.trimmed))))%nat.
Proof. vm_compute. lia. Qed.

Lemma sample_keep_inside : 1 ≤ 2 < len (iter_commits Sample.log).
Proof. by vm_compute. Qed.

Lemma trim_then_fetch_witness :
  ∃ listing,
    FetchCommits Scene.afterTrim "u" "k" 0 Sample.boot =
      (Ret listing, cloned (repo Scene.trimmed) Sample.boot) ∧
    len listing = 2 ∧
    sc_Message <$> listing = ["c"; "b"].
Proof.
  destruct (trim_then_fetch Sample.world Scene.afterTrim "u" "k" 2
              Sample.auth Sample.origin Sample.headRef Sample.log
              Sample.boot Scene.trimmed "u" "k"
              (S (size (Objects (repo Scene.trimmed)))) Sample.boot
              sample_world_opens (proj2 sample_len_bounds)
              sample_keep_inside idealHash_inj trimmed_run
              sample_fuel_trimmed afterTrim_serves)
    as (listing & Hfetch & Hlen & Hcontent & _).
  exists listing. split_and!; [exact Hfetch|exact Hlen|].
  apply (f_equal (fmap (λ x : string * string * string * Z, x.1.2)))
    in Hcontent.
  rewrite <- !list_fmap_compose in Hcontent. exact Hcontent.
Defined.

Lemma deleted_run :
  DeleteCommit Sample.world "u" "k" "C1" Sample.boot = (Ret tt, Scene.deleted).
Proof.
  unfold Scene.deleted.
  assert (H : (DeleteCommit Sample.world "u" "k" "C1" Sample.boot).1 = Ret tt)
    by (by vm_compute).
  destruct (DeleteCommit _ _ _ _ _) as [res m']. simpl in *. by subst.
Qed.

Lemma afterDelete_serves :
  serves Scene.afterDelete "u" "k" (repo Scene.deleted)
    (S (size (Objects (repo Scene.deleted)))).
Proof.
  exists Sample.auth,
    (plumbing.NewHashReference Sample.main
       (default plumbing.ZeroHash (Refs (repo Scene.deleted) !! Sample.main))).
  split_and!.
  - by eexists.
  - reflexivity.
  - vm_compute. reflexivity.
  - vm_compute. reflexivity.
Qed.

Lemma sample_fuel_deleted :
  (length (iter_commits Sample.log) - 1
   ≤ S (size (Objects (repo Scene.deleted))))%nat.
Proof. vm_compute. lia. Qed.

Lemma delete_then_fetch_witness :
  ∃ listing,
    FetchCommits Scene.afterDelete "u" "k" 0 Sample.boot =
      (Ret listing, cloned (repo Scene.deleted) Sample.boot) ∧
    len listing = 2.
Proof.
  destruct (delete_then_fetch Sample.world Scene.afterDelete "u" "k" "C1"
              Sample.auth Sample.origin Sample.headRef Sample.log
              Sample.boot Scene.deleted "u" "k"
              (S (size (Objects (repo Scene.deleted)))) Sample.boot
              sample_world_opens (proj2 sample_len_bounds) idealHash_inj
              deleted_run sample_fuel_deleted afterDelete_serves)
    as (t & d & listing & _ & _ & Hfetch & Hlen & _ & _).
  exists listing. split; [exact Hfetch|exact Hlen].
Defined.

Lemma trim_twice_witness :
  TrimOldCommits Scene.afterTrim "u" "k" 2 Sample.boot =
  (Ret tt, cloned (repo Scene.trimmed) Sample.boot).
Proof.
  apply (trim_twice Sample.world Scene.afterTrim "u" "k" 2 2
           Sample.auth Sample.origin Sample.headRef Sample.log
           Sample.boot Scene.trimmed "u" "k"
           (S (size (Objects (repo Scene.trimmed)))) Sample.boot
           sample_world_opens (proj2 sample_len_bounds)
           sample_keep_inside idealHash_inj trimmed_run
           sample_fuel_trimmed afterTrim_serves).
  lia.
Defined.

Lemma sample_fuel_deleted_all :
  (length (iter_commits Sample.log)
   ≤ S (size (Objects (repo Scene.deleted))))%nat.
Proof. vm_compute. lia. Qed.

Lemma sample_stale :
  plumbing_NewHash Scene.afterDelete "C2"
    ∈ (object.Hash <$> iter_commits Sample.log).
Proof. apply list_elem_of_lookup. exists 0%nat. vm_compute. reflexivity. Qed.

Lemma rewrite_makes_hashes_stale_witness :
  DeleteCommit Scene.afterDelete "u" "k" "C2" Sample.boot =
    (Err CommitNotFound, cloned (repo Scene.deleted) Sample.boot) ∧
  ModifyCommit Scene.afterDelete "u" "k" "C2" "fixed" Sample.boot =
    (Err CommitNotFound, cloned (repo Scene.deleted) Sample.boot).
Proof.
  apply (rewrite_makes_hashes_stale Sample.world Scene.afterDelete "u" "k" 2
           "C1" "fixed" Sample.auth Sample.origin Sample.headRef Sample.log
           Sample.boot Scene.deleted "u" "k"
           (S (size (Objects (repo Scene.deleted)))) "C2" "fixed" Sample.boot
           sample_world_opens (proj2 sample_len_bounds) sample_keep_range
           idealHash_inj sample_addressed sample_committers
           sample_fuel_deleted_all afterDelete_serves sample_stale).
  right. left. exact deleted_run.
Defined.
